(** * Pure-JS-Diagrammer: layout and geometry engine

  A shallow embedding of the render modules of the diagrammer
  ([render/svg.js], [render/flowchart.js], [render/sequence.js],
  [render/erd.js]) together with the properties of the layout core:
  text wrapping, flowchart layering, sequence layout, ERD packing,
  connection points and cardinality markers.

  Conventions of the embedding:
  - a JavaScript number is a rational [Q]; where the code can produce a
    non-finite value ([Math.min] of no arguments) the extended type
    [jsnum] is used;
  - a JavaScript [Map] is an association list in insertion order;
  - a JavaScript string is a [string];
  - an access that would raise a [TypeError] is an explicit error result. *)

From Stdlib Require Import List String Ascii Bool Arith ZArith QArith Lia.
From Stdlib Require Import Qabs Qminmax Permutation Sorted Relations OrdersEx.
Import ListNotations.

Local Open Scope string_scope.
Local Open Scope list_scope.

(** ** JavaScript [Map]: insertion-ordered association list *)

Module JSMap.

Class KeyEq (K : Type) := {
  keq : K -> K -> bool;
  keq_spec : forall a b, keq a b = true <-> a = b
}.

#[export] Instance string_keyeq : KeyEq string :=
  {| keq := String.eqb; keq_spec := String.eqb_eq |}.

#[export] Instance Z_keyeq : KeyEq Z :=
  {| keq := Z.eqb; keq_spec := Z.eqb_eq |}.

Section Ops.
Context {K V : Type} `{KeyEq K}.

Definition t := list (K * V).

(** [m.get(k)]; [None] stands for [undefined]. *)
Fixpoint get (k : K) (m : t) : option V :=
  match m with
  | [] => None
  | (k', v) :: m' => if keq k k' then Some v else get k m'
  end.

(** [m.set(k, v)]: an existing key keeps its position. *)
Fixpoint set (k : K) (v : V) (m : t) : t :=
  match m with
  | [] => [(k, v)]
  | (k', v') :: m' =>
      if keq k k' then (k', v) :: m' else (k', v') :: set k v m'
  end.

Definition has (k : K) (m : t) : bool :=
  match get k m with Some _ => true | None => false end.

Definition keys (m : t) : list K := map fst m.

Definition values (m : t) : list V := map snd m.

(** [new Map(pairs)] *)
Definition of_pairs (ps : list (K * V)) : t :=
  fold_left (fun m p => set (fst p) (snd p) m) ps [].

End Ops.

Arguments t : clear implicits.

End JSMap.

Import JSMap.

(** ** JavaScript numbers that may be non-finite *)

Inductive jsnum : Type :=
| Num (q : Q)
| PosInf
| NegInf
| NaN.

Definition jadd (a b : jsnum) : jsnum :=
  match a, b with
  | NaN, _ | _, NaN => NaN
  | Num x, Num y => Num (x + y)
  | PosInf, NegInf | NegInf, PosInf => NaN
  | PosInf, _ | _, PosInf => PosInf
  | NegInf, _ | _, NegInf => NegInf
  end.

Definition jneg (a : jsnum) : jsnum :=
  match a with
  | Num x => Num (- x)
  | PosInf => NegInf
  | NegInf => PosInf
  | NaN => NaN
  end.

Definition jsub (a b : jsnum) : jsnum := jadd a (jneg b).

Definition jmin (a b : jsnum) : jsnum :=
  match a, b with
  | NaN, _ | _, NaN => NaN
  | NegInf, _ | _, NegInf => NegInf
  | PosInf, y => y
  | x, PosInf => x
  | Num x, Num y => Num (Qmin x y)
  end.

(** [Math.min(...xs)]: [Infinity] for no arguments. *)
Definition Math_min (xs : list Q) : jsnum :=
  fold_left (fun acc x => jmin acc (Num x)) xs PosInf.

Definition is_finite (a : jsnum) : bool :=
  match a with Num _ => true | _ => false end.

(** [a > b] and [a < b] on finite numbers. *)
Definition Qgtb (a b : Q) : bool := negb (Qle_bool a b).
Definition Qltb (a b : Q) : bool := negb (Qle_bool b a).

Definition Qnat (n : nat) : Q := inject_Z (Z.of_nat n).

(** ** Strings: [split(" ")] and [join(" ")] *)

Definition space : ascii := " "%char.

(** [s.split(" ")]: the maximal space-free pieces of [s], never empty. *)
Fixpoint split_space (s : string) : list string :=
  match s with
  | EmptyString => [EmptyString]
  | String c s' =>
    if Ascii.eqb c space then EmptyString :: split_space s'
    else match split_space s' with
         | w :: ws => String c w :: ws
         | [] => [String c EmptyString]
         end
  end.

(** [lines.join(" ")] *)
Definition join_space (ls : list string) : string := String.concat " " ls.

Fixpoint no_space (s : string) : Prop :=
  match s with
  | EmptyString => True
  | String c s' => c <> space /\ no_space s'
  end.

(** ** render/svg.js: text measurement and wrapping *)

(** The estimate [measureText] falls back to when the backend cannot
    measure: [text.length * (fontSize * 0.6)]. *)
Definition approximateTextLength (text : string) (fontSize : Q)
    (fontFamily : string) : Q :=
  Qnat (String.length text) * (fontSize * (6 # 10)).

Section Svg.

(** The width the backend measures for a non-empty [text] with the given
    font size and family: [textEl.getComputedTextLength()], or the
    estimate [measureText] falls back to when that call raises. *)
Variable getComputedTextLength : string -> Q -> string -> Q.

Definition measureText (text : string) (fontSize : Q) (fontFamily : string) : Q :=
  match text with
  | EmptyString => 0
  | _ => getComputedTextLength text fontSize fontFamily
  end.

(** The [for] loop of [wrapText] over [words[1..]]; the state is
    [(lines, currentLine)]. *)
Fixpoint wrap_loop (maxWidth fontSize : Q) (fontFamily : string)
    (words : list string) (lines : list string) (currentLine : string)
    : list string * string :=
  match words with
  | [] => (lines, currentLine)
  | word :: rest =>
      let testLine := (currentLine ++ " " ++ word)%string in
      if Qle_bool (measureText testLine fontSize fontFamily) maxWidth
      then wrap_loop maxWidth fontSize fontFamily rest lines testLine
      else wrap_loop maxWidth fontSize fontFamily rest
             (lines ++ [currentLine]) word
  end.

Definition wrapText (text : string) (maxWidth fontSize : Q)
    (fontFamily : string) : list string :=
  if Qle_bool (measureText text fontSize fontFamily) maxWidth then [text]
  else
    match split_space text with
    | [] => []  (* [split] never returns an empty array *)
    | w0 :: rest =>
        let '(lines, currentLine) :=
          wrap_loop maxWidth fontSize fontFamily rest [] w0 in
        lines ++ [currentLine]
    end.

(** A returned line is acceptable for the words [ws] of the text: it
    fits, or it is one whole word of the text that alone is too wide. *)
Definition line_ok (maxWidth fontSize : Q) (fontFamily : string)
    (ws : list string) (line : string) : Prop :=
  (measureText line fontSize fontFamily <= maxWidth)%Q
  \/ (In line ws /\ no_space line
      /\ (maxWidth < measureText line fontSize fontFamily)%Q).

(** The line under construction fits, or is still a single word. *)
Definition current_ok (maxWidth fontSize : Q) (fontFamily : string)
    (ws : list string) (line : string) : Prop :=
  (measureText line fontSize fontFamily <= maxWidth)%Q
  \/ (In line ws /\ no_space line).

End Svg.


(** ** The scene handed to the rendering backend *)

Record rect : Type := mkRect {
  r_x : Q; r_y : Q; r_width : Q; r_height : Q }.

Record point : Type := mkPoint { p_x : Q; p_y : Q }.

(** A [<text>] element: content, anchor position and pre-wrapped lines. *)
Record text_el : Type := mkText {
  t_content : string; t_x : Q; t_y : Q; t_lines : list string }.

(** A [<path>] element [M p0 L p1 L ...] with its markers. *)
Record path_el : Type := mkPath {
  path_points : list point;
  marker_start : option string;
  marker_end : option string }.

Record scene : Type := mkScene {
  sc_rects : list rect;
  sc_texts : list text_el;
  sc_paths : list path_el;
  sc_warnings : list string  (* [console.warn] diagnostics *) }.

(** The four numbers of the [viewBox] string, in order. *)
Record viewBox : Type := mkViewBox {
  vb_x : jsnum; vb_y : jsnum; vb_width : jsnum; vb_height : jsnum }.

Inductive render_result : Type :=
| Success (s : scene) (vb : viewBox)   (* [{ success: true, svgElement, viewBox }] *)
| Failure (error : string)             (* [{ success: false, error }] *)
| Throws (exn : string).               (* an uncaught exception *)

(** *** Edge midpoints of a box *)

Definition center_x (r : rect) : Q := r_x r + r_width r / 2.
Definition center_y (r : rect) : Q := r_y r + r_height r / 2.


(** ** render/flowchart.js: graph construction and layering *)

Module Flowchart.

Definition NODE_WIDTH : Q := 180.
Definition NODE_HEIGHT : Q := 80.
Definition H_GAP : Q := 80.
Definition V_GAP : Q := 100.
Definition TEXT_PADDING_X : Q := 15.
Definition TEXT_PADDING_Y : Q := 10.
Definition FONT_SIZE : Q := 16.
Definition FONT_FAMILY : string := "sans-serif".

(** Caller-owned input objects. *)
Record node : Type := mkNode { n_id : string; n_label : string }.

Record edge : Type := mkEdge {
  e_from : string; e_to : string; e_label : option string }.

(** [data.nodes] and [data.edges]; [None] is a missing collection. *)
Record data : Type := mkData {
  d_nodes : option (list node);
  d_edges : option (list edge) }.

(** The fresh record [{ ...node, x, y, width, height }] of [nodesMap]. *)
Record pnode : Type := mkPnode {
  id : string; label : string;
  x : Q; y : Q; width : Q; height : Q }.

Definition make_nodesMap (nodes : list node) : JSMap.t string pnode :=
  of_pairs
    (map (fun n => (n_id n, mkPnode (n_id n) (n_label n) 0 0 NODE_WIDTH NODE_HEIGHT))
       nodes).

Record graph : Type := mkGraph {
  adj : JSMap.t string (list string);
  inDegree : JSMap.t string Z }.

(** The body of [edges.forEach] in [buildGraph].  Both maps have the keys
    of [nodes], so the inner lookups succeed once the [has] tests did. *)
Definition add_edge (g : graph) (e : edge) : graph :=
  if has (e_from e) (adj g) && has (e_to e) (adj g) then
    match get (e_from e) (adj g), get (e_to e) (inDegree g) with
    | Some succs, Some d =>
        mkGraph (set (e_from e) (succs ++ [e_to e]) (adj g))
                (set (e_to e) (d + 1)%Z (inDegree g))
    | _, _ => g
    end
  else g.

Definition buildGraph (nodes : list node) (edges : list edge)
    (nodesMap : JSMap.t string pnode) : graph :=
  let adj := of_pairs (map (fun n => (n_id n, @nil string)) nodes) in
  let inDegree := of_pairs (map (fun n => (n_id n, 0%Z)) nodes) in
  fold_left add_edge edges (mkGraph adj inDegree).

(** [if (!layers.has(l)) layers.set(l, []); layers.get(l).push(nodeId)] *)
Definition layer_push (l : Z) (nodeId : string)
    (layers : JSMap.t Z (list string)) : JSMap.t Z (list string) :=
  let layers' := if has l layers then layers else set l [] layers in
  match get l layers' with
  | Some ids => set l (ids ++ [nodeId]) layers'
  | None => layers'
  end.

(** The mutable state of [assignLayers]. *)
Record bfs_state : Type := mkState {
  q : list string;
  head : nat;
  deg : JSMap.t string Z;            (* [inDegree] *)
  layers : JSMap.t Z (list string);
  nodeLayers : JSMap.t string Z }.

(** The first loop: every node of in-degree 0 is a source of layer 0. *)
Definition seed_source (st : bfs_state) (entry : string * Z) : bfs_state :=
  let '(nodeId, degree) := entry in
  if (degree =? 0)%Z then
    mkState (q st ++ [nodeId]) (head st) (deg st)
            (layer_push 0 nodeId (layers st))
            (set nodeId 0%Z (nodeLayers st))
  else st.

(** The body of [for (const v of adj.get(u))].  [None]: [v] has no
    in-degree entry, which cannot happen for an adjacency list built by
    [buildGraph]. *)
Definition visit (currentLayer : Z) (st : bfs_state) (v : string)
    : option bfs_state :=
  match get v (deg st) with
  | None => None
  | Some d =>
      let deg' := set v (d - 1)%Z (deg st) in
      if (d - 1 =? 0)%Z then
        let nextLayer := (currentLayer + 1)%Z in
        Some (mkState (q st ++ [v]) (head st) deg'
                (layer_push nextLayer v (layers st))
                (set v nextLayer (nodeLayers st)))
      else Some (mkState (q st) (head st) deg' (layers st) (nodeLayers st))
  end.

Fixpoint visit_all (currentLayer : Z) (vs : list string) (st : bfs_state)
    : option bfs_state :=
  match vs with
  | [] => Some st
  | v :: vs' =>
      match visit currentLayer st v with
      | Some st' => visit_all currentLayer vs' st'
      | None => None
      end
  end.

(** One iteration of [while (head < q.length)]: dequeue [u = q[head++]]
    and relax its outgoing edges. *)
Definition dequeue (adj : JSMap.t string (list string)) (st : bfs_state)
    : option bfs_state :=
  match nth_error (q st) (head st) with
  | None => None
  | Some u =>
      match get u (nodeLayers st), get u adj with
      | Some currentLayer, Some succs =>
          visit_all currentLayer succs
            (mkState (q st) (S (head st)) (deg st) (layers st) (nodeLayers st))
      | _, _ => None
      end
  end.

(** The [while] loop, bounded by [fuel] iterations; [None] when the fuel
    runs out or an access is undefined. *)
Fixpoint bfs_loop (fuel : nat) (adj : JSMap.t string (list string))
    (st : bfs_state) : option bfs_state :=
  if (head st <? List.length (q st))%nat then
    match fuel with
    | O => None
    | S fuel' =>
        match dequeue adj st with
        | Some st' => bfs_loop fuel' adj st'
        | None => None
        end
    end
  else Some st.

(** [layers.size > 0 ? Math.max(...layers.keys()) : -1] *)
Definition maxExistingLayer (layers : JSMap.t Z (list string)) : Z :=
  match keys layers with
  | [] => (-1)%Z
  | k :: ks => fold_left Z.max ks k
  end.

(** The body of the final [nodesMap.forEach]: a node without a layer goes
    to [maxExistingLayer + 1], computed at that moment. *)
Definition place_leftover
    (acc : JSMap.t Z (list string) * JSMap.t string Z) (node : pnode)
    : JSMap.t Z (list string) * JSMap.t string Z :=
  let '(layers, nodeLayers) := acc in
  if has (id node) nodeLayers then acc
  else
    let targetLayer := (maxExistingLayer layers + 1)%Z in
    (layer_push targetLayer (id node) layers,
     set (id node) targetLayer nodeLayers).

Record layersData : Type := mkLayers {
  ld_layers : JSMap.t Z (list string);
  ld_nodeLayers : JSMap.t string Z }.

(** The state when the [while] loop of [assignLayers] ends. *)
Definition forward_pass (g : graph) : option bfs_state :=
  let st0 := fold_left seed_source (inDegree g)
               (mkState [] 0 (inDegree g) [] []) in
  bfs_loop (List.length (inDegree g)) (adj g) st0.

Definition assignLayers (g : graph) (nodesMap : JSMap.t string pnode)
    : option layersData :=
  match forward_pass g with
  | None => None
  | Some st =>
      let '(layers, nodeLayers) :=
        fold_left place_leftover (values nodesMap)
          (layers st, nodeLayers st) in
      Some (mkLayers layers nodeLayers)
  end.

(** [Array.from(layers.keys()).sort((a, b) => a - b)]: numeric order. *)
Fixpoint insert_key (k : Z) (ks : list Z) : list Z :=
  match ks with
  | [] => [k]
  | k' :: ks' => if (k <=? k')%Z then k :: ks else k' :: insert_key k ks'
  end.

Definition sort_keys (ks : list Z) : list Z := fold_right insert_key [] ks.

(** The [forEach] over one layer in [positionNodes]; [None] is the
    [TypeError] of writing to an undefined [nodesMap.get(nodeId)]. *)
Fixpoint place_layer (nodesMap : JSMap.t string pnode) (startX currentY : Q)
    (i : nat) (ids : list string) : option (list pnode) :=
  match ids with
  | [] => Some []
  | nodeId :: rest =>
      match get nodeId nodesMap with
      | None => None
      | Some node =>
          match place_layer nodesMap startX currentY (S i) rest with
          | None => None
          | Some ps =>
              Some (mkPnode (id node) (label node)
                      (startX + Qnat i * (NODE_WIDTH + H_GAP)) currentY
                      (width node) (height node) :: ps)
          end
      end
  end.

Fixpoint position_layers (nodesMap : JSMap.t string pnode)
    (layers : JSMap.t Z (list string)) (sortedLayerKeys : list Z)
    (currentY : Q) : option (list pnode) :=
  match sortedLayerKeys with
  | [] => Some []
  | layerIndex :: rest =>
      match get layerIndex layers with
      | None => None
      | Some nodeIdsInLayer =>
          let numNodes := Qnat (List.length nodeIdsInLayer) in
          let totalWidth := numNodes * NODE_WIDTH + (numNodes - 1) * H_GAP in
          let startX := - totalWidth / 2 + NODE_WIDTH / 2 in
          match place_layer nodesMap startX currentY 0 nodeIdsInLayer,
                position_layers nodesMap layers rest
                  (currentY + (NODE_HEIGHT + V_GAP)) with
          | Some here, Some below => Some (here ++ below)
          | _, _ => None
          end
      end
  end.

Definition positionNodes (ld : layersData) (nodesMap : JSMap.t string pnode)
    : option (list pnode) :=
  position_layers nodesMap (ld_layers ld)
    (sort_keys (keys (ld_layers ld))) 0.

Section Render.

Variable getComputedTextLength : string -> Q -> string -> Q.

Definition node_rect (n : pnode) : rect :=
  mkRect (x n) (y n) (width n) (height n).

Definition node_text (n : pnode) : text_el :=
  let wrappedLines :=
    wrapText getComputedTextLength (label n)
      (NODE_WIDTH - TEXT_PADDING_X * 2) FONT_SIZE FONT_FAMILY in
  let textY :=
    y n + height n / 2
    - ((Qnat (List.length wrappedLines) - 1) * FONT_SIZE * (6 # 10)) / 2 in
  mkText (label n) (x n + width n / 2) textY wrappedLines.

(** The body of [data.edges.forEach]: the elbow path and its label, or a
    warning when an endpoint is not among the positioned nodes. *)
Definition draw_edge (positionedNodes : list pnode) (sc : scene) (e : edge)
    : scene :=
  match find (fun n => String.eqb (id n) (e_from e)) positionedNodes,
        find (fun n => String.eqb (id n) (e_to e)) positionedNodes with
  | Some fromNode, Some toNode =>
      let x1 := x fromNode + width fromNode / 2 in
      let y1 := y fromNode + height fromNode in
      let x2 := x toNode + width toNode / 2 in
      let y2 := y toNode in
      let edgePath :=
        mkPath [mkPoint x1 y1; mkPoint x1 (y1 + V_GAP / 2);
                mkPoint x2 (y1 + V_GAP / 2); mkPoint x2 y2]
               None (Some "url(#arrowhead)") in
      let labels :=
        match e_label e with
        | None | Some EmptyString => []
        | Some l => [mkText l ((x1 + x2) / 2) (y1 + V_GAP / 2 + 5) []]
        end in
      mkScene (sc_rects sc) (sc_texts sc ++ labels)
              (sc_paths sc ++ [edgePath]) (sc_warnings sc)
  | _, _ =>
      mkScene (sc_rects sc) (sc_texts sc) (sc_paths sc)
        (sc_warnings sc ++
           [("Missing node for edge: " ++ e_from e ++ " -> " ++ e_to e)%string])
  end.

Definition flowchart_viewBox (positionedNodes : list pnode) : viewBox :=
  let maxX := fold_left (fun m n => Qmax m (x n + width n)) positionedNodes 0 in
  let maxY := fold_left (fun m n => Qmax m (y n + height n)) positionedNodes 0 in
  let padding := 50 in
  let finalWidth := maxX + padding in
  let finalHeight := maxY + padding in
  let initialX := jsub (Math_min (map x positionedNodes)) (Num (padding / 2)) in
  let initialY := jsub (Math_min (map y positionedNodes)) (Num (padding / 2)) in
  mkViewBox initialX initialY
    (jadd (jsub (Num finalWidth) initialX) (Num (padding / 2)))
    (jadd (jsub (Num finalHeight) initialY) (Num (padding / 2))).

Definition renderFlowchart (d : data) : render_result :=
  match d_nodes d, d_edges d with
  | Some nodes, Some edges =>
      let nodesMap := make_nodesMap nodes in
      let graph := buildGraph nodes edges nodesMap in
      match assignLayers graph nodesMap with
      | None => Throws "TypeError"
      | Some layers =>
          match positionNodes layers nodesMap with
          | None => Throws "TypeError"
          | Some positionedNodes =>
              let drawn :=
                mkScene (map node_rect positionedNodes)
                        (map node_text positionedNodes) [] [] in
              Success (fold_left (draw_edge positionedNodes) edges drawn)
                      (flowchart_viewBox positionedNodes)
          end
      end
  | _, _ => Failure "Invalid flowchart data: missing nodes or edges"
  end.

End Render.

End Flowchart.


(** ** Flowchart layering: the abstract graph and the loop invariant *)

Module Layering.
Import Flowchart.

Definition mem (k : string) (l : list string) : bool :=
  existsb (String.eqb k) l.

(** The edges [buildGraph] keeps: both endpoints are node ids. *)
Definition kept_edges (ids : list string) (edges : list edge) : list edge :=
  filter (fun e => mem (e_from e) ids && mem (e_to e) ids) edges.

(** Successors of [u] in edge order, and the in-degree of [v]. *)
Definition succs (E : list edge) (u : string) : list string :=
  map e_to (filter (fun e => String.eqb (e_from e) u) E).

Definition indeg (E : list edge) (v : string) : nat :=
  List.length (filter (fun e => String.eqb (e_to e) v) E).

(** The edge relation of the input and its acyclicity: no node reaches
    itself along one or more edges. *)
Definition edge_rel (edges : list edge) (u v : string) : Prop :=
  exists e, In e edges /\ e_from e = u /\ e_to e = v.

Definition acyclic (edges : list edge) : Prop :=
  forall u, ~ clos_trans string (edge_rel edges) u u.

(** In-edges of [v] not yet relaxed: those still to visit in the current
    adjacency list, and those whose source is not dequeued. *)
Definition remaining (E : list edge) (done todo : list string) (v : string)
    : nat :=
  count_occ string_dec todo v
  + List.length
      (filter (fun e => String.eqb (e_to e) v && negb (mem (e_from e) done)) E).

Definition layerOf (nodeLayers : JSMap.t string Z) (x : string) : Z :=
  match get x nodeLayers with
  | Some l => l
  | None => 0%Z
  end.

(** [layers] and [nodeLayers] describe the same assignment: a node with
    layer [l] is listed in [layers.get(l)], and only there. *)
Definition layers_consistent (layers : JSMap.t Z (list string))
    (nodeLayers : JSMap.t string Z) : Prop :=
  (forall x l, get x nodeLayers = Some l ->
     exists ids, get l layers = Some ids /\ In x ids)
  /\ (forall l ids x, get l layers = Some ids -> In x ids ->
        get x nodeLayers = Some l).

(** The dequeued nodes [q[0..head)]. *)
Definition dequeued (st : bfs_state) : list string :=
  firstn (head st) (q st).

(** The invariant of the [while] loop of [assignLayers], for the kept
    edges [E], the node ids [K] and the part [todo] of the current
    adjacency list still to visit. *)
Record bfs_inv (E : list edge) (K todo : list string) (st : bfs_state)
    : Prop := mkInv {
  inv_head : (head st <= List.length (q st))%nat;
  inv_nodup : NoDup (q st);
  inv_keys : incl (q st) K;
  inv_todo : incl todo K;
  inv_deg : forall v, In v K ->
    get v (deg st) = Some (Z.of_nat (remaining E (dequeued st) todo v));
  inv_queued : forall v, In v K ->
    (In v (q st) <-> remaining E (dequeued st) todo v = 0%nat);
  inv_layer : forall v, In v (q st) <-> get v (nodeLayers st) <> None;
  inv_sorted :
    StronglySorted
      (fun a b => (layerOf (nodeLayers st) a <= layerOf (nodeLayers st) b)%Z)
      (q st);
  inv_edges : forall e, In e E -> In (e_to e) (q st) ->
    In (e_from e) (q st)
    /\ (layerOf (nodeLayers st) (e_from e) < layerOf (nodeLayers st) (e_to e))%Z;
  inv_consistent : layers_consistent (layers st) (nodeLayers st)
}.

(** While the successors of a node of layer [c] are visited: the
    dequeued nodes are at most at layer [c], the queued ones at most at
    [c + 1]. *)
Definition layer_bounds (c : Z) (st : bfs_state) : Prop :=
  Forall (fun x => (layerOf (nodeLayers st) x <= c)%Z) (dequeued st)
  /\ Forall (fun x => (layerOf (nodeLayers st) x <= c + 1)%Z) (q st).

(** Between two iterations: every queued node is at most one layer below
    the node to dequeue next. *)
Definition next_bound (st : bfs_state) : Prop :=
  forall u, nth_error (q st) (head st) = Some u ->
  Forall (fun x => (layerOf (nodeLayers st) x <= layerOf (nodeLayers st) u + 1)%Z)
         (q st).

(** An entry of [inDegree] with degree 0. *)
Definition is_source (entry : string * Z) : bool := (snd entry =? 0)%Z.

(** Sample flowcharts: the chain A -> B -> C, and A -> B with B and C on
    a cycle. *)
Definition abc_nodes : list node :=
  [mkNode "A" "Start"; mkNode "B" "Work"; mkNode "C" "End"].
Definition chain_edges : list edge :=
  [mkEdge "A" "B" None; mkEdge "B" "C" None].
Definition cycle_edges : list edge :=
  [mkEdge "A" "B" None; mkEdge "B" "C" None; mkEdge "C" "B" None].
Definition chain_rank (s : string) : nat :=
  if String.eqb s "A" then 0 else if String.eqb s "B" then 1 else 2.

(** What [buildGraph] has built after the edges [E] were kept. *)
Definition graph_inv (ids : list string) (E : list edge) (g : graph) : Prop :=
  (forall k, In k (keys (adj g)) <-> In k ids)
  /\ (forall k, In k (keys (inDegree g)) <-> In k ids)
  /\ (forall u, In u ids -> get u (adj g) = Some (succs E u))
  /\ (forall v, In v ids ->
        get v (inDegree g) = Some (Z.of_nat (indeg E v)))
  /\ NoDup (keys (inDegree g)).

End Layering.

(** ** render/sequence.js *)

Module Sequence.

Definition PARTICIPANT_WIDTH : Q := 120.
Definition PARTICIPANT_HEIGHT : Q := 40.
Definition LIFELINE_Y_START : Q := 80.
Definition MESSAGE_HEIGHT : Q := 60.
Definition HORIZONTAL_MARGIN : Q := 50.
Definition LIFELINE_OFFSET : Q := 20.
Definition FONT_SIZE : Q := 14.
Definition FONT_FAMILY : string := "sans-serif".

Record message : Type := mkMessage {
  m_from : string; m_to : string; m_text : string }.

Record data : Type := mkData {
  d_participants : option (list string);
  d_messages : option (list message) }.

Definition is_digit (c : ascii) : bool :=
  let n := nat_of_ascii c in (48 <=? n)%nat && (n <=? 57)%nat.

(** [\s] on the code units below 256. *)
Definition is_whitespace (c : ascii) : bool :=
  let n := nat_of_ascii c in
  ((9 <=? n)%nat && (n <=? 13)%nat) || (n =? 32)%nat || (n =? 160)%nat.

(** [msg.text.match(/^\d{3}\s/)] as a truth value. *)
Definition isReply (text : string) : bool :=
  match text with
  | String a (String b (String c (String d _))) =>
      is_digit a && is_digit b && is_digit c && is_whitespace d
  | _ => false
  end.

(** [participantX]: the x slot of each participant.  The loop state is
    the map and [currentX]. *)
Definition assign_slots (participantSpacing : Q) (participants : list string)
    : JSMap.t string Q :=
  fst (fold_left
         (fun (st : JSMap.t string Q * Q) p =>
            let '(m, currentX) := st in
            (set p currentX m, currentX + (PARTICIPANT_WIDTH + participantSpacing)))
         participants
         ([], HORIZONTAL_MARGIN + PARTICIPANT_WIDTH / 2)).

(** [Math.max(PARTICIPANT_WIDTH + 80, (n > 1 ? 500 : 0) / (n - 1 || 1))] *)
Definition participantSpacing (numParticipants : nat) : Q :=
  let n := Qnat numParticipants in
  Qmax (PARTICIPANT_WIDTH + 80)
       ((if Qgtb n 1 then 500 else 0)
        / (if Qeq_bool (n - 1) 0 then 1 else n - 1)).

(** State of the message loop. *)
Record msg_state : Type := mkMsgState {
  currentY : Q;
  maxMessageY : Q;
  ms_texts : list text_el;
  ms_paths : list path_el;
  ms_warnings : list string }.

Section Render.

Variable getComputedTextLength : string -> Q -> string -> Q.

Definition header_rect (x : Q) : rect :=
  mkRect (x - PARTICIPANT_WIDTH / 2) 10 PARTICIPANT_WIDTH PARTICIPANT_HEIGHT.

Definition header_text (p : string) (x : Q) : text_el :=
  let wrappedLines :=
    wrapText getComputedTextLength p (PARTICIPANT_WIDTH - 20)
      FONT_SIZE FONT_FAMILY in
  let textY :=
    10 + PARTICIPANT_HEIGHT / 2
    - ((Qnat (List.length wrappedLines) - 1) * FONT_SIZE * (6 # 10)) / 2 in
  mkText p x textY wrappedLines.

(** The body of [messages.forEach].  [inl exn]: the property access
    [participantX.get(name).x] on [undefined] raises a [TypeError]. *)
Definition draw_message (participantX : JSMap.t string Q) (st : msg_state)
    (msg : message) : string + msg_state :=
  match get (m_from msg) participantX with
  | None => inl "TypeError"
  | Some fromX =>
      match get (m_to msg) participantX with
      | None => inl "TypeError"
      | Some toX =>
          if Qeq_bool fromX 0 || Qeq_bool toX 0 then
            inr (mkMsgState (currentY st) (maxMessageY st) (ms_texts st)
                   (ms_paths st)
                   (ms_warnings st ++
                      [("Participant not found for message: " ++ m_from msg
                        ++ " -> " ++ m_to msg)%string]))
          else
            let currentY := currentY st + MESSAGE_HEIGHT in
            let marker :=
              if isReply (m_text msg) then "url(#replyArrowhead)"
              else "url(#arrowhead)" in
            let arrow :=
              mkPath [mkPoint fromX currentY; mkPoint toX currentY]
                     None (Some marker) in
            let labelX := (fromX + toX) / 2 in
            let labelY := currentY - 8 in
            let textWidthEstimate := Qabs (fromX - toX) - 20 in
            let wrappedLines :=
              wrapText getComputedTextLength (m_text msg) textWidthEstimate
                (FONT_SIZE * (85 # 100)) FONT_FAMILY in
            inr (mkMsgState currentY (Qmax (maxMessageY st) currentY)
                   (ms_texts st ++ [mkText (m_text msg) labelX labelY wrappedLines])
                   (ms_paths st ++ [arrow])
                   (ms_warnings st))
      end
  end.

Fixpoint draw_messages (participantX : JSMap.t string Q) (st : msg_state)
    (messages : list message) : string + msg_state :=
  match messages with
  | [] => inr st
  | msg :: rest =>
      match draw_message participantX st msg with
      | inl exn => inl exn
      | inr st' => draw_messages participantX st' rest
      end
  end.

(** The slot of each participant, in participant order; [None] when a
    participant has no slot (it always has one, the map was built from
    the same list). *)
Fixpoint header_slots (participantX : JSMap.t string Q)
    (participants : list string) : option (list (string * Q)) :=
  match participants with
  | [] => Some []
  | p :: rest =>
      match get p participantX, header_slots participantX rest with
      | Some x, Some hs => Some ((p, x) :: hs)
      | _, _ => None
      end
  end.

(** The lifelines after the final [forEach].  Each participant entry
    creates a line from [LIFELINE_Y_START] to itself and records it in
    the slot of its name; the last line recorded for a name is the one
    that is extended to [y2]. *)
Fixpoint lifelines (slots : list (string * Q)) (y2 : Q) : list path_el :=
  match slots with
  | [] => []
  | (p, x) :: rest =>
      mkPath [mkPoint x LIFELINE_Y_START;
              mkPoint x (if existsb (fun s => String.eqb (fst s) p) rest
                         then LIFELINE_Y_START else y2)]
             None None
      :: lifelines rest y2
  end.

Definition renderSequence (d : data) : render_result :=
  match d_participants d, d_messages d with
  | Some participants, Some messages =>
      let numParticipants := List.length participants in
      if (numParticipants =? 0)%nat then
        Success (mkScene [] [] [] [])
                (mkViewBox (Num 0) (Num 0) (Num 100) (Num 100))
      else
        let spacing := participantSpacing numParticipants in
        let totalContentWidth :=
          Qnat numParticipants * PARTICIPANT_WIDTH
          + (Qnat numParticipants - 1) * spacing in
        let svgWidth := totalContentWidth + HORIZONTAL_MARGIN * 2 in
        let participantX := assign_slots spacing participants in
        match header_slots participantX participants with
        | None => Throws "TypeError"
        | Some slots =>
            match draw_messages participantX
                    (mkMsgState LIFELINE_Y_START LIFELINE_Y_START [] [] [])
                    messages with
            | inl exn => Throws exn
            | inr st =>
                let svgHeight := maxMessageY st + LIFELINE_OFFSET + 30 in
                Success
                  (mkScene (map (fun s => header_rect (snd s)) slots)
                           (map (fun s => header_text (fst s) (snd s)) slots
                            ++ ms_texts st)
                           (lifelines slots (maxMessageY st + LIFELINE_OFFSET)
                            ++ ms_paths st)
                           (ms_warnings st))
                  (mkViewBox (Num 0) (Num 0) (Num svgWidth) (Num svgHeight))
            end
        end
  | _, _ => Failure "Invalid sequence data: missing participants or messages"
  end.

End Render.

End Sequence.


(** ** render/erd.js *)

Module ERD.

Definition ENTITY_HEADER_HEIGHT : Q := 30.
Definition ATTRIBUTE_HEIGHT : Q := 20.
Definition ENTITY_PADDING_X : Q := 15.
Definition ENTITY_PADDING_Y : Q := 10.
Definition ENTITY_MIN_WIDTH : Q := 150.
Definition ENTITY_MAX_WIDTH : Q := 300.
Definition ENTITY_H_GAP : Q := 80.
Definition ENTITY_V_GAP : Q := 80.
Definition FONT_SIZE_ENTITY : Q := 16.
Definition FONT_SIZE_ATTRIBUTE : Q := 14.
Definition FONT_FAMILY : string := "sans-serif".

Record attribute : Type := mkAttribute {
  a_name : string; a_type : string;
  pk : bool; fk : option string; unique : bool }.

(** A caller-owned entity object.  [e_calculatedWidth] and
    [e_calculatedHeight] are [None] while the object has no such
    property. *)
Record entity : Type := mkEntity {
  e_name : string;
  e_attributes : list attribute;
  e_calculatedWidth : option Q;
  e_calculatedHeight : option Q }.

Record relationship : Type := mkRelationship {
  rel_from : string; rel_to : string; cardinality : string }.

(** The caller's [data] object with the objects it reaches. *)
Record data : Type := mkData {
  d_entities : option (list entity);
  d_relationships : option (list relationship) }.

(** The fresh record [{ ...entity, x: 0, y: 0 }] kept in [entitiesMap]. *)
Record pentity : Type := mkPentity {
  name : string;
  attributes : list attribute;
  calculatedWidth : Q;
  calculatedHeight : Q;
  x : Q;
  y : Q }.

Definition set_xy (e : pentity) (x' y' : Q) : pentity :=
  mkPentity (name e) (attributes e) (calculatedWidth e) (calculatedHeight e)
            x' y'.

(** *** Cardinality markers *)

Definition marker_one : string := "url(#one)".
Definition marker_zero_or_one : string := "url(#zeroOrOne)".
Definition marker_many : string := "url(#oneToMany)".
Definition marker_zero_or_many : string := "url(#zeroOrMany)".

(** [getCardinalityMarker(cardinality, position)].  The source also
    computes [cardinality.split("..")] and never uses the parts. *)
Definition getCardinalityMarker (cardinality position : string) : string :=
  if String.eqb position "start" then
    if String.eqb cardinality "*..*" then "url(#oneToMany)"
    else "url(#one)"
  else
    if String.eqb cardinality "0..1" then "url(#zeroOrOne)"
    else if String.eqb cardinality "1..1" then "url(#one)"
    else if String.eqb cardinality "1..*" then "url(#oneToMany)"
    else if String.eqb cardinality "0..*" then "url(#zeroOrMany)"
    else if String.eqb cardinality "*..*" then "url(#oneToMany)"
    else "url(#one)".

(** *** Connection points *)

Definition getClosestConnectionPoints (rect1 rect2 : rect) : point * point :=
  let c1x := r_x rect1 + r_width rect1 / 2 in
  let c1y := r_y rect1 + r_height rect1 / 2 in
  let c2x := r_x rect2 + r_width rect2 / 2 in
  let c2y := r_y rect2 + r_height rect2 / 2 in
  let dx := c2x - c1x in
  let dy := c2y - c1y in
  (* the first estimate of [p1] and [p2], replaced below in both branches *)
  let estimate_x :=
    if Qltb c1x (c2x - r_width rect2 / 2)
    then (r_x rect1 + r_width rect1, r_x rect2)
    else if Qgtb c1x (c2x + r_width rect2 / 2)
    then (r_x rect1, r_x rect2 + r_width rect2)
    else (c1x, c2x) in
  let estimate_y :=
    if Qltb c1y (c2y - r_height rect2 / 2)
    then (r_y rect1 + r_height rect1, r_y rect2)
    else if Qgtb c1y (c2y + r_height rect2 / 2)
    then (r_y rect1, r_y rect2 + r_height rect2)
    else (c1y, c2y) in
  if Qgtb (Qabs dx) (Qabs dy) then
    (mkPoint (if Qgtb dx 0 then r_x rect1 + r_width rect1 else r_x rect1) c1y,
     mkPoint (if Qgtb dx 0 then r_x rect2 else r_x rect2 + r_width rect2) c2y)
  else
    (mkPoint c1x (if Qgtb dy 0 then r_y rect1 + r_height rect1 else r_y rect1),
     mkPoint c2x (if Qgtb dy 0 then r_y rect2 else r_y rect2 + r_height rect2)).

(** State of the [forEach] of [layoutEntitiesGrid]. *)
Record grid_state : Type := mkGrid {
  currentX : Q;
  currentY : Q;
  rowMaxHeight : Q;
  placedEntities : list pentity }.

(** [currentX + w + ENTITY_H_GAP > 800 + ENTITY_H_GAP] *)
Definition overflows (currentX w : Q) : bool :=
  Qgtb (currentX + w + ENTITY_H_GAP) (800 + ENTITY_H_GAP).

Definition place_entity (st : grid_state) (entity : pentity) : grid_state :=
  let wrap :=
    (0 <? List.length (placedEntities st))%nat
    && overflows (currentX st) (calculatedWidth entity) in
  let currentX := if wrap then 0 else currentX st in
  let currentY :=
    if wrap then currentY st + (rowMaxHeight st + ENTITY_V_GAP)
    else currentY st in
  let rowMaxHeight := if wrap then 0 else rowMaxHeight st in
  mkGrid (currentX + (calculatedWidth entity + ENTITY_H_GAP))
         currentY
         (Qmax rowMaxHeight (calculatedHeight entity))
         (placedEntities st ++ [set_xy entity currentX currentY]).

(** *** Row-fill description of the packing *)






(** An entity without its position. *)
Definition unplaced (e : pentity) : pentity := set_xy e 0 0.

(** A consistent comparator to run the packing on concrete names: the
    order of the code units. *)
Definition codeUnitCompare (a b : string) : Z :=
  match String_as_OT.compare a b with
  | Lt => (-1)%Z
  | Eq => 0%Z
  | Gt => 1%Z
  end.

(** Three sized entities to run the packing on. *)
Definition orders : pentity := mkPentity "Order" [] 400 70 0 0.
Definition users : pentity := mkPentity "User" [] 300 50 0 0.
Definition items : pentity := mkPentity "Item" [] 300 90 0 0.

Section Render.

(** The text measurement of the backend and [String.prototype.localeCompare]
    of the runtime. *)
Variable getComputedTextLength : string -> Q -> string -> Q.
Variable localeCompare : string -> string -> Z.

(** [entities.sort((a, b) => a.name.localeCompare(b.name))]: the sort is
    stable; for a consistent comparator its result is the one computed
    by insertion. *)
Fixpoint insert_entity (e : pentity) (l : list pentity) : list pentity :=
  match l with
  | [] => [e]
  | e' :: l' =>
      if (localeCompare (name e) (name e') <=? 0)%Z then e :: l
      else e' :: insert_entity e l'
  end.

Definition sort_entities (l : list pentity) : list pentity :=
  fold_right insert_entity [] l.

Definition layoutEntitiesGrid (entities : list pentity) : list pentity :=
  match entities with
  | [] => []
  | _ =>
      placedEntities
        (fold_left place_entity (sort_entities entities) (mkGrid 0 0 0 []))
  end.

Definition attrText (attr : attribute) : string :=
  (a_name attr ++ ": " ++ a_type attr)%string.

(** The body of the first [data.entities.forEach]: the sizes are written
    on the entity object itself, then the object is copied. *)
Definition size_entity (ent : entity) : entity * pentity :=
  let currentEntityMaxTextWidth :=
    fold_left
      (fun w attr =>
         Qmax w (measureText getComputedTextLength (attrText attr)
                   FONT_SIZE_ATTRIBUTE FONT_FAMILY))
      (e_attributes ent)
      (measureText getComputedTextLength (e_name ent)
         FONT_SIZE_ENTITY FONT_FAMILY) in
  let w :=
    Qmin ENTITY_MAX_WIDTH
      (Qmax ENTITY_MIN_WIDTH (currentEntityMaxTextWidth + ENTITY_PADDING_X * 2)) in
  let h :=
    ENTITY_HEADER_HEIGHT
    + Qnat (List.length (e_attributes ent)) * ATTRIBUTE_HEIGHT
    + ENTITY_PADDING_Y * 2 in
  (mkEntity (e_name ent) (e_attributes ent) (Some w) (Some h),
   mkPentity (e_name ent) (e_attributes ent) w h 0 0).

Definition entity_rect (e : pentity) : rect :=
  mkRect (x e) (y e) (calculatedWidth e) (calculatedHeight e).

Definition entity_title (e : pentity) : text_el :=
  let wrappedEntityName :=
    wrapText getComputedTextLength (name e)
      (calculatedWidth e - ENTITY_PADDING_X * 2) FONT_SIZE_ENTITY FONT_FAMILY in
  let entityNameTextY :=
    y e + ENTITY_HEADER_HEIGHT / 2
    - ((Qnat (List.length wrappedEntityName) - 1) * FONT_SIZE_ENTITY * (6 # 10)) / 2 in
  mkText (name e) (x e + calculatedWidth e / 2) entityNameTextY
         wrappedEntityName.

Fixpoint attribute_texts (e : pentity) (currentAttrY : Q)
    (attrs : list attribute) : list text_el :=
  match attrs with
  | [] => []
  | attr :: rest =>
      mkText (attrText attr) (x e + ENTITY_PADDING_X) currentAttrY
        (wrapText getComputedTextLength (attrText attr)
           (calculatedWidth e - ENTITY_PADDING_X * 2)
           FONT_SIZE_ATTRIBUTE FONT_FAMILY)
      :: attribute_texts e (currentAttrY + ATTRIBUTE_HEIGHT) rest
  end.

Definition entity_texts (e : pentity) : list text_el :=
  entity_title e
  :: attribute_texts e (y e + ENTITY_HEADER_HEIGHT + ATTRIBUTE_HEIGHT / 2)
       (attributes e).

(** The body of [data.relationships.forEach]. *)
Definition draw_relationship (entityRects : JSMap.t string rect) (sc : scene)
    (rel : relationship) : scene :=
  match get (rel_from rel) entityRects, get (rel_to rel) entityRects with
  | Some fromEntityRect, Some toEntityRect =>
      let '(start, end_) :=
        getClosestConnectionPoints fromEntityRect toEntityRect in
      mkScene (sc_rects sc) (sc_texts sc)
        (sc_paths sc ++
           [mkPath [start; end_]
              (Some (getCardinalityMarker (cardinality rel) "start"))
              (Some (getCardinalityMarker (cardinality rel) "end"))])
        (sc_warnings sc)
  | _, _ =>
      mkScene (sc_rects sc) (sc_texts sc) (sc_paths sc)
        (sc_warnings sc ++
           [("Missing entity for relationship: " ++ rel_from rel ++ " - "
             ++ rel_to rel)%string])
  end.

Definition erd_viewBox (positionedEntities : list pentity) : viewBox :=
  let maxX :=
    fold_left (fun m e => Qmax m (x e + calculatedWidth e)) positionedEntities 0 in
  let maxY :=
    fold_left (fun m e => Qmax m (y e + calculatedHeight e)) positionedEntities 0 in
  let padding := 50 in
  let minX := jsub (Math_min (map x positionedEntities)) (Num (padding / 2)) in
  let minY := jsub (Math_min (map y positionedEntities)) (Num (padding / 2)) in
  mkViewBox minX minY
    (jadd (jsub (Num maxX) minX) (Num padding))
    (jadd (jsub (Num maxY) minY) (Num padding)).

(** [renderERD(data, svgContainer)]: the result together with the state
    of the caller's [data] when the call returns. *)
Definition renderERD (d : data) : render_result * data :=
  match d_entities d, d_relationships d with
  | Some entities, Some relationships =>
      let sized := map size_entity entities in
      let entitiesMap :=
        of_pairs (map (fun s : entity * pentity => (name (snd s), snd s)) sized) in
      let positionedEntities := layoutEntitiesGrid (values entitiesMap) in
      let entityRects :=
        of_pairs (map (fun e => (name e, entity_rect e)) positionedEntities) in
      let drawn :=
        mkScene (map entity_rect positionedEntities)
                (flat_map entity_texts positionedEntities) [] [] in
      (Success (fold_left (draw_relationship entityRects) relationships drawn)
               (erd_viewBox positionedEntities),
       mkData (Some (map fst sized)) (Some relationships))
  | _, _ =>
      (Failure "Invalid ERD data: missing entities or relationships", d)
  end.

End Render.

End ERD.

(** ** Text wrapping: further descriptions *)

(** [line.split(" ")[0]] *)
Definition first_word (line : string) : string :=
  hd EmptyString (split_space line).

(** ** core/editor.js: positions in the editor text *)

From Stdlib Require Import Qround.

Module Editor.

Definition newline : ascii := "010"%char.

(** [s.split("\n")] *)
Fixpoint split_newline (s : string) : list string :=
  match s with
  | EmptyString => [EmptyString]
  | String c s' =>
    if Ascii.eqb c newline then EmptyString :: split_newline s'
    else match split_newline s' with
         | w :: ws => String c w :: ws
         | [] => [String c EmptyString]
         end
  end.

(** The end position [text.substring(0, index)] uses for a text of
    length [len]: [index] is truncated to an integer ([NaN] counts as 0)
    and clamped to [0 .. len]. *)
Definition clamp_index (index : jsnum) (len : nat) : nat :=
  match index with
  | Num q => Nat.min (Z.to_nat (Qfloor q)) len  (* below 0: 0 *)
  | PosInf => len
  | NegInf | NaN => 0%nat
  end.

Record position : Type := mkPosition { line : nat; column : nat }.

Definition getLineColFromCharIndex (text : string) (index : jsnum)
  : position :=
  let lines :=
    split_newline
      (substring 0 (clamp_index index (String.length text)) text) in
  mkPosition (List.length lines - 1)
             (String.length (last lines EmptyString)).

(** The index at which line [n] of [lines] starts in the text: every
    earlier line and the newline that ends it come before. *)
Definition line_start (lines : list string) (n : nat) : nat :=
  list_sum (map (fun l => S (String.length l)) (firstn n lines)).

End Editor.

(** ** Flowchart layering: further descriptions *)

Module LayeringExtra.
Import Flowchart Layering.

(** The queued nodes: a node without in-edge has layer 0, any other one
    has a queued predecessor exactly one layer above. *)
Definition tight_layers (E : list edge) (st : bfs_state) : Prop :=
  forall x, In x (q st) ->
    (indeg E x = 0%nat -> get x (nodeLayers st) = Some 0%Z)
    /\ (indeg E x <> 0%nat ->
        exists e c, In e E /\ e_to e = x /\ In (e_from e) (q st)
                    /\ get (e_from e) (nodeLayers st) = Some c
                    /\ get x (nodeLayers st) = Some (c + 1)%Z).

(** Every node id is listed at most once in [layers], under one key. *)
Definition listed_once (layers : JSMap.t Z (list string)) : Prop :=
  NoDup (keys layers) /\ NoDup (List.concat (values layers)).

End LayeringExtra.

(** ** Flowchart rendering: further descriptions *)

Module FlowchartSpec.
Import Flowchart.

(** Two node boxes kept apart: side by side in one layer, a node width
    and a gap apart, or in different layers, a node height and a gap
    apart. *)
Definition nodes_apart (a b : pnode) : Prop :=
  (y a = y b /\ x a + (NODE_WIDTH + H_GAP) <= x b)
  \/ y a + (NODE_HEIGHT + V_GAP) <= y b.

(** The node ids of a layer, [[]] for a missing layer. *)
Definition layer_ids (layers : JSMap.t Z (list string)) (k : Z) : list string :=
  match get k layers with
  | Some ids => ids
  | None => []
  end.

(** [draw_edge] draws an edge whose two endpoints are among the ids. *)
Definition drawable (ids : list string) (e : edge) : bool :=
  Layering.mem (e_from e) ids && Layering.mem (e_to e) ids.

Definition missing_node_warning (e : edge) : string :=
  ("Missing node for edge: " ++ e_from e ++ " -> " ++ e_to e)%string.

(** The sample flowchart with one dangling edge. *)
Definition dangling_edges : list edge :=
  [mkEdge "A" "B" None; mkEdge "B" "Z" (Some "lost")].

End FlowchartSpec.

(** ** Viewports *)

(** The rectangle [r] lies inside the viewport [(vx, vy, vw, vh)] with the
    margins [left] and [right] (also used for top and bottom). *)
Definition inside_viewport (vx vy vw vh left right : Q) (r : rect) : Prop :=
  vx + left <= r_x r /\ r_x r + r_width r + right <= vx + vw
  /\ vy + left <= r_y r /\ r_y r + r_height r + right <= vy + vh.

(** ** Sequence layout: further descriptions *)

Module SequenceSpec.
Import Sequence.

(** The y of the [k]-th message row ([k] = 1 for the first message). *)
Fixpoint message_y (k : nat) : Q :=
  match k with
  | O => LIFELINE_Y_START
  | S k' => message_y k' + MESSAGE_HEIGHT
  end.

(** The x of the [i]-th participant slot ([i] = 0 for the first). *)
Fixpoint slot_x (spacing : Q) (i : nat) : Q :=
  match i with
  | O => HORIZONTAL_MARGIN + PARTICIPANT_WIDTH / 2
  | S i' => slot_x spacing i' + (PARTICIPANT_WIDTH + spacing)
  end.

(** The ys of [n] message rows drawn below [c]. *)
Fixpoint row_ys (c : Q) (n : nat) : list Q :=
  match n with
  | O => []
  | S n' => (c + MESSAGE_HEIGHT) :: row_ys (c + MESSAGE_HEIGHT) n'
  end.

(** The y coordinates of the points of a path. *)
Definition path_ys (p : path_el) : list Q := map p_y (path_points p).

(** A message whose two participants are declared. *)
Definition known_message (participants : list string) (msg : message) : Prop :=
  In (m_from msg) participants /\ In (m_to msg) participants.

(** The lifeline of a slot, down to [y2]. *)
Definition lifeline_at (y2 : Q) (slot : string * Q) : path_el :=
  mkPath [mkPoint (snd slot) LIFELINE_Y_START; mkPoint (snd slot) y2]
         None None.

(** [arrow] is the arrow of [msg]: a horizontal segment from the slot of
    the sender to the slot of the receiver, with the arrowhead of a
    reply when the text starts with three digits and white space. *)
Definition arrow_of (slots : list (string * Q)) (msg : message)
    (arrow : path_el) : Prop :=
  exists fromX toX y,
    In (m_from msg, fromX) slots /\ In (m_to msg, toX) slots
    /\ path_points arrow = [mkPoint fromX y; mkPoint toX y]
    /\ marker_start arrow = None
    /\ marker_end arrow
       = Some (if isReply (m_text msg) then "url(#replyArrowhead)"
               else "url(#arrowhead)").

(** A sample exchange. *)
Definition sample_participants : list string := ["User"; "API"; "DB"].
Definition sample_messages : list message :=
  [mkMessage "User" "API" "GET /items"; mkMessage "API" "DB" "SELECT";
   mkMessage "DB" "API" "rows"; mkMessage "API" "User" "200 OK"].

End SequenceSpec.

(** ** ERD layout: further descriptions *)

Module ERDSpec.
Import ERD.

(** Two placed entities, the first one placed earlier: in one row the
    first is to the left with the horizontal gap between them, otherwise
    the first is in a row above with the vertical gap between them. *)
Definition entities_apart (a b : pentity) : Prop :=
  (y a = y b /\ x a + (calculatedWidth a + ENTITY_H_GAP) <= x b)
  \/ y a + (calculatedHeight a + ENTITY_V_GAP) <= y b.

(** The same for the drawn boxes. *)
Definition boxes_apart (a b : rect) : Prop :=
  (r_y a = r_y b /\ r_x a + (r_width a + ENTITY_H_GAP) <= r_x b)
  \/ r_y a + (r_height a + ENTITY_V_GAP) <= r_y b.

(** What the loop of [layoutEntitiesGrid] keeps: the cursor is not left
    of or above the origin, an entity of the current row ends before the
    cursor and is not taller than [rowMaxHeight], an entity of an earlier
    row ends above the current row. *)
Definition grid_inv (st : grid_state) : Prop :=
  0 <= currentX st /\ 0 <= currentY st /\ 0 <= rowMaxHeight st
  /\ Forall
       (fun e =>
          0 <= x e /\ 0 <= y e
          /\ ((y e = currentY st
               /\ x e + (calculatedWidth e + ENTITY_H_GAP) <= currentX st
               /\ calculatedHeight e <= rowMaxHeight st)
              \/ y e + (calculatedHeight e + ENTITY_V_GAP) <= currentY st))
       (placedEntities st)
  /\ ForallOrdPairs entities_apart (placedEntities st).

(** A relationship whose two entities are both among [names]. *)
Definition linked (names : list string) (rel : relationship) : bool :=
  Layering.mem (rel_from rel) names && Layering.mem (rel_to rel) names.

Definition missing_entity_warning (rel : relationship) : string :=
  ("Missing entity for relationship: " ++ rel_from rel ++ " - "
   ++ rel_to rel)%string.

Definition path_markers (p : path_el) : option string * option string :=
  (marker_start p, marker_end p).

Definition relationship_markers (rel : relationship)
  : option string * option string :=
  (Some (getCardinalityMarker (cardinality rel) "start"),
   Some (getCardinalityMarker (cardinality rel) "end")).

(** The box sizes [renderERD] computes. *)
Definition sized_box (r : rect) : Prop :=
  ENTITY_MIN_WIDTH <= r_width r <= ENTITY_MAX_WIDTH
  /\ ENTITY_HEADER_HEIGHT + ENTITY_PADDING_Y * 2 <= r_height r
  /\ 0 <= r_x r /\ 0 <= r_y r.

(** A sample schema. *)
Definition sample_entities : list entity :=
  [mkEntity "User" [mkAttribute "id" "int" true None false;
                    mkAttribute "email" "string" false None true] None None;
   mkEntity "Order" [mkAttribute "id" "int" true None false;
                     mkAttribute "user_id" "int" false (Some "User.id") false]
            None None].

Definition sample_relationships : list relationship :=
  [mkRelationship "User" "Order" "1..*"].

End ERDSpec.
(** ** Parsed JSON documents *)

From Stdlib Require Import DecimalString.

Module Json.

#[local] Set Warnings "-register-all".

(** The values [JSON.parse] returns, and [undefined] for the value of a
    property that is not there.  Every array and object of a parsed
    document is a fresh object. *)
Inductive value : Type :=
| JUndefined
| JNull
| JBool (b : bool)
| JNum (n : Q)
| JStr (s : string)
| JArr (items : list value)
| JObj (props : list (string * value)).

(** [typeof v === "object" && v !== null] *)
Definition is_object (v : value) : bool :=
  match v with JArr _ | JObj _ => true | _ => false end.

(** [typeof v === "string"] *)
Definition is_string (v : value) : bool :=
  match v with JStr _ => true | _ => false end.

(** [typeof v === "boolean"] *)
Definition is_boolean (v : value) : bool :=
  match v with JBool _ => true | _ => false end.

(** The truth value of [v] in a condition. *)
Definition truthy (v : value) : bool :=
  match v with
  | JUndefined | JNull => false
  | JBool b => b
  | JNum n => negb (Qeq_bool n 0)
  | JStr s => negb (String.eqb s EmptyString)
  | JArr _ | JObj _ => true
  end.

(** [v.key] for [v] that is not [null] or [undefined], and a [key] that
    is no property of arrays, strings, numbers or booleans. *)
Definition prop (v : value) (key : string) : value :=
  match v with
  | JObj props =>
      match JSMap.get key props with Some x => x | None => JUndefined end
  | _ => JUndefined
  end.

(** [a === b], also the equality of [Set.has], [Map.get] and
    [Array.includes] on these values: two arrays or objects of a parsed
    document are never the same object. *)
Definition strict_equal (a b : value) : bool :=
  match a, b with
  | JUndefined, JUndefined | JNull, JNull => true
  | JBool x, JBool y => Bool.eqb x y
  | JNum x, JNum y => Qeq_bool x y
  | JStr x, JStr y => String.eqb x y
  | _, _ => false
  end.

(** A [Set] of values, in insertion order. *)
Definition has (v : value) (s : list value) : bool :=
  existsb (strict_equal v) s.

Definition add (v : value) (s : list value) : list value :=
  if has v s then s else s ++ [v].

(** A [Map] from values to sets of values. *)
Fixpoint map_get (k : value) (m : list (value * list value))
  : option (list value) :=
  match m with
  | [] => None
  | (k', s) :: m' => if strict_equal k k' then Some s else map_get k m'
  end.

Fixpoint map_set (k : value) (s : list value) (m : list (value * list value))
  : list (value * list value) :=
  match m with
  | [] => [(k, s)]
  | (k', s') :: m' =>
      if strict_equal k k' then (k', s) :: m' else (k', s') :: map_set k s m'
  end.

(** [!s.trim()]: nothing but white space. *)
Fixpoint trims_to_empty (s : string) : bool :=
  match s with
  | EmptyString => true
  | String c s' => Sequence.is_whitespace c && trims_to_empty s'
  end.

(** [typeof v !== "string" || !v.trim()] *)
Definition blank (v : value) : bool :=
  match v with JStr s => trims_to_empty s | _ => true end.

(** [s.includes(".")] and [s.split(".")] *)
Definition dot : ascii := "."%char.

Fixpoint includes_dot (s : string) : bool :=
  match s with
  | EmptyString => false
  | String c s' => Ascii.eqb c dot || includes_dot s'
  end.

Fixpoint split_dot (s : string) : list string :=
  match s with
  | EmptyString => [EmptyString]
  | String c s' =>
    if Ascii.eqb c dot then EmptyString :: split_dot s'
    else match split_dot s' with
         | w :: ws => String c w :: ws
         | [] => [String c EmptyString]
         end
  end.

(** [s.toUpperCase()] on the letters a to z; the validator only asks
    whether the result is one of four words of the letters B, D, L, R
    and T, which no other character maps to. *)
Definition upper (c : ascii) : ascii :=
  let n := nat_of_ascii c in
  if ((97 <=? n) && (n <=? 122))%nat then ascii_of_nat (n - 32) else c.

Fixpoint toUpperCase (s : string) : string :=
  match s with
  | EmptyString => EmptyString
  | String c s' => String (upper c) (toUpperCase s')
  end.

(** The decimal digits of an array index. *)
Definition decimal (i : nat) : string :=
  NilEmpty.string_of_uint (Nat.to_uint i).

Definition dq : string := String "034"%char EmptyString.

Definition quoted (s : string) : string := (dq ++ s ++ dq)%string.

(** The elements of an array with their indices. *)
Definition indexed {A} (l : list A) : list (nat * A) :=
  combine (seq 0 (List.length l)) l.

Section ToString.

(** The digits the runtime prints for a number. *)
Variable numberToString : Q -> string.

(** [`${v}`] and ["" + v] *)
Fixpoint toString (v : value) : string :=
  match v with
  | JUndefined => "undefined"
  | JNull => "null"
  | JBool true => "true"
  | JBool false => "false"
  | JNum n => numberToString n
  | JStr s => s
  | JArr items =>
      String.concat ","
        (map (fun x =>
                match x with
                | JUndefined | JNull => EmptyString
                | _ => toString x
                end) items)
  | JObj _ => "[object Object]"
  end.

End ToString.

End Json.

(** ** core/validate.js *)

Module Validate.
Import Json.

Record error : Type := mkError { message : string; index : nat }.

Definition validTypes : list string := ["flowchart"; "sequence"; "erd"].
Definition validDirections : list string := ["TD"; "TB"; "LR"; "RL"].
Definition validCardinalities : list string :=
  ["0..1"; "1..1"; "1..*"; "0..*"; "*..*"].

(** [list.includes(v)] for a list of strings *)
Definition includes (l : list string) (v : value) : bool :=
  match v with
  | JStr s => existsb (String.eqb s) l
  | _ => false
  end.

Section Validators.

Variable numberToString : Q -> string.

(** The text the document was parsed from. *)
Variable jsonString : string.

(** [getIndex(path)]: the place of [JSON.stringify(path.slice(0, 1))] in
    the text, 0 when it does not occur.  [first] is the first segment of
    the path, [None] for the empty path. *)
Definition getIndex (first : option string) : nat :=
  let pathStr :=
    match first with
    | None => "[]"
    | Some key => ("[" ++ quoted key ++ "]")%string
    end in
  match String.index 0 pathStr jsonString with
  | Some i => i
  | None => 0%nat
  end.

Definition str (v : value) : string := toString numberToString v.

(** *** Sequence documents *)

(** What one participant adds to [errors], given the names seen so far. *)
Definition participant_errors (participantNames : list value)
    (ip : nat * value) : list error :=
  let '(i, p) := ip in
  (if blank p
   then [mkError ("Participant at index " ++ decimal i
                  ++ " must be a non-empty string.")
                 (getIndex (Some "participants"))]
   else [])
  ++ (if has p participantNames
      then [mkError ("Duplicate participant name: " ++ quoted (str p) ++ ".")
                    (getIndex (Some "participants"))]
      else []).

Definition check_participant (st : list error * list value)
    (ip : nat * value) : list error * list value :=
  (fst st ++ participant_errors (snd st) ip, add (snd ip) (snd st)).

Definition message_errors (participantNames : list value)
    (im : nat * value) : list error :=
  let '(i, msg) := im in
  if negb (is_object msg)
  then [mkError ("Message at index " ++ decimal i ++ " must be an object.")
                (getIndex (Some "messages"))]
  else
    (if negb (is_string (prop msg "from"))
        || negb (has (prop msg "from") participantNames)
     then [mkError ("Message at index " ++ decimal i ++ " " ++ quoted "from"
                    ++ " participant " ++ quoted (str (prop msg "from"))
                    ++ " not found.")
                   (getIndex (Some "messages"))]
     else [])
    ++ (if negb (is_string (prop msg "to"))
           || negb (has (prop msg "to") participantNames)
        then [mkError ("Message at index " ++ decimal i ++ " " ++ quoted "to"
                       ++ " participant " ++ quoted (str (prop msg "to"))
                       ++ " not found.")
                      (getIndex (Some "messages"))]
        else [])
    ++ (if blank (prop msg "text")
        then [mkError ("Message at index " ++ decimal i
                       ++ " must have a non-empty string " ++ quoted "text"
                       ++ ".")
                      (getIndex (Some "messages"))]
        else []).

Definition _validateSequence (data : value) (errors : list error)
  : list error :=
  match prop data "participants" with
  | JArr participants =>
      let '(errors, participantNames) :=
        fold_left check_participant (indexed participants) (errors, []) in
      match prop data "messages" with
      | JArr messages =>
          fold_left (fun errors im =>
                       errors ++ message_errors participantNames im)
            (indexed messages) errors
      | _ =>
          errors ++ [mkError ("Sequence " ++ quoted "messages"
                              ++ " must be an array.")
                             (getIndex (Some "messages"))]
      end
  | _ =>
      errors ++ [mkError ("Sequence " ++ quoted "participants"
                          ++ " must be an array.")
                         (getIndex (Some "participants"))]
  end.

(** *** Flowchart documents *)

Definition node_errors (nodeIds : list value) (inode : nat * value)
  : list error :=
  let '(i, node) := inode in
  if negb (is_object node)
  then [mkError ("Node at index " ++ decimal i ++ " must be an object.")
                (getIndex (Some "nodes"))]
  else
    (if blank (prop node "id")
     then [mkError ("Node at index " ++ decimal i
                    ++ " must have a non-empty string " ++ quoted "id" ++ ".")
                   (getIndex (Some "nodes"))]
     else [])
    ++ (if has (prop node "id") nodeIds
        then [mkError ("Duplicate node ID: " ++ quoted (str (prop node "id"))
                       ++ ".")
                      (getIndex (Some "nodes"))]
        else [])
    ++ (if blank (prop node "label")
        then [mkError ("Node " ++ quoted (str (prop node "id"))
                       ++ " must have a non-empty string " ++ quoted "label"
                       ++ ".")
                      (getIndex (Some "nodes"))]
        else []).

(** A node that is no object is skipped before [nodeIds.add]. *)
Definition check_node (st : list error * list value) (inode : nat * value)
  : list error * list value :=
  (fst st ++ node_errors (snd st) inode,
   if is_object (snd inode) then add (prop (snd inode) "id") (snd st)
   else snd st).

Definition edge_errors (nodeIds : list value) (iedge : nat * value)
  : list error :=
  let '(i, edge) := iedge in
  if negb (is_object edge)
  then [mkError ("Edge at index " ++ decimal i ++ " must be an object.")
                (getIndex (Some "edges"))]
  else
    (if negb (is_string (prop edge "from"))
        || negb (has (prop edge "from") nodeIds)
     then [mkError ("Edge at index " ++ decimal i ++ " " ++ quoted "from"
                    ++ " node " ++ quoted (str (prop edge "from"))
                    ++ " not found.")
                   (getIndex (Some "edges"))]
     else [])
    ++ (if negb (is_string (prop edge "to"))
           || negb (has (prop edge "to") nodeIds)
        then [mkError ("Edge at index " ++ decimal i ++ " " ++ quoted "to"
                       ++ " node " ++ quoted (str (prop edge "to"))
                       ++ " not found.")
                      (getIndex (Some "edges"))]
        else [])
    ++ (if strict_equal (prop edge "from") (prop edge "to")
        then [mkError ("Edge at index " ++ decimal i
                       ++ " forms a self-loop (" ++ str (prop edge "from")
                       ++ " to " ++ str (prop edge "to")
                       ++ "). Self-loops are not allowed.")
                      (getIndex (Some "edges"))]
        else [])
    ++ (if truthy (prop edge "label") && negb (is_string (prop edge "label"))
        then [mkError ("Edge at index " ++ decimal i ++ " " ++ quoted "label"
                       ++ " must be a string.")
                      (getIndex (Some "edges"))]
        else []).

(** [inl exn]: an uncaught exception.  [data.direction.toUpperCase()]
    raises a [TypeError] when the direction is truthy and no string. *)
Definition _validateFlowchart (data : value) (errors : list error)
  : string + list error :=
  match prop data "nodes" with
  | JArr nodes =>
      let '(errors, nodeIds) :=
        fold_left check_node (indexed nodes) (errors, []) in
      match prop data "edges" with
      | JArr edges =>
          let errors :=
            fold_left (fun errors iedge => errors ++ edge_errors nodeIds iedge)
              (indexed edges) errors in
          if truthy (prop data "direction") then
            match prop data "direction" with
            | JStr direction =>
                if negb (includes validDirections (JStr (toUpperCase direction)))
                then inr (errors
                          ++ [mkError ("Flowchart " ++ quoted "direction"
                                       ++ " must be one of: TD, TB, LR, RL.")
                                      (getIndex (Some "direction"))])
                else inr errors
            | _ => inl "TypeError"
            end
          else inr errors
      | _ =>
          inr (errors ++ [mkError ("Flowchart " ++ quoted "edges"
                                   ++ " must be an array.")
                                  (getIndex (Some "edges"))])
      end
  | _ =>
      inr (errors ++ [mkError ("Flowchart " ++ quoted "nodes"
                               ++ " must be an array.")
                              (getIndex (Some "nodes"))])
  end.

(** *** ERD documents *)

(** What a truthy [attr.fk] adds.  [attrs] is the set of [entity.name] in
    [entityAttributes], which already holds [attr.name];
    [entityAttributes] holds the sets of the entities before this one.
    Every name of [entityNames] has a set, and a string with a dot splits
    in two parts at least. *)
Definition fk_errors (entityNames : list value)
    (entityAttributes : list (value * list value))
    (ename : value) (attrs : list value) (aname fk : value) : list error :=
  if truthy fk then
    if negb (is_string fk)
       || negb (match fk with JStr s => includes_dot s | _ => false end)
    then [mkError ("Foreign key " ++ quoted (str fk) ++ " in "
                   ++ quoted (str ename ++ "." ++ str aname)
                   ++ " must be in " ++ quoted "Entity.Attribute"
                   ++ " format.")
                  (getIndex (Some "entities"))]
    else
      match fk with
      | JStr s =>
          match split_dot s with
          | fkEntity :: fkAttr :: _ =>
              if negb (has (JStr fkEntity) entityNames)
              then [mkError ("Foreign key entity " ++ quoted fkEntity
                             ++ " for "
                             ++ quoted (str ename ++ "." ++ str aname)
                             ++ " not found.")
                            (getIndex (Some "entities"))]
              else
                match (if strict_equal (JStr fkEntity) ename then Some attrs
                       else map_get (JStr fkEntity) entityAttributes) with
                | Some fkAttrs =>
                    if negb (has (JStr fkAttr) fkAttrs)
                    then [mkError ("Foreign key attribute " ++ quoted fkAttr
                                   ++ " in entity " ++ quoted fkEntity
                                   ++ " for "
                                   ++ quoted (str ename ++ "." ++ str aname)
                                   ++ " not found.")
                                  (getIndex (Some "entities"))]
                    else []
                | None => []
                end
          | _ => []
          end
      | _ => []
      end
  else [].

(** The body of [entity.attributes.forEach]; the state is [errors], the
    set of [entity.name] in [entityAttributes], and [hasPk]. *)
Definition check_attribute (entityNames : list value)
    (entityAttributes : list (value * list value)) (ename : value)
    (st : list error * list value * bool) (jattr : nat * value)
  : list error * list value * bool :=
  let '(errors, attrs, hasPk) := st in
  let '(j, attr) := jattr in
  if negb (is_object attr)
  then (errors
        ++ [mkError ("Attribute at entity " ++ quoted (str ename)
                     ++ " index " ++ decimal j ++ " must be an object.")
                    (getIndex (Some "entities"))],
        attrs, hasPk)
  else
    let attrs' := add (prop attr "name") attrs in
    (errors
     ++ (if blank (prop attr "name")
         then [mkError ("Attribute at entity " ++ quoted (str ename)
                        ++ " index " ++ decimal j
                        ++ " must have a non-empty string " ++ quoted "name"
                        ++ ".")
                       (getIndex (Some "entities"))]
         else [])
     ++ (if has (prop attr "name") attrs
         then [mkError ("Duplicate attribute name "
                        ++ quoted (str (prop attr "name")) ++ " in entity "
                        ++ quoted (str ename) ++ ".")
                       (getIndex (Some "entities"))]
         else [])
     ++ (if blank (prop attr "type")
         then [mkError ("Attribute " ++ quoted (str (prop attr "name"))
                        ++ " in " ++ quoted (str ename)
                        ++ " must have a non-empty string " ++ quoted "type"
                        ++ ".")
                       (getIndex (Some "entities"))]
         else [])
     ++ fk_errors entityNames entityAttributes ename attrs'
          (prop attr "name") (prop attr "fk")
     ++ (if truthy (prop attr "unique")
            && negb (is_boolean (prop attr "unique"))
         then [mkError ("Attribute " ++ quoted (str (prop attr "name"))
                        ++ " in " ++ quoted (str ename) ++ " "
                        ++ quoted "unique" ++ " must be a boolean.")
                       (getIndex (Some "entities"))]
         else []),
     attrs',
     hasPk || strict_equal (prop attr "pk") (JBool true)).

(** The body of [data.entities.forEach]; the state is [errors],
    [entityNames] and [entityAttributes]. *)
Definition check_entity
    (st : list error * list value * list (value * list value))
    (ientity : nat * value)
  : list error * list value * list (value * list value) :=
  let '(errors, entityNames, entityAttributes) := st in
  let '(i, entity) := ientity in
  if negb (is_object entity)
  then (errors
        ++ [mkError ("Entity at index " ++ decimal i ++ " must be an object.")
                    (getIndex (Some "entities"))],
        entityNames, entityAttributes)
  else
    let ename := prop entity "name" in
    let errors :=
      errors
      ++ (if blank ename
          then [mkError ("Entity at index " ++ decimal i
                         ++ " must have a non-empty string " ++ quoted "name"
                         ++ ".")
                        (getIndex (Some "entities"))]
          else [])
      ++ (if has ename entityNames
          then [mkError ("Duplicate entity name: " ++ quoted (str ename)
                         ++ ".")
                        (getIndex (Some "entities"))]
          else []) in
    let entityNames := add ename entityNames in
    match prop entity "attributes" with
    | JArr attributes =>
        let '(errors, attrs, hasPk) :=
          fold_left (check_attribute entityNames entityAttributes ename)
            (indexed attributes) (errors, [], false) in
        (errors
         ++ (if negb hasPk && (0 <? List.length attributes)%nat
             then [mkError ("Entity " ++ quoted (str ename)
                            ++ " must have at least one primary key (pk: true).")
                           (getIndex (Some "entities"))]
             else []),
         entityNames, map_set ename attrs entityAttributes)
    | _ =>
        (errors
         ++ [mkError ("Entity " ++ quoted (str ename) ++ " "
                      ++ quoted "attributes" ++ " must be an array.")
                     (getIndex (Some "entities"))],
         entityNames, map_set ename [] entityAttributes)
    end.

Definition relationship_errors (entityNames : list value)
    (irel : nat * value) : list error :=
  let '(i, rel) := irel in
  if negb (is_object rel)
  then [mkError ("Relationship at index " ++ decimal i
                 ++ " must be an object.")
                (getIndex (Some "relationships"))]
  else
    (if negb (is_string (prop rel "from"))
        || negb (has (prop rel "from") entityNames)
     then [mkError ("Relationship at index " ++ decimal i ++ " "
                    ++ quoted "from" ++ " entity "
                    ++ quoted (str (prop rel "from")) ++ " not found.")
                   (getIndex (Some "relationships"))]
     else [])
    ++ (if negb (is_string (prop rel "to"))
           || negb (has (prop rel "to") entityNames)
        then [mkError ("Relationship at index " ++ decimal i ++ " "
                       ++ quoted "to" ++ " entity "
                       ++ quoted (str (prop rel "to")) ++ " not found.")
                      (getIndex (Some "relationships"))]
        else [])
    ++ (if negb (is_string (prop rel "cardinality"))
           || negb (includes validCardinalities (prop rel "cardinality"))
        then [mkError ("Relationship at index " ++ decimal i ++ " "
                       ++ quoted "cardinality"
                       ++ " must be one of: 0..1, 1..1, 1..*, 0..*, *..*.")
                      (getIndex (Some "relationships"))]
        else []).

Definition _validateERD (data : value) (errors : list error) : list error :=
  match prop data "entities" with
  | JArr entities =>
      let '(errors, entityNames, _) :=
        fold_left check_entity (indexed entities) (errors, [], []) in
      match prop data "relationships" with
      | JArr relationships =>
          fold_left (fun errors irel =>
                       errors ++ relationship_errors entityNames irel)
            (indexed relationships) errors
      | _ =>
          errors ++ [mkError ("ERD " ++ quoted "relationships"
                              ++ " must be an array.")
                             (getIndex (Some "relationships"))]
      end
  | _ =>
      errors ++ [mkError ("ERD " ++ quoted "entities" ++ " must be an array.")
                         (getIndex (Some "entities"))]
  end.

(** *** The entry point *)

(** [validate(data, jsonString)]: the list of errors, or [inl exn] for
    an uncaught exception. *)
Definition validate (data : value) : string + list error :=
  if negb (is_object data)
  then inr [mkError "Root must be an object." (getIndex None)]
  else if negb (truthy (prop data "type"))
  then inr [mkError ("Missing " ++ quoted "type" ++ " property.")
                    (getIndex (Some "type"))]
  else if negb (includes validTypes (prop data "type"))
  then inr [mkError ("Invalid diagram type: "
                     ++ quoted (str (prop data "type"))
                     ++ ". Must be one of: flowchart, sequence, erd.")
                    (getIndex (Some "type"))]
  else if strict_equal (prop data "type") (JStr "flowchart")
  then _validateFlowchart data []
  else if strict_equal (prop data "type") (JStr "sequence")
  then inr (_validateSequence data [])
  else if strict_equal (prop data "type") (JStr "erd")
  then inr (_validateERD data [])
  else inr [].

End Validators.

End Validate.

(** ** core/compile.js *)

Module Compile.
Import Json.

(** The renderers read the parsed document itself.  The layouts above
    describe them on documents whose fields hold what they read; the
    functions below give that reading of a document, [None] for a
    document outside it. *)

Definition as_string (v : value) : option string :=
  match v with JStr s => Some s | _ => None end.

Fixpoint all_some {A} (l : list (option A)) : option (list A) :=
  match l with
  | [] => Some []
  | Some a :: l' => option_map (cons a) (all_some l')
  | None :: _ => None
  end.

(** A field that holds a collection: [Some None] for a falsy field,
    [Some (Some l)] for an array of elements that [elem] reads. *)
Definition collection {A} (elem : value -> option A) (v : value)
  : option (option (list A)) :=
  match v with
  | JArr items => option_map Some (all_some (map elem items))
  | _ => if truthy v then None else Some None
  end.

Definition sequence_message (v : value) : option Sequence.message :=
  match v with
  | JObj _ =>
      match prop v "from", prop v "to", prop v "text" with
      | JStr from, JStr to, JStr text => Some (Sequence.mkMessage from to text)
      | _, _, _ => None
      end
  | _ => None
  end.

Definition sequence_data (d : value) : option Sequence.data :=
  match collection as_string (prop d "participants"),
        collection sequence_message (prop d "messages") with
  | Some participants, Some messages =>
      Some (Sequence.mkData participants messages)
  | _, _ => None
  end.

Definition flowchart_node (v : value) : option Flowchart.node :=
  match v with
  | JObj _ =>
      match prop v "id", prop v "label" with
      | JStr id, JStr label => Some (Flowchart.mkNode id label)
      | _, _ => None
      end
  | _ => None
  end.

(** [edge.label] is only read when it is truthy. *)
Definition flowchart_edge (v : value) : option Flowchart.edge :=
  match v with
  | JObj _ =>
      match prop v "from", prop v "to" with
      | JStr from, JStr to =>
          if truthy (prop v "label") then
            match prop v "label" with
            | JStr label => Some (Flowchart.mkEdge from to (Some label))
            | _ => None
            end
          else Some (Flowchart.mkEdge from to None)
      | _, _ => None
      end
  | _ => None
  end.

Definition flowchart_data (d : value) : option Flowchart.data :=
  match collection flowchart_node (prop d "nodes"),
        collection flowchart_edge (prop d "edges") with
  | Some nodes, Some edges => Some (Flowchart.mkData nodes edges)
  | _, _ => None
  end.

(** [attr.pk], [attr.fk] and [attr.unique] are read as conditions. *)
Definition erd_attribute (v : value) : option ERD.attribute :=
  match v with
  | JObj _ =>
      match prop v "name", prop v "type" with
      | JStr name, JStr type =>
          if truthy (prop v "fk") then
            match prop v "fk" with
            | JStr fk =>
                Some (ERD.mkAttribute name type (truthy (prop v "pk"))
                        (Some fk) (truthy (prop v "unique")))
            | _ => None
            end
          else Some (ERD.mkAttribute name type (truthy (prop v "pk"))
                       None (truthy (prop v "unique")))
      | _, _ => None
      end
  | _ => None
  end.

(** [renderERD] overwrites [calculatedWidth] and [calculatedHeight]
    without reading them. *)
Definition as_number (v : value) : option Q :=
  match v with JNum n => Some n | _ => None end.

Definition erd_entity (v : value) : option ERD.entity :=
  match v with
  | JObj _ =>
      match prop v "name", prop v "attributes" with
      | JStr name, JArr attributes =>
          option_map
            (fun attrs =>
               ERD.mkEntity name attrs
                 (as_number (prop v "calculatedWidth"))
                 (as_number (prop v "calculatedHeight")))
            (all_some (map erd_attribute attributes))
      | _, _ => None
      end
  | _ => None
  end.

Definition erd_relationship (v : value) : option ERD.relationship :=
  match v with
  | JObj _ =>
      match prop v "from", prop v "to", prop v "cardinality" with
      | JStr from, JStr to, JStr cardinality =>
          Some (ERD.mkRelationship from to cardinality)
      | _, _, _ => None
      end
  | _ => None
  end.

Definition erd_data (d : value) : option ERD.data :=
  match collection erd_entity (prop d "entities"),
        collection erd_relationship (prop d "relationships") with
  | Some entities, Some relationships =>
      Some (ERD.mkData entities relationships)
  | _, _ => None
  end.

(** What [validate] asks of the attributes of an entity, on the typed
    reading: a foreign key names, before its first dot, an entity that
    is declared no later than the entity of the attribute. *)
Definition resolves_backwards (declared : list string) (a : ERD.attribute)
  : Prop :=
  forall s, ERD.fk a = Some s ->
  exists fkEntity fkAttr rest,
    split_dot s = fkEntity :: fkAttr :: rest /\ In fkEntity declared.

Fixpoint foreign_keys_backwards (declared : list string)
    (entities : list ERD.entity) : Prop :=
  match entities with
  | [] => True
  | entity :: rest =>
      Forall (resolves_backwards (declared ++ [ERD.e_name entity]))
        (ERD.e_attributes entity)
      /\ foreign_keys_backwards (declared ++ [ERD.e_name entity]) rest
  end.

(** Distinct attribute names, and a primary key unless there is no
    attribute. *)
Definition keyed_entity (entity : ERD.entity) : Prop :=
  NoDup (map ERD.a_name (ERD.e_attributes entity))
  /\ (ERD.e_attributes entity <> [] ->
      exists a, In a (ERD.e_attributes entity) /\ ERD.pk a = true).

Section Dispatch.

Variable numberToString : Q -> string.
Variable getComputedTextLength : string -> Q -> string -> Q.
Variable localeCompare : string -> string -> Z.

(** [compileAndRender(jsonData)]: the result of the renderer of
    [jsonData.type]; [None] for a document outside the reading above. *)
Definition compileAndRender (jsonData : value) : option render_result :=
  match jsonData with
  | JUndefined | JNull => Some (Throws "TypeError")
  | _ =>
      let type := prop jsonData "type" in
      if strict_equal type (JStr "flowchart") then
        option_map (Flowchart.renderFlowchart getComputedTextLength)
          (flowchart_data jsonData)
      else if strict_equal type (JStr "sequence") then
        option_map (Sequence.renderSequence getComputedTextLength)
          (sequence_data jsonData)
      else if strict_equal type (JStr "erd") then
        option_map
          (fun d => fst (ERD.renderERD getComputedTextLength localeCompare d))
          (erd_data jsonData)
      else
        Some (Failure ("Unknown diagram type: "
                       ++ toString numberToString type))
  end.

End Dispatch.

(** Sample documents. *)
Definition sample_sequence : value :=
  JObj [("type", JStr "sequence");
        ("participants", JArr [JStr "User"; JStr "API"]);
        ("messages",
         JArr [JObj [("from", JStr "User"); ("to", JStr "API");
                     ("text", JStr "GET /items")];
               JObj [("from", JStr "API"); ("to", JStr "User");
                     ("text", JStr "200 OK")]])].

Definition sample_flowchart : value :=
  JObj [("type", JStr "flowchart");
        ("nodes",
         JArr [JObj [("id", JStr "A"); ("label", JStr "Start")];
               JObj [("id", JStr "B"); ("label", JStr "End")]]);
        ("edges",
         JArr [JObj [("from", JStr "A"); ("to", JStr "B")]])].

Definition sample_erd : value :=
  JObj [("type", JStr "erd");
        ("entities",
         JArr [JObj [("name", JStr "User");
                     ("attributes",
                      JArr [JObj [("name", JStr "id"); ("type", JStr "int");
                                  ("pk", JBool true)]])];
               JObj [("name", JStr "Order");
                     ("attributes",
                      JArr [JObj [("name", JStr "id"); ("type", JStr "int");
                                  ("pk", JBool true)];
                            JObj [("name", JStr "user_id");
                                  ("type", JStr "int");
                                  ("fk", JStr "User.id")]])]]);
        ("relationships",
         JArr [JObj [("from", JStr "User"); ("to", JStr "Order");
                     ("cardinality", JStr "1..*")]])].

(** A flowchart whose direction is a number. *)
Definition numeric_direction : value :=
  JObj [("type", JStr "flowchart"); ("nodes", JArr []); ("edges", JArr []);
        ("direction", JNum 5)].

End Compile.

(** * Properties *)

Lemma Qgtb_true a b : Qgtb a b = true <-> (b < a)%Q.
Proof.
  unfold Qgtb. rewrite negb_true_iff. split; intro Hq.
  - apply Qnot_le_lt. intro Hle. apply Qle_bool_iff in Hle. congruence.
  - destruct (Qle_bool a b) eqn:E; auto.
    apply Qle_bool_iff in E. exfalso. eapply Qlt_not_le; eauto.
Qed.

Lemma Qgtb_false a b : Qgtb a b = false <-> (a <= b)%Q.
Proof.
  unfold Qgtb. rewrite negb_false_iff. apply Qle_bool_iff.
Qed.


(** ** Strings *)

Lemma append_assoc (a b c : string) : ((a ++ b) ++ c = a ++ (b ++ c))%string.
Proof.
  induction a as [|ch a IH]; simpl; [reflexivity | now rewrite IH].
Qed.

Lemma split_space_not_nil (s : string) : split_space s <> [].
Proof.
  destruct s as [|c s]; simpl; [discriminate|].
  destruct (Ascii.eqb c space); [discriminate|].
  destruct (split_space s); discriminate.
Qed.

(** [s.split(" ").join(" ")] is [s]. *)
Lemma join_split_space (s : string) : join_space (split_space s) = s.
Proof.
  unfold join_space.
  induction s as [|c s IH]; simpl; [reflexivity|].
  destruct (Ascii.eqb c space) eqn:Ec.
  - apply Ascii.eqb_eq in Ec. subst c.
    destruct (split_space s) as [|w ws] eqn:Es.
    + now destruct (split_space_not_nil s).
    + simpl in *. now rewrite IH.
  - destruct (split_space s) as [|w ws] eqn:Es.
    + now destruct (split_space_not_nil s).
    + destruct ws as [|w' ws]; simpl in *; now rewrite <- IH.
Qed.

Lemma split_space_no_space (s : string) : Forall no_space (split_space s).
Proof.
  induction s as [|c s IH]; simpl.
  - repeat constructor.
  - destruct (Ascii.eqb c space) eqn:Ec.
    + constructor; [exact I | exact IH].
    + apply Ascii.eqb_neq in Ec.
      destruct (split_space s) as [|w ws].
      * repeat constructor. exact Ec.
      * inversion IH; subst. constructor; [split; assumption | assumption].
Qed.

(** Joining is unchanged when two neighbours are glued by a space. *)
Lemma join_space_glue (l r : list string) (a b : string) :
  join_space (l ++ (a ++ " " ++ b)%string :: r) = join_space (l ++ a :: b :: r).
Proof.
  unfold join_space.
  induction l as [|h l IH].
  - simpl. destruct r as [|c r]; [reflexivity|].
    now rewrite append_assoc.
  - change ((h :: l) ++ ?t) with (h :: (l ++ t)).
    destruct l as [|h' l].
    + simpl in *. now rewrite IH.
    + simpl in *. now rewrite IH.
Qed.

Section SvgProperties.

Variable getComputedTextLength : string -> Q -> string -> Q.
Variables (maxWidth fontSize : Q) (fontFamily : string).

Let measure (line : string) : Q :=
  measureText getComputedTextLength line fontSize fontFamily.

Let line_ok := line_ok getComputedTextLength maxWidth fontSize fontFamily.
Let current_ok := current_ok getComputedTextLength maxWidth fontSize fontFamily.

Lemma current_ok_line_ok ws line : current_ok ws line -> line_ok ws line.
Proof.
  intros [Hfit | [Hin Hns]]; [now left|].
  destruct (Qlt_le_dec maxWidth (measure line)) as [Hlt | Hle].
  - right. auto.
  - now left.
Qed.

Lemma wrap_loop_join words : forall lines currentLine lines' currentLine',
  wrap_loop getComputedTextLength maxWidth fontSize fontFamily
    words lines currentLine = (lines', currentLine') ->
  join_space (lines' ++ [currentLine'])
  = join_space (lines ++ currentLine :: words).
Proof.
  induction words as [|word rest IH]; intros lines cur lines' cur' Hloop;
    simpl in Hloop.
  - now inversion Hloop.
  - destruct (Qle_bool _ maxWidth).
    + rewrite (IH _ _ _ _ Hloop). apply join_space_glue.
    + rewrite (IH _ _ _ _ Hloop). now rewrite <- app_assoc.
Qed.

Lemma wrap_loop_lines ws words : forall lines currentLine lines' currentLine',
  wrap_loop getComputedTextLength maxWidth fontSize fontFamily
    words lines currentLine = (lines', currentLine') ->
  Forall (fun w => In w ws /\ no_space w) words ->
  Forall (line_ok ws) lines ->
  current_ok ws currentLine ->
  Forall (line_ok ws) (lines' ++ [currentLine']).
Proof.
  induction words as [|word rest IH]; intros lines cur lines' cur' Hloop Hws Hl Hc;
    simpl in Hloop.
  - inversion Hloop; subst. apply Forall_app. split; [assumption|].
    constructor; [now apply current_ok_line_ok | constructor].
  - inversion Hws as [|? ? Hw Hrest]; subst.
    destruct (Qle_bool _ maxWidth) eqn:Efit.
    + apply (IH _ _ _ _ Hloop Hrest Hl).
      left. now apply Qle_bool_iff in Efit.
    + apply (IH _ _ _ _ Hloop Hrest).
      * apply Forall_app. split; [assumption|].
        constructor; [now apply current_ok_line_ok | constructor].
      * now right.
Qed.

(** C3. Every line returned by [wrapText] measures at most [maxWidth], or
    is exactly one word of the text (a space-free piece of
    [text.split(" ")], returned whole) whose own measured width exceeds
    [maxWidth]; and the returned lines joined by single spaces are the
    original text. *)
Theorem wrapText_lines_fit_and_rejoin (text : string) :
  let lines :=
    wrapText getComputedTextLength text maxWidth fontSize fontFamily in
  Forall (fun line =>
            (measureText getComputedTextLength line fontSize fontFamily
             <= maxWidth)%Q
            \/ (In line (split_space text) /\ no_space line
                /\ (maxWidth
                    < measureText getComputedTextLength line fontSize fontFamily)%Q))
         lines
  /\ join_space lines = text.
Proof.
  cbv zeta. unfold wrapText.
  destruct (Qle_bool _ maxWidth) eqn:Efit.
  - split; [|reflexivity].
    constructor; [|constructor]. left. now apply Qle_bool_iff in Efit.
  - pose proof (join_split_space text) as Hjoin.
    pose proof (split_space_no_space text) as Hns.
    destruct (split_space text) as [|w0 rest] eqn:Es.
    + now destruct (split_space_not_nil text).
    + destruct (wrap_loop _ _ _ _ rest [] w0) as [lines cur] eqn:Hloop.
      split.
      * apply (wrap_loop_lines (w0 :: rest) rest [] w0 lines cur Hloop).
        -- inversion Hns; subst.
           apply Forall_forall. intros w Hw. split; [now right|].
           eapply Forall_forall; eauto.
        -- constructor.
        -- right. inversion Hns; subst. split; [now left | assumption].
      * rewrite (wrap_loop_join _ _ _ _ _ Hloop). exact Hjoin.
Qed.

End SvgProperties.

(** ** ERD: markers and connection points *)

Module ERDProperties.
Import ERD.

(** C6. The cardinality-to-marker mapping: the marker at the [to] end
    ([marker-end]) and at the [from] end ([marker-start]) for each of the
    five cardinalities. *)
Theorem cardinality_marker_table :
  (getCardinalityMarker "0..1" "end" = marker_zero_or_one
   /\ getCardinalityMarker "0..1" "start" = marker_one)
  /\ (getCardinalityMarker "1..1" "end" = marker_one
      /\ getCardinalityMarker "1..1" "start" = marker_one)
  /\ (getCardinalityMarker "1..*" "end" = marker_many
      /\ getCardinalityMarker "1..*" "start" = marker_one)
  /\ (getCardinalityMarker "0..*" "end" = marker_zero_or_many
      /\ getCardinalityMarker "0..*" "start" = marker_one)
  /\ (getCardinalityMarker "*..*" "end" = marker_many
      /\ getCardinalityMarker "*..*" "start" = marker_many).
Proof.
  repeat split; reflexivity.
Qed.

(** C10. A cardinality string outside the five valid values still gets a
    marker: [one] at the [from] end and at the [to] end. *)
Theorem unknown_cardinality_falls_back_to_one (c : string) :
  c <> "0..1" -> c <> "1..1" -> c <> "1..*" -> c <> "0..*" -> c <> "*..*" ->
  getCardinalityMarker c "start" = marker_one
  /\ getCardinalityMarker c "end" = marker_one.
Proof.
  intros H01 H11 H1s H0s Hss.
  apply String.eqb_neq in H01, H11, H1s, H0s, Hss.
  unfold getCardinalityMarker. split.
  - rewrite String.eqb_refl. now rewrite Hss.
  - change (String.eqb "end" "start") with false. cbv iota.
    now rewrite H01, H11, H1s, H0s, Hss.
Qed.

Lemma unknown_cardinality_witness :
  getCardinalityMarker "2..3" "start" = marker_one
  /\ getCardinalityMarker "2..3" "end" = marker_one.
Proof.
  apply (unknown_cardinality_falls_back_to_one "2..3"); discriminate.
Defined.




End ERDProperties.

(** ** ERD: grid packing *)

Module ERDPacking.
Import ERD.


Section Packing.

Variable localeCompare : string -> string -> Z.


Lemma insert_entity_perm e l :
  Permutation (insert_entity localeCompare e l) (e :: l).
Proof.
  induction l as [|e' l IH]; simpl; [reflexivity|].
  destruct (localeCompare (name e) (name e') <=? 0)%Z; [reflexivity|].
  rewrite IH. apply perm_swap.
Qed.

Lemma sort_entities_perm l : Permutation (sort_entities localeCompare l) l.
Proof.
  induction l as [|e l IH]; simpl; [reflexivity|].
  fold (sort_entities localeCompare l).
  rewrite insert_entity_perm. now constructor.
Qed.

Section Consistent.

(** A consistent comparator: total and transitive. *)
Hypothesis localeCompare_total : forall a b,
  (localeCompare a b <= 0 \/ localeCompare b a <= 0)%Z.
Hypothesis localeCompare_trans : forall a b c,
  (localeCompare a b <= 0 -> localeCompare b c <= 0 -> localeCompare a c <= 0)%Z.



End Consistent.

(** Placing keeps the entities and their order, and only sets [x], [y]. *)
Lemma place_entities_unplaced l : forall st,
  map unplaced (placedEntities (fold_left place_entity l st))
  = map unplaced (placedEntities st) ++ map unplaced l.
Proof.
  induction l as [|e l IH]; intro st; simpl.
  - now rewrite app_nil_r.
  - rewrite IH. simpl. rewrite map_app, <- app_assoc. reflexivity.
Qed.





End Packing.





End ERDPacking.

(** ** JavaScript [Map] *)

Module JSMapFacts.

Section Facts.
Context {K V : Type} `{KeyEq K}.

Implicit Types (m : JSMap.t K V) (k : K) (v : V).

Lemma keq_refl k : keq k k = true.
Proof. now apply keq_spec. Qed.

Lemma keq_neq k k' : k <> k' -> keq k k' = false.
Proof.
  intro Hne. destruct (keq k k') eqn:E; [|reflexivity].
  now apply keq_spec in E.
Qed.

Lemma key_eq_dec k k' : {k = k'} + {k <> k'}.
Proof.
  destruct (keq k k') eqn:E.
  - left. now apply keq_spec.
  - right. intro Heq. apply keq_spec in Heq. congruence.
Qed.

Lemma get_set_eq m k v : get k (set k v m) = Some v.
Proof.
  induction m as [|[k' v'] m IH]; simpl.
  - now rewrite keq_refl.
  - destruct (keq k k') eqn:E; simpl; rewrite E; [reflexivity | exact IH].
Qed.

Lemma get_set_neq m k k' v : k <> k' -> get k' (set k v m) = get k' m.
Proof.
  intros Hne. induction m as [|[k0 v0] m IH]; simpl.
  - rewrite keq_neq; [reflexivity | congruence].
  - destruct (keq k k0) eqn:E; simpl.
    + apply keq_spec in E. subst k0.
      rewrite keq_neq; [reflexivity | congruence].
    + now rewrite IH.
Qed.

Lemma get_None_iff m k : get k m = None <-> ~ In k (keys m).
Proof.
  induction m as [|[k' v'] m IH]; simpl.
  - tauto.
  - destruct (keq k k') eqn:E.
    + apply keq_spec in E. subst. split; [discriminate | tauto].
    + rewrite IH. split; [|tauto].
      intros Hn [Heq | Hin]; [|tauto].
      subst. now rewrite keq_refl in E.
Qed.

Lemma get_Some_in m k v : get k m = Some v -> In k (keys m).
Proof.
  intro Hg. destruct (in_dec key_eq_dec k (keys m)) as [Hin | Hn]; [assumption|].
  apply get_None_iff in Hn. congruence.
Qed.

Lemma in_keys_get m k : In k (keys m) -> exists v, get k m = Some v.
Proof.
  intro Hin. destruct (get k m) as [v|] eqn:E; [eauto|].
  now apply get_None_iff in E.
Qed.

Lemma has_true_iff m k : has k m = true <-> In k (keys m).
Proof.
  unfold has. destruct (get k m) as [v|] eqn:E.
  - split; [intros _; eapply get_Some_in; eauto | reflexivity].
  - apply get_None_iff in E. split; [discriminate | tauto].
Qed.

Lemma keys_set_in m k v : In k (keys m) -> keys (set k v m) = keys m.
Proof.
  induction m as [|[k' v'] m IH]; simpl; [tauto|].
  intros Hin. destruct (keq k k') eqn:E; simpl; [reflexivity|].
  f_equal. apply IH. destruct Hin as [Heq | Hin]; [|assumption].
  subst. now rewrite keq_refl in E.
Qed.

Lemma keys_set_notin m k v : ~ In k (keys m) -> keys (set k v m) = keys m ++ [k].
Proof.
  induction m as [|[k' v'] m IH]; simpl; [reflexivity|].
  intros Hn. destruct (keq k k') eqn:E; simpl.
  - apply keq_spec in E. subst. tauto.
  - f_equal. apply IH. tauto.
Qed.

Lemma in_keys_set m k k' v : In k' (keys (set k v m)) <-> k' = k \/ In k' (keys m).
Proof.
  destruct (in_dec key_eq_dec k (keys m)) as [Hin | Hn].
  - rewrite keys_set_in by assumption. split; [tauto|].
    intros [-> | Hk]; assumption.
  - rewrite keys_set_notin by assumption. rewrite in_app_iff. simpl.
    split; [intros [?|[?|[]]]; auto | intros [->|?]; auto].
Qed.

Lemma NoDup_keys_set m k v : NoDup (keys m) -> NoDup (keys (set k v m)).
Proof.
  intro Hnd. destruct (in_dec key_eq_dec k (keys m)) as [Hin | Hn].
  - now rewrite keys_set_in.
  - rewrite keys_set_notin by assumption.
    apply NoDup_app; [assumption | repeat constructor; auto | ].
    intros a Ha [<- | []]. contradiction.
Qed.

Lemma length_set_in m k v : In k (keys m) -> List.length (set k v m) = List.length m.
Proof.
  intro Hin. unfold keys in *.
  rewrite <- (length_map fst (set k v m)), <- (length_map fst m).
  f_equal. now apply keys_set_in.
Qed.

(** Every value of a map after [set] is the new value or an old one. *)
Lemma in_values_set m k v v' :
  In v' (values (set k v m)) -> v' = v \/ In v' (values m).
Proof.
  induction m as [|[k0 v0] m IH]; simpl.
  - intros [<- | []]. now left.
  - destruct (keq k k0); simpl.
    + intros [<- | Hin]; auto.
    + intros [<- | Hin]; auto. destruct (IH Hin); auto.
Qed.

(** Folding [set] over pairs, as [new Map(pairs)] does. *)
Lemma fold_set_keys (ps : list (K * V)) : forall m k,
  In k (keys (fold_left (fun m p => set (fst p) (snd p) m) ps m))
  <-> In k (keys m) \/ In k (map fst ps).
Proof.
  induction ps as [|[k0 v0] ps IH]; intros m k; simpl.
  - tauto.
  - rewrite IH, in_keys_set. simpl. intuition congruence.
Qed.

Lemma fold_set_NoDup (ps : list (K * V)) : forall m,
  NoDup (keys m) ->
  NoDup (keys (fold_left (fun m p => set (fst p) (snd p) m) ps m)).
Proof.
  induction ps as [|[k0 v0] ps IH]; intros m Hnd; simpl; [assumption|].
  apply IH. now apply NoDup_keys_set.
Qed.

Lemma fold_set_values (ps : list (K * V)) : forall m v,
  In v (values (fold_left (fun m p => set (fst p) (snd p) m) ps m)) ->
  In v (values m) \/ In v (map snd ps).
Proof.
  induction ps as [|[k0 v0] ps IH]; intros m v; simpl.
  - tauto.
  - intro Hin. destruct (IH _ _ Hin) as [Hm | Hps]; [|tauto].
    destruct (in_values_set _ _ _ _ Hm); auto.
Qed.

Lemma of_pairs_keys (ps : list (K * V)) k :
  In k (keys (of_pairs ps)) <-> In k (map fst ps).
Proof.
  unfold of_pairs. rewrite fold_set_keys. simpl. tauto.
Qed.

Lemma of_pairs_NoDup (ps : list (K * V)) : NoDup (keys (of_pairs ps)).
Proof.
  apply fold_set_NoDup. constructor.
Qed.

Lemma of_pairs_values (ps : list (K * V)) v :
  In v (values (of_pairs ps)) -> In v (map snd ps).
Proof.
  intro Hin. destruct (fold_set_values ps [] v Hin) as [[] | Hps]. exact Hps.
Qed.

(** With one value for every key, each key maps to that value. *)
Lemma fold_set_const (c : V) (ks : list K) : forall m k,
  (forall k', In k' (keys m) -> get k' m = Some c) ->
  In k (keys (fold_left (fun m p => set (fst p) (snd p) m)
                (map (fun k => (k, c)) ks) m)) ->
  get k (fold_left (fun m p => set (fst p) (snd p) m)
           (map (fun k => (k, c)) ks) m) = Some c.
Proof.
  induction ks as [|k0 ks IH]; intros m k Hm Hin; simpl in *.
  - auto.
  - apply IH; [|assumption].
    intros k' Hk'. apply in_keys_set in Hk'.
    destruct (key_eq_dec k0 k') as [<- | Hne].
    + apply get_set_eq.
    + rewrite get_set_neq by assumption. apply Hm.
      destruct Hk' as [-> | Hk']; [congruence | assumption].
Qed.

End Facts.

End JSMapFacts.

Import JSMapFacts.

(** ** Flowchart: layering *)

Module LayeringFacts.
Import Flowchart Layering.

Lemma mem_true_iff k l : mem k l = true <-> In k l.
Proof.
  unfold mem. rewrite existsb_exists. split.
  - intros (x & Hin & Heq). apply String.eqb_eq in Heq. now subst.
  - intro Hin. exists k. split; [assumption | apply String.eqb_refl].
Qed.

Lemma mem_false_iff k l : mem k l = false <-> ~ In k l.
Proof.
  rewrite <- mem_true_iff. destruct (mem k l); split; congruence.
Qed.

Lemma mem_app_single k l u :
  k <> u -> mem k (l ++ [u]) = mem k l.
Proof.
  intro Hne. unfold mem. rewrite existsb_app. simpl.
  apply String.eqb_neq in Hne. rewrite Hne. now rewrite !orb_false_r.
Qed.

(** *** Counting the edges still to relax *)

Lemma remaining_init E v : remaining E [] [] v = indeg E v.
Proof.
  unfold remaining, indeg. simpl. f_equal.
  apply filter_ext. intro e. apply andb_true_r.
Qed.

Lemma remaining_cons_eq E done todo v :
  remaining E done (v :: todo) v = S (remaining E done todo v).
Proof.
  unfold remaining. now rewrite count_occ_cons_eq.
Qed.

Lemma remaining_cons_neq E done todo v w :
  v <> w -> remaining E done (v :: todo) w = remaining E done todo w.
Proof.
  intro Hne. unfold remaining. now rewrite count_occ_cons_neq.
Qed.

(** Dequeuing [u] moves its out-edges to the adjacency list to visit. *)
Lemma remaining_dequeue E done u v :
  ~ In u done ->
  remaining E done [] v = remaining E (done ++ [u]) (succs E u) v.
Proof.
  intro Hu. unfold remaining, succs. cbn [count_occ Nat.add].
  induction E as [|e E IH]; [reflexivity|].
  cbn [filter].
  destruct (String.eqb (e_from e) u) eqn:Efrom.
  - apply String.eqb_eq in Efrom.
    assert (Hm : mem (e_from e) done = false)
      by (apply mem_false_iff; congruence).
    assert (Hm' : mem (e_from e) (done ++ [u]) = true)
      by (apply mem_true_iff, in_or_app; right; now left).
    rewrite Hm, Hm'. cbn [negb andb map]. rewrite andb_true_r, andb_false_r.
    destruct (String.eqb (e_to e) v) eqn:Eto.
    + apply String.eqb_eq in Eto. rewrite count_occ_cons_eq by assumption.
      cbn [List.length]. rewrite IH. lia.
    + apply String.eqb_neq in Eto. rewrite count_occ_cons_neq by assumption.
      exact IH.
  - apply String.eqb_neq in Efrom.
    rewrite (mem_app_single _ _ _ Efrom).
    destruct (String.eqb (e_to e) v && negb (mem (e_from e) done));
      cbn [List.length]; rewrite IH; lia.
Qed.

Lemma remaining_zero E done todo v :
  remaining E done todo v = 0%nat ->
  ~ In v todo
  /\ forall e, In e E -> e_to e = v -> In (e_from e) done.
Proof.
  unfold remaining. intro Hz.
  apply Nat.eq_add_0 in Hz. destruct Hz as [Hc Hl]. split.
  - now apply (count_occ_not_In string_dec).
  - intros e He Hto. apply length_zero_iff_nil in Hl.
    destruct (mem (e_from e) done) eqn:Em; [now apply mem_true_iff|].
    assert (Hin : In e (filter (fun e => String.eqb (e_to e) v
                                         && negb (mem (e_from e) done)) E)).
    { apply filter_In. split; [assumption|].
      rewrite Em. subst v. now rewrite String.eqb_refl. }
    rewrite Hl in Hin. destruct Hin.
Qed.

Lemma remaining_nonzero E done v :
  remaining E done [] v <> 0%nat ->
  exists e, In e E /\ e_to e = v /\ ~ In (e_from e) done.
Proof.
  unfold remaining. simpl. intro Hnz.
  destruct (filter _ E) as [|e l] eqn:Ef; [now simpl in Hnz|].
  assert (Hin : In e (e :: l)) by now left.
  rewrite <- Ef in Hin. apply filter_In in Hin. destruct Hin as [He Hb].
  apply andb_true_iff in Hb. destruct Hb as [Hto Hfrom].
  exists e. split; [assumption|]. split.
  - now apply String.eqb_eq.
  - apply mem_false_iff. now apply negb_true_iff.
Qed.

(** *** The graph built by [buildGraph] *)

Lemma succs_snoc E e u :
  succs (E ++ [e]) u
  = succs E u ++ (if String.eqb (e_from e) u then [e_to e] else []).
Proof.
  unfold succs. rewrite filter_app, map_app. simpl.
  now destruct (String.eqb (e_from e) u).
Qed.

Lemma indeg_snoc E e v :
  indeg (E ++ [e]) v
  = (indeg E v + (if String.eqb (e_to e) v then 1 else 0))%nat.
Proof.
  unfold indeg. rewrite filter_app, length_app. simpl.
  now destruct (String.eqb (e_to e) v).
Qed.

Lemma add_edge_kept ids E g e :
  graph_inv ids E g ->
  mem (e_from e) ids && mem (e_to e) ids = true ->
  graph_inv ids (E ++ [e]) (add_edge g e).
Proof.
  intros (Hka & Hkd & Hadj & Hdeg & Hnd) Hkept.
  apply andb_true_iff in Hkept. destruct Hkept as [Hf Ht].
  apply mem_true_iff in Hf, Ht.
  unfold add_edge.
  assert (Hhf : has (e_from e) (adj g) = true)
    by (apply has_true_iff, Hka; assumption).
  assert (Hht : has (e_to e) (adj g) = true)
    by (apply has_true_iff, Hka; assumption).
  rewrite Hhf, Hht, (Hadj _ Hf), (Hdeg _ Ht).
  unfold graph_inv. cbn [andb adj inDegree].
  split; [|split; [|split; [|split]]]; [| | | |now apply NoDup_keys_set].
  - intro k. rewrite in_keys_set. split.
    + intros [-> | Hk]; [assumption | now apply Hka].
    + intro Hk. right. now apply Hka.
  - intro k. rewrite in_keys_set. split.
    + intros [-> | Hk]; [assumption | now apply Hkd].
    + intro Hk. right. now apply Hkd.
  - intros u Hu. rewrite succs_snoc.
    destruct (string_dec (e_from e) u) as [<- | Hne].
    + rewrite String.eqb_refl. apply get_set_eq.
    + rewrite get_set_neq by assumption.
      apply String.eqb_neq in Hne. rewrite Hne, app_nil_r. now apply Hadj.
  - intros v Hv. rewrite indeg_snoc.
    destruct (string_dec (e_to e) v) as [<- | Hne].
    + rewrite String.eqb_refl, get_set_eq. f_equal. lia.
    + rewrite get_set_neq by assumption.
      apply String.eqb_neq in Hne. rewrite Hne, Nat.add_0_r. now apply Hdeg.
Qed.

Lemma add_edge_dropped ids E g e :
  graph_inv ids E g ->
  mem (e_from e) ids && mem (e_to e) ids = false ->
  add_edge g e = g.
Proof.
  intros (Hka & Hkd & Hadj & Hdeg & Hnd) Hdrop. unfold add_edge.
  assert (Hh : has (e_from e) (adj g) && has (e_to e) (adj g) = false).
  { apply andb_false_iff in Hdrop. apply andb_false_iff.
    destruct Hdrop as [Hm | Hm]; [left | right];
      apply mem_false_iff in Hm;
      (destruct (has _ (adj g)) eqn:Eh; [|reflexivity]);
      apply has_true_iff, Hka in Eh; contradiction. }
  now rewrite Hh.
Qed.

Lemma fold_add_edge ids edges : forall E g,
  graph_inv ids E g ->
  graph_inv ids (E ++ kept_edges ids edges) (fold_left add_edge edges g).
Proof.
  induction edges as [|e edges IH]; intros E g Hinv.
  - simpl. now rewrite app_nil_r.
  - cbn [fold_left kept_edges filter].
    destruct (mem (e_from e) ids && mem (e_to e) ids) eqn:Ekept.
    + change (E ++ e :: ?l) with (E ++ [e] ++ l). rewrite app_assoc.
      apply IH. now apply add_edge_kept.
    + rewrite (add_edge_dropped _ _ _ _ Hinv Ekept). now apply IH.
Qed.

Lemma buildGraph_inv nodes edges nodesMap :
  graph_inv (map n_id nodes) (kept_edges (map n_id nodes) edges)
    (buildGraph nodes edges nodesMap).
Proof.
  unfold buildGraph.
  apply (fold_add_edge (map n_id nodes) edges []).
  assert (Hfst : forall (V : Type) (c : V),
            map fst (map (fun n => (n_id n, c)) nodes) = map n_id nodes).
  { intros V c. rewrite map_map. reflexivity. }
  unfold graph_inv. cbn [adj inDegree].
  split; [|split; [|split; [|split]]]; [| | | |apply of_pairs_NoDup].
  - intro k. now rewrite of_pairs_keys, Hfst.
  - intro k. now rewrite of_pairs_keys, Hfst.
  - intros u Hu. unfold of_pairs.
    rewrite <- (map_map n_id (fun k => (k, @nil string))).
    apply fold_set_const; [intros k' []|].
    apply fold_set_keys. right. now rewrite !map_map.
  - intros v Hv. unfold of_pairs.
    rewrite <- (map_map n_id (fun k => (k, 0%Z))).
    apply (fold_set_const 0%Z); [intros k' []|].
    apply fold_set_keys. right. now rewrite !map_map.
Qed.

(** When every endpoint is a node id, no edge is dropped. *)
Lemma kept_edges_all ids edges :
  (forall e, In e edges -> In (e_from e) ids /\ In (e_to e) ids) ->
  kept_edges ids edges = edges.
Proof.
  intro Hvalid. unfold kept_edges.
  induction edges as [|e edges IH]; [reflexivity|].
  cbn [filter]. destruct (Hvalid e (or_introl eq_refl)) as [Hf Ht].
  apply mem_true_iff in Hf, Ht. rewrite Hf, Ht. cbn [andb].
  f_equal. apply IH. intros e' He'. apply Hvalid. now right.
Qed.

Lemma kept_edges_incl ids edges e :
  In e (kept_edges ids edges) ->
  In e edges /\ In (e_from e) ids /\ In (e_to e) ids.
Proof.
  unfold kept_edges. rewrite filter_In, andb_true_iff, !mem_true_iff. tauto.
Qed.

(** *** Layers and sortedness *)

Lemma layer_push_get_eq l x (layers : JSMap.t Z (list string)) :
  get l (layer_push l x layers)
  = Some (match get l layers with Some ids => ids | None => [] end ++ [x]).
Proof.
  unfold layer_push, has. destruct (get l layers) as [ids|] eqn:E.
  - rewrite E. apply get_set_eq.
  - rewrite get_set_eq. apply get_set_eq.
Qed.

Lemma layer_push_get_neq l l' x (layers : JSMap.t Z (list string)) :
  l <> l' -> get l' (layer_push l x layers) = get l' layers.
Proof.
  intro Hne. unfold layer_push, has. destruct (get l layers) as [ids|] eqn:E.
  - rewrite E. now apply get_set_neq.
  - rewrite get_set_eq. now rewrite !get_set_neq.
Qed.

Lemma assign_consistent layers nodeLayers v l :
  layers_consistent layers nodeLayers ->
  get v nodeLayers = None ->
  layers_consistent (layer_push l v layers) (set v l nodeLayers).
Proof.
  intros [Hin Hof] Hnone. split.
  - intros x l0 Hx. destruct (string_dec v x) as [<- | Hne].
    + rewrite get_set_eq in Hx. inversion Hx; subst l0.
      rewrite layer_push_get_eq. eexists. split; [reflexivity|].
      apply in_or_app. right. now left.
    + rewrite get_set_neq in Hx by assumption.
      destruct (Hin _ _ Hx) as (ids & Hids & Hxin).
      destruct (Z.eq_dec l l0) as [<- | Hl].
      * rewrite layer_push_get_eq, Hids. eexists. split; [reflexivity|].
        apply in_or_app. now left.
      * rewrite layer_push_get_neq by assumption. eauto.
  - intros l0 ids x Hids Hx. destruct (Z.eq_dec l l0) as [<- | Hl].
    + rewrite layer_push_get_eq in Hids. inversion Hids; subst ids.
      apply in_app_or in Hx. destruct Hx as [Hx | [<- | []]].
      * destruct (get l layers) as [old|] eqn:Eold; [|destruct Hx].
        assert (Hxl : get x nodeLayers = Some l) by eauto.
        rewrite get_set_neq; [assumption | congruence].
      * apply get_set_eq.
    + rewrite layer_push_get_neq in Hids by assumption.
      assert (Hxl : get x nodeLayers = Some l0) by eauto.
      rewrite get_set_neq; [assumption | congruence].
Qed.

Lemma layerOf_set_eq nodeLayers v l : layerOf (set v l nodeLayers) v = l.
Proof. unfold layerOf. now rewrite get_set_eq. Qed.

Lemma layerOf_set_neq nodeLayers v l x :
  v <> x -> layerOf (set v l nodeLayers) x = layerOf nodeLayers x.
Proof. intro Hne. unfold layerOf. now rewrite get_set_neq. Qed.

Lemma StronglySorted_snoc {A} (R : A -> A -> Prop) l a :
  StronglySorted R l -> Forall (fun x => R x a) l ->
  StronglySorted R (l ++ [a]).
Proof.
  induction l as [|b l IH]; simpl; intros Hs Hall.
  - repeat constructor.
  - inversion Hs; subst. inversion Hall; subst.
    constructor; [now apply IH|].
    apply Forall_app. split; [assumption | now repeat constructor].
Qed.

Lemma StronglySorted_ext_in {A} (R R' : A -> A -> Prop) l :
  (forall a b, In a l -> In b l -> R a b -> R' a b) ->
  StronglySorted R l -> StronglySorted R' l.
Proof.
  induction l as [|a l IH]; intros Hext Hs; [constructor|].
  inversion Hs as [|? ? Hl Hall]; subst. constructor.
  - apply IH; [|assumption]. intros x y' Hx Hy. apply Hext; now right.
  - rewrite Forall_forall in *. intros x Hx.
    apply Hext; [now left | now right | now apply Hall].
Qed.

Lemma StronglySorted_before {A} (R : A -> A -> Prop) l1 a l2 :
  StronglySorted R (l1 ++ a :: l2) -> Forall (fun x => R x a) l1.
Proof.
  induction l1 as [|b l1 IH]; simpl; intro Hs; [constructor|].
  inversion Hs as [|? ? Hl Hall]; subst. constructor.
  - rewrite Forall_forall in Hall. apply Hall.
    apply in_or_app. right. now left.
  - now apply IH.
Qed.

(** *** The sources *)

Lemma get_of_NoDup {V} (m : JSMap.t string V) k v :
  NoDup (keys m) -> (In (k, v) m <-> get k m = Some v).
Proof.
  induction m as [|[k' v'] m IH]; simpl; intro Hnd.
  - split; [tauto | discriminate].
  - inversion Hnd as [|? ? Hnotin Hnd']; subst.
    destruct (String.eqb k k') eqn:E.
    + apply String.eqb_eq in E. subst k'. split.
      * intros [Heq | Hin]; [congruence|].
        exfalso. apply Hnotin. now apply (in_map fst) in Hin.
      * intro Heq. left. congruence.
    + apply String.eqb_neq in E. rewrite <- IH by assumption. split.
      * intros [Heq | Hin]; [congruence | assumption].
      * tauto.
Qed.

Lemma seed_q l : forall st,
  q (fold_left seed_source l st) = q st ++ map fst (filter is_source l)
  /\ head (fold_left seed_source l st) = head st
  /\ deg (fold_left seed_source l st) = deg st.
Proof.
  induction l as [|[k d] l IH]; intro st; cbn [fold_left filter].
  - now rewrite app_nil_r.
  - destruct (IH (seed_source st (k, d))) as (Hq & Hh & Hd).
    rewrite Hq, Hh, Hd. unfold seed_source, is_source. cbn [snd].
    destruct (d =? 0)%Z; cbn [q head deg map fst]; [|auto].
    now rewrite <- app_assoc.
Qed.

(** After seeding, exactly the queued nodes have a layer, and it is 0. *)
Lemma seed_layers l : forall st,
  (forall x, In x (q st) <-> get x (nodeLayers st) <> None) ->
  (forall x c, get x (nodeLayers st) = Some c -> c = 0%Z) ->
  layers_consistent (layers st) (nodeLayers st) ->
  NoDup (q st ++ map fst (filter is_source l)) ->
  let st' := fold_left seed_source l st in
  (forall x, In x (q st') <-> get x (nodeLayers st') <> None)
  /\ (forall x c, get x (nodeLayers st') = Some c -> c = 0%Z)
  /\ layers_consistent (layers st') (nodeLayers st').
Proof.
  induction l as [|[k d] l IH]; intros st Hdom Hzero Hcons Hnd;
    cbn [fold_left]; [auto|].
  apply IH; unfold seed_source; cbn [filter] in Hnd; unfold is_source in *;
    cbn [snd] in *; destruct (d =? 0)%Z; cbn [q nodeLayers layers map fst] in *;
    try assumption.
  - intro x. rewrite in_app_iff. cbn [In].
    destruct (string_dec k x) as [<- | Hne].
    + rewrite get_set_eq. split; [discriminate | auto].
    + rewrite get_set_neq by assumption. rewrite <- Hdom. tauto.
  - intros x c. destruct (string_dec k x) as [<- | Hne].
    + rewrite get_set_eq. congruence.
    + rewrite get_set_neq by assumption. apply Hzero.
  - apply assign_consistent; [assumption|].
    destruct (get k (nodeLayers st)) eqn:Eg; [|reflexivity].
    assert (Hin : In k (q st)) by (apply Hdom; congruence).
    apply NoDup_app_remove_r in Hnd as Hq.
    exfalso. revert Hnd. clear - Hin.
    intro Hnd. apply NoDup_remove_2 in Hnd.
    apply Hnd. apply in_or_app. now left.
  - now rewrite <- app_assoc.
Qed.

Lemma NoDup_map_fst_filter {V} (f : string * V -> bool) (m : list (string * V)) :
  NoDup (map fst m) -> NoDup (map fst (filter f m)).
Proof.
  induction m as [|p m IH]; simpl; intro Hnd; [constructor|].
  inversion Hnd as [|? ? Hnotin Hnd']; subst.
  destruct (f p); simpl; [|now apply IH].
  constructor; [|now apply IH].
  intro Hin. apply Hnotin. apply in_map_iff in Hin.
  destruct Hin as (p' & Hfst & Hp'). apply filter_In in Hp'.
  rewrite <- Hfst. apply in_map. tauto.
Qed.

Lemma StronglySorted_all {A} (R : A -> A -> Prop) l :
  (forall a b, In a l -> In b l -> R a b) -> StronglySorted R l.
Proof.
  induction l as [|a l IH]; intro Hall; constructor.
  - apply IH. intros x y' Hx Hy. apply Hall; now right.
  - apply Forall_forall. intros x Hx. apply Hall; [now left | now right].
Qed.

Lemma indeg_pos E e : In e E -> indeg E (e_to e) <> 0%nat.
Proof.
  intros He Hz. unfold indeg in Hz. apply length_zero_iff_nil in Hz.
  assert (Hin : In e (filter (fun e' => String.eqb (e_to e') (e_to e)) E)).
  { apply filter_In. split; [assumption | apply String.eqb_refl]. }
  rewrite Hz in Hin. destruct Hin.
Qed.

(** The state before the first iteration satisfies the invariant. *)
Lemma seed_inv ids E g :
  graph_inv ids E g ->
  let st0 := fold_left seed_source (inDegree g)
               (mkState [] 0 (inDegree g) [] []) in
  bfs_inv E (keys (inDegree g)) [] st0 /\ next_bound st0.
Proof.
  intros (Hka & Hkd & Hadj & Hdeg & Hnd) st0.
  destruct (seed_q (inDegree g) (mkState [] 0 (inDegree g) [] []))
    as (Hq & Hhead & Hdegs).
  fold st0 in Hq, Hhead, Hdegs. cbn [q head deg app] in Hq, Hhead, Hdegs.
  assert (Hndq : NoDup (q st0))
    by (rewrite Hq; now apply NoDup_map_fst_filter).
  destruct (seed_layers (inDegree g) (mkState [] 0 (inDegree g) [] []))
    as (Hdom & Hzero & Hcons); cbn [q nodeLayers layers app].
  { intro x. cbn. split; [tauto | congruence]. }
  { intros x c. cbn. discriminate. }
  { split; cbn; intros; discriminate. }
  { now rewrite <- Hq. }
  fold st0 in Hdom, Hzero, Hcons.
  assert (Hlay : forall x, layerOf (nodeLayers st0) x = 0%Z).
  { intro x. unfold layerOf.
    destruct (get x (nodeLayers st0)) eqn:Eg; [eauto | reflexivity]. }
  assert (Hsrc : forall v, In v (keys (inDegree g)) ->
            (In v (q st0) <-> indeg E v = 0%nat)).
  { intros v Hv. rewrite Hq, in_map_iff. split.
    - intros ([k d] & Hfst & Hin). cbn in Hfst. subst k.
      apply filter_In in Hin. destruct Hin as [Hin Hsrc].
      unfold is_source in Hsrc. cbn in Hsrc. apply Z.eqb_eq in Hsrc. subst d.
      apply get_of_NoDup in Hin; [|assumption].
      rewrite Hdeg in Hin by now apply Hkd. inversion Hin. lia.
    - intro Hz. exists (v, 0%Z). split; [reflexivity|].
      apply filter_In. split; [|reflexivity].
      apply get_of_NoDup; [assumption|].
      rewrite Hdeg by now apply Hkd. now rewrite Hz. }
  assert (Hdq : dequeued st0 = []) by (unfold dequeued; now rewrite Hhead).
  assert (Hincl : incl (q st0) (keys (inDegree g))).
  { intros x Hx. rewrite Hq in Hx. apply in_map_iff in Hx.
    destruct Hx as (p & <- & Hp). apply filter_In in Hp.
    apply in_map. tauto. }
  split.
  - constructor.
    + rewrite Hhead. lia.
    + exact Hndq.
    + exact Hincl.
    + intros x [].
    + intros v Hv. rewrite Hdegs, Hdq, remaining_init. apply Hdeg.
      now apply Hkd.
    + intros v Hv. rewrite Hdq, remaining_init. now apply Hsrc.
    + exact Hdom.
    + apply StronglySorted_all. intros a b _ _. rewrite !Hlay. lia.
    + intros e He Hto. exfalso.
      apply (indeg_pos E e He). apply Hsrc; [|assumption].
      now apply Hincl.
    + exact Hcons.
  - intros u _. apply Forall_forall. intros x _. rewrite !Hlay. lia.
Qed.

(** *** One visited successor *)

Lemma visit_inv E K c todo st v :
  bfs_inv E K (v :: todo) st -> layer_bounds c st ->
  exists st', visit c st v = Some st'
    /\ bfs_inv E K todo st' /\ layer_bounds c st'
    /\ head st' = head st
    /\ (exists extra, q st' = q st ++ extra)
    /\ (forall x, In x (q st) ->
          get x (nodeLayers st') = get x (nodeLayers st)).
Proof.
  intros Hinv [Hdone Hqb].
  destruct Hinv as [Hhead Hnd Hkeys Htodo Hdeg Hqd Hlayer Hsorted Hedges Hcons].
  assert (HvK : In v K) by (apply Htodo; now left).
  pose proof (Hdeg v HvK) as Hdv. rewrite remaining_cons_eq in Hdv.
  assert (Hvq : ~ In v (q st)).
  { intro Hin. apply (Hqd v HvK) in Hin.
    rewrite remaining_cons_eq in Hin. discriminate. }
  assert (Hvl : get v (nodeLayers st) = None).
  { destruct (get v (nodeLayers st)) eqn:Eg; [|reflexivity].
    exfalso. apply Hvq, Hlayer. congruence. }
  assert (Hrem : forall w, w <> v ->
            remaining E (dequeued st) (v :: todo) w
            = remaining E (dequeued st) todo w)
    by (intros; apply remaining_cons_neq; congruence).
  set (r := remaining E (dequeued st) todo v) in *.
  assert (Hdeg' : forall w, In w K ->
            get w (set v (Z.of_nat r) (deg st))
            = Some (Z.of_nat (remaining E (dequeued st) todo w))).
  { intros w Hw. destruct (string_dec v w) as [<- | Hne].
    - apply get_set_eq.
    - rewrite get_set_neq by assumption. rewrite <- Hrem by congruence.
      now apply Hdeg. }
  unfold visit. rewrite Hdv.
  replace (Z.of_nat (S r) - 1)%Z with (Z.of_nat r) by lia.
  destruct (Z.of_nat r =? 0)%Z eqn:Ez.
  - (* the last in-edge: [v] is queued one layer below *)
    apply Z.eqb_eq in Ez. assert (Hr0 : r = 0%nat) by lia.
    set (st' := mkState (q st ++ [v]) (head st) (set v (Z.of_nat r) (deg st))
                  (layer_push (c + 1) v (layers st))
                  (set v (c + 1)%Z (nodeLayers st))).
    assert (Hdq' : dequeued st' = dequeued st).
    { unfold dequeued, st'. cbn [q head]. rewrite firstn_app.
      replace (head st - List.length (q st))%nat with 0%nat by lia.
      cbn [firstn]. apply app_nil_r. }
    assert (Hlo : forall x, In x (q st) ->
              layerOf (set v (c + 1)%Z (nodeLayers st)) x
              = layerOf (nodeLayers st) x).
    { intros x Hx. apply layerOf_set_neq. congruence. }
    assert (Hlv : layerOf (set v (c + 1)%Z (nodeLayers st)) v = (c + 1)%Z)
      by apply layerOf_set_eq.
    assert (Hdin : forall x, In x (dequeued st) -> In x (q st)).
    { intros x Hx. unfold dequeued in Hx.
      rewrite <- (firstn_skipn (head st) (q st)). apply in_or_app. now left. }
    exists st'. split; [reflexivity|]. split; [|split; [|split; [|split]]].
    + constructor; rewrite ?Hdq'; cbn [st' q head deg layers nodeLayers].
      * rewrite length_app. lia.
      * apply NoDup_app; [assumption | repeat constructor; auto |].
        intros a Ha [<- | []]. contradiction.
      * intros x Hx. apply in_app_or in Hx.
        destruct Hx as [Hx | [<- | []]]; auto.
      * intros x Hx. apply Htodo. now right.
      * exact Hdeg'.
      * intros w Hw. rewrite in_app_iff. cbn [In].
        destruct (string_dec v w) as [<- | Hne].
        -- fold r. split; [intros _; exact Hr0 | auto].
        -- rewrite <- Hrem by congruence. rewrite <- (Hqd w Hw).
           split; [intros [? | [? | []]]; [assumption | congruence] | auto].
      * intro x. rewrite in_app_iff. cbn [In].
        destruct (string_dec v x) as [<- | Hne].
        -- rewrite get_set_eq. split; [discriminate | auto].
        -- rewrite get_set_neq by assumption. rewrite <- Hlayer.
           split; [intros [? | [? | []]]; [assumption | congruence] | auto].
      * apply StronglySorted_snoc.
        -- eapply StronglySorted_ext_in; [|exact Hsorted].
           intros a b Ha Hb Hab. cbn beta. now rewrite !Hlo.
        -- rewrite Forall_forall in *. intros x Hx.
           rewrite Hlv, Hlo by assumption. auto.
      * intros e He Hto.
        apply in_app_or in Hto. destruct Hto as [Hto | [Hto | []]].
        -- destruct (Hedges e He Hto) as [Hfrom Hlt].
           split; [apply in_or_app; now left|].
           now rewrite !Hlo.
        -- destruct (remaining_zero _ _ _ _ Hr0) as [_ Hpred].
           assert (Hfd : In (e_from e) (dequeued st)) by (apply Hpred; auto).
           split; [apply in_or_app; left; now apply Hdin|].
           rewrite <- Hto, Hlv, Hlo by now apply Hdin.
           rewrite Forall_forall in Hdone. specialize (Hdone _ Hfd). lia.
      * now apply assign_consistent.
    + split; rewrite ?Hdq'; cbn [st' nodeLayers]; apply Forall_forall.
      * intros x Hx. rewrite Hlo by now apply Hdin.
        rewrite Forall_forall in Hdone. auto.
      * intros x Hx. cbn [st' q] in Hx. apply in_app_or in Hx.
        destruct Hx as [Hx | [<- | []]].
        -- rewrite Hlo by assumption. rewrite Forall_forall in Hqb. auto.
        -- rewrite Hlv. lia.
    + reflexivity.
    + exists [v]. reflexivity.
    + intros x Hx. cbn [st' nodeLayers]. apply get_set_neq. congruence.
  - (* other in-edges remain *)
    apply Z.eqb_neq in Ez.
    set (st' := mkState (q st) (head st) (set v (Z.of_nat r) (deg st))
                  (layers st) (nodeLayers st)).
    exists st'. split; [reflexivity|]. split; [|split; [|split; [|split]]].
    + constructor; cbn [st' q head deg layers nodeLayers]; try assumption;
        try exact Hdeg'.
      * intros x Hx. apply Htodo. now right.
      * intros w Hw. change (dequeued st') with (dequeued st).
        destruct (string_dec v w) as [<- | Hne].
        -- fold r. split; [contradiction | intro Hr0; lia].
        -- rewrite <- Hrem by congruence. now apply Hqd.
    + split; assumption.
    + reflexivity.
    + exists []. cbn. now rewrite app_nil_r.
    + reflexivity.
Qed.

Lemma visit_all_inv E K c todo : forall st,
  bfs_inv E K todo st -> layer_bounds c st ->
  exists st', visit_all c todo st = Some st'
    /\ bfs_inv E K [] st' /\ layer_bounds c st'
    /\ head st' = head st
    /\ (exists extra, q st' = q st ++ extra)
    /\ (forall x, In x (q st) ->
          get x (nodeLayers st') = get x (nodeLayers st)).
Proof.
  induction todo as [|v todo IH]; intros st Hinv Hb.
  - exists st. split; [reflexivity|]. split; [assumption|].
    split; [assumption|]. split; [reflexivity|].
    split; [exists []; now rewrite app_nil_r | auto].
  - destruct (visit_inv _ _ _ _ _ _ Hinv Hb)
      as (st1 & Hv & Hinv1 & Hb1 & Hh1 & [ex1 Hq1] & Hl1).
    destruct (IH st1 Hinv1 Hb1)
      as (st2 & Hv2 & Hinv2 & Hb2 & Hh2 & [ex2 Hq2] & Hl2).
    exists st2. cbn [visit_all]. rewrite Hv.
    split; [assumption|]. split; [assumption|]. split; [assumption|].
    split; [congruence|]. split.
    + exists (ex1 ++ ex2). rewrite Hq2, Hq1. now rewrite app_assoc.
    + intros x Hx. rewrite Hl2, Hl1; auto.
      rewrite Hq1. apply in_or_app. now left.
Qed.

(** *** One iteration and the whole loop *)

Lemma firstn_succ_nth {A} (l : list A) n a :
  nth_error l n = Some a -> firstn (S n) l = firstn n l ++ [a].
Proof.
  revert l. induction n as [|n IH]; intros [|b l] Hn; try discriminate.
  - cbn in *. congruence.
  - cbn [firstn app]. f_equal. now apply IH.
Qed.

Lemma firstn_prefix {A} (l extra : list A) n :
  (n <= List.length l)%nat -> firstn n (l ++ extra) = firstn n l.
Proof.
  intro Hn. rewrite firstn_app.
  replace (n - List.length l)%nat with 0%nat by lia.
  cbn. apply app_nil_r.
Qed.

Section Loop.

Variables (E : list edge) (K : list string).
Variable adj : JSMap.t string (list string).

Hypothesis adj_succs : forall u, In u K -> get u adj = Some (succs E u).
Hypothesis targets_in_K : forall e, In e E -> In (e_to e) K.

Lemma dequeue_inv st :
  bfs_inv E K [] st -> next_bound st ->
  (head st < List.length (q st))%nat ->
  exists st', dequeue adj st = Some st'
    /\ bfs_inv E K [] st' /\ next_bound st'
    /\ head st' = S (head st).
Proof.
  intros Hinv Hnext Hlt.
  destruct (nth_error (q st) (head st)) as [u|] eqn:Hu;
    [|apply nth_error_None in Hu; lia].
  pose proof (nth_error_In _ _ Hu) as Huq.
  pose proof (firstn_skipn_middle _ _ Hu) as Hsplit.
  pose proof (firstn_succ_nth _ _ _ Hu) as Hsucc.
  destruct Hinv as [Hhead Hnd Hkeys Htodo Hdeg Hqd Hlayer Hsorted Hedges Hcons].
  destruct (get u (nodeLayers st)) as [c|] eqn:Hc;
    [|now apply Hlayer in Huq].
  assert (Hlu : layerOf (nodeLayers st) u = c) by (unfold layerOf; now rewrite Hc).
  assert (Hnotdone : ~ In u (dequeued st)).
  { unfold dequeued. rewrite <- Hsplit in Hnd.
    apply NoDup_remove_2 in Hnd. intro Hin. apply Hnd.
    apply in_or_app. now left. }
  set (st1 := mkState (q st) (S (head st)) (deg st) (layers st) (nodeLayers st)).
  assert (Hdq1 : dequeued st1 = dequeued st ++ [u]) by exact Hsucc.
  assert (Hinv1 : bfs_inv E K (succs E u) st1).
  { constructor; rewrite ?Hdq1; cbn [st1 q head deg layers nodeLayers];
      try assumption.
    - intros x Hx. unfold succs in Hx. apply in_map_iff in Hx.
      destruct Hx as (e & <- & He). apply filter_In in He.
      apply targets_in_K. tauto.
    - intros v Hv. rewrite <- remaining_dequeue by assumption. now apply Hdeg.
    - intros v Hv. rewrite <- remaining_dequeue by assumption. now apply Hqd. }
  assert (Hb1 : layer_bounds c st1).
  { split; rewrite ?Hdq1; cbn [st1 q nodeLayers].
    - apply Forall_app. split.
      + rewrite <- Hsplit in Hsorted.
        apply StronglySorted_before in Hsorted.
        unfold dequeued. now rewrite <- Hlu.
      + constructor; [lia | constructor].
    - rewrite <- Hlu. now apply Hnext. }
  destruct (visit_all_inv E K c (succs E u) st1 Hinv1 Hb1)
    as (st' & Hv & Hinv' & [Hdone' Hq'] & Hh' & [extra Hext] & Hl').
  exists st'. unfold dequeue. rewrite Hu, Hc, (adj_succs u (Hkeys u Huq)).
  fold st1. split; [assumption|]. split; [assumption|].
  split; [|exact Hh'].
  (* the next node to dequeue is at least at layer [c] *)
  intros u' Hu'. rewrite Hh' in Hu'. cbn [st1 head] in Hu'.
  assert (Hlu' : layerOf (nodeLayers st') u = c).
  { unfold layerOf. rewrite Hl' by assumption. cbn [st1 nodeLayers].
    now rewrite Hc. }
  assert (Hle : (c <= layerOf (nodeLayers st') u')%Z).
  { pose proof (firstn_skipn_middle _ _ Hu') as Hsplit'.
    pose proof (inv_sorted _ _ _ _ Hinv') as Hsorted'.
    rewrite <- Hsplit' in Hsorted'.
    apply StronglySorted_before in Hsorted'.
    rewrite Forall_forall in Hsorted'. rewrite <- Hlu'. apply Hsorted'.
    rewrite Hext. cbn [st1 q]. rewrite firstn_prefix by lia.
    rewrite Hsucc. apply in_or_app. right. now left. }
  eapply Forall_impl; [|exact Hq']. cbn beta. intros x Hx. lia.
Qed.

Lemma bfs_loop_inv fuel : forall st,
  bfs_inv E K [] st -> next_bound st ->
  (List.length K <= fuel + head st)%nat ->
  exists st', bfs_loop fuel adj st = Some st'
    /\ bfs_inv E K [] st' /\ head st' = List.length (q st').
Proof.
  induction fuel as [|fuel IH]; intros st Hinv Hnext Hfuel.
  - pose proof (NoDup_incl_length (inv_nodup _ _ _ _ Hinv)
                  (inv_keys _ _ _ _ Hinv)) as Hlen.
    pose proof (inv_head _ _ _ _ Hinv) as Hhead.
    exists st. cbn [bfs_loop].
    destruct (head st <? List.length (q st))%nat eqn:Elt.
    + apply Nat.ltb_lt in Elt. lia.
    + apply Nat.ltb_ge in Elt. split; [reflexivity|]. split; [assumption | lia].
  - cbn [bfs_loop].
    destruct (head st <? List.length (q st))%nat eqn:Elt.
    + apply Nat.ltb_lt in Elt.
      destruct (dequeue_inv st Hinv Hnext Elt)
        as (st1 & Hd & Hinv1 & Hnext1 & Hh1).
      rewrite Hd. apply IH; [assumption | assumption | lia].
    + apply Nat.ltb_ge in Elt. pose proof (inv_head _ _ _ _ Hinv) as Hhead.
      exists st. split; [reflexivity|]. split; [assumption | lia].
Qed.

End Loop.

(** *** The forward pass always ends *)

Lemma forward_pass_inv nodes edges nodesMap :
  let g := buildGraph nodes edges nodesMap in
  let E := kept_edges (map n_id nodes) edges in
  exists st, forward_pass g = Some st
    /\ bfs_inv E (keys (inDegree g)) [] st
    /\ head st = List.length (q st).
Proof.
  intros g E.
  pose proof (buildGraph_inv nodes edges nodesMap) as Hg.
  fold g E in Hg.
  destruct (seed_inv _ _ _ Hg) as [Hinv0 Hnext0].
  destruct Hg as (Hka & Hkd & Hadj & Hdeg & Hnd).
  unfold forward_pass.
  apply (bfs_loop_inv E (keys (inDegree g)) (adj g)); try assumption.
  - intros u Hu. apply Hadj. now apply Hkd.
  - intros e He. apply Hkd. apply kept_edges_incl in He. tauto.
  - destruct (seed_q (inDegree g) (mkState [] 0 (inDegree g) [] []))
      as (_ & Hh & _).
    rewrite Hh. cbn [head]. unfold keys. rewrite length_map. lia.
Qed.

(** [assignLayers] returns for every input. *)
Lemma assignLayers_total nodes edges nodesMap nodesMap' :
  exists ld, assignLayers (buildGraph nodes edges nodesMap) nodesMap' = Some ld.
Proof.
  destruct (forward_pass_inv nodes edges nodesMap) as (st & Hf & _).
  unfold assignLayers. rewrite Hf.
  destruct (fold_left place_leftover _ _). eauto.
Qed.

(** *** Acyclic graphs are exhausted by the forward pass *)

Section Acyclic.

Variable R : string -> string -> Prop.
Variable K : list string.
Variable Unreached : string -> Prop.

Hypothesis R_acyclic : forall u, ~ clos_trans string R u u.
Hypothesis Unreached_in_K : forall s, Unreached s -> In s K.
Hypothesis Unreached_pred : forall s, Unreached s -> exists p, Unreached p /\ R p s.

Lemma pred_chain k : forall seen s,
  Unreached s -> NoDup (s :: seen) ->
  (forall x, In x seen -> Unreached x /\ clos_trans string R s x) ->
  (List.length K < List.length (s :: seen) + k)%nat -> False.
Proof.
  induction k as [|k IH]; intros seen s Hs Hnd Hseen Hlen.
  - assert (Hincl : incl (s :: seen) K).
    { intros x [<- | Hx]; [auto | apply Unreached_in_K, Hseen, Hx]. }
    pose proof (NoDup_incl_length Hnd Hincl). lia.
  - destruct (Unreached_pred s Hs) as (p & Hp & Hps).
    apply (IH (s :: seen) p Hp).
    + constructor; [|assumption].
      intros [<- | Hin].
      * apply (R_acyclic s). now apply t_step.
      * apply (R_acyclic p). eapply t_trans; [apply t_step; eassumption|].
        now apply Hseen.
    + intros x [<- | Hx].
      * split; [assumption | now apply t_step].
      * split; [now apply Hseen|].
        eapply t_trans; [apply t_step; eassumption | now apply Hseen].
    + cbn [List.length] in *. lia.
Qed.

Lemma pred_closed_empty s : ~ Unreached s.
Proof.
  intro Hs. apply (pred_chain (S (List.length K)) [] s Hs).
  - repeat constructor. auto.
  - intros x [].
  - cbn [List.length]. lia.
Qed.

End Acyclic.

Lemma forward_pass_exhaustive nodes edges nodesMap st :
  acyclic edges ->
  forward_pass (buildGraph nodes edges nodesMap) = Some st ->
  forall v, In v (map n_id nodes) -> In v (q st).
Proof.
  intros Hacyc Hf v Hv.
  destruct (forward_pass_inv nodes edges nodesMap) as (st' & Hf' & Hinv & Hend).
  rewrite Hf in Hf'. inversion Hf'; subst st'. clear Hf'.
  pose proof (buildGraph_inv nodes edges nodesMap) as (_ & Hkd & _).
  set (g := buildGraph nodes edges nodesMap) in *.
  set (E := kept_edges (map n_id nodes) edges) in *.
  assert (Hdq : dequeued st = q st).
  { unfold dequeued. rewrite Hend. apply firstn_all. }
  destruct (in_dec string_dec v (q st)) as [Hin | Hnotin]; [assumption|].
  exfalso.
  apply (pred_closed_empty (edge_rel edges) (keys (inDegree g))
           (fun s => In s (keys (inDegree g)) /\ ~ In s (q st)))
    with (s := v).
  - exact Hacyc.
  - tauto.
  - intros s [HsK Hsq].
    assert (Hrem : remaining E (dequeued st) [] s <> 0%nat).
    { intro Hz. apply Hsq. now apply (inv_queued _ _ _ _ Hinv). }
    destruct (remaining_nonzero _ _ _ Hrem) as (e & He & Hto & Hfrom).
    rewrite Hdq in Hfrom. apply kept_edges_incl in He.
    exists (e_from e). split.
    + split; [apply Hkd; tauto | assumption].
    + exists e. tauto.
  - split; [now apply Hkd | assumption].
Qed.

(** *** The trailing pass *)

Lemma place_leftover_noop vals : forall layers nodeLayers,
  (forall n, In n vals -> has (id n) nodeLayers = true) ->
  fold_left place_leftover vals (layers, nodeLayers) = (layers, nodeLayers).
Proof.
  induction vals as [|n vals IH]; intros layers nodeLayers Hall;
    cbn [fold_left]; [reflexivity|].
  unfold place_leftover at 2. rewrite Hall by now left.
  apply IH. intros n' Hn'. apply Hall. now right.
Qed.

Lemma nodesMap_value_ids nodes n :
  In n (values (make_nodesMap nodes)) -> In (id n) (map n_id nodes).
Proof.
  intro Hin. unfold make_nodesMap in Hin. apply of_pairs_values in Hin.
  rewrite map_map in Hin. cbn [snd] in Hin.
  apply in_map_iff in Hin. destruct Hin as (n0 & <- & Hn0).
  cbn [id]. now apply in_map.
Qed.

(** *** Leftover nodes lie below the forward pass *)

Lemma fold_max_ge ks : forall k0 k,
  k = k0 \/ In k ks -> (k <= fold_left Z.max ks k0)%Z.
Proof.
  induction ks as [|k1 ks IH]; intros k0 k Hk; cbn [fold_left].
  - destruct Hk as [-> | []]. lia.
  - destruct Hk as [-> | [-> | Hk]].
    + etransitivity; [|apply IH; now left]. lia.
    + etransitivity; [|apply IH; now left]. lia.
    + apply IH. now right.
Qed.

Lemma maxExistingLayer_ge (layers : JSMap.t Z (list string)) k :
  In k (keys layers) -> (k <= maxExistingLayer layers)%Z.
Proof.
  unfold maxExistingLayer. destruct (keys layers) as [|k0 ks]; [intros []|].
  intros [<- | Hk]; apply fold_max_ge; auto.
Qed.

Lemma layer_push_keys l x (layers : JSMap.t Z (list string)) k :
  In k (keys layers) -> In k (keys (layer_push l x layers)).
Proof.
  intro Hk. unfold layer_push.
  destruct (get l (if has l layers then layers else set l [] layers));
    destruct (has l layers); repeat (apply in_keys_set; right); assumption.
Qed.

Lemma place_leftover_keeps vals : forall layers nodeLayers x l,
  get x nodeLayers = Some l ->
  get x (snd (fold_left place_leftover vals (layers, nodeLayers))) = Some l.
Proof.
  induction vals as [|n vals IH]; intros layers nodeLayers x l Hx;
    cbn [fold_left]; [exact Hx|].
  unfold place_leftover at 2. unfold has.
  destruct (get (id n) nodeLayers) eqn:En; [now apply IH|].
  apply IH. rewrite get_set_neq; [assumption | congruence].
Qed.

(** A node that receives its layer in the trailing pass lies strictly
    below every layer that existed before. *)
Lemma place_leftover_above vals : forall layers nodeLayers x l k,
  get x nodeLayers = None ->
  get x (snd (fold_left place_leftover vals (layers, nodeLayers))) = Some l ->
  In k (keys layers) -> (k < l)%Z.
Proof.
  induction vals as [|n vals IH]; intros layers nodeLayers x l k Hnone Hl Hk;
    cbn [fold_left] in Hl; [cbn in Hl; congruence|].
  unfold place_leftover at 2 in Hl. unfold has in Hl.
  destruct (get (id n) nodeLayers) eqn:En; [now apply (IH _ _ _ _ _ Hnone Hl)|].
  destruct (string_dec (id n) x) as [<- | Hne].
  - rewrite (place_leftover_keeps vals _ _ (id n)
               (maxExistingLayer layers + 1)%Z) in Hl
      by apply get_set_eq.
    inversion Hl; subst l. pose proof (maxExistingLayer_ge _ _ Hk). lia.
  - apply (IH _ _ x l k) in Hl; [assumption | |now apply layer_push_keys].
    now rewrite get_set_neq.
Qed.

Lemma leftover_below_forward_pass g nodesMap st ld x l k :
  forward_pass g = Some st ->
  assignLayers g nodesMap = Some ld ->
  get x (nodeLayers st) = None ->
  get x (ld_nodeLayers ld) = Some l ->
  In k (keys (layers st)) -> (k < l)%Z.
Proof.
  intros Hf Ha Hnone Hl Hk. unfold assignLayers in Ha. rewrite Hf in Ha.
  destruct (fold_left place_leftover (values nodesMap) (layers st, nodeLayers st))
    as [layers' nodeLayers'] eqn:Efold.
  inversion Ha; subst ld. cbn [ld_nodeLayers] in Hl.
  eapply place_leftover_above; [exact Hnone | | exact Hk].
  rewrite Efold. exact Hl.
Qed.

(** C1. For a flowchart whose edges all join existing nodes and whose
    edge relation is acyclic, the layering pass returns, and for every
    edge (u, v) the layer index assigned to u is strictly less than the
    one assigned to v; each node is listed in the layer of its index. *)
Theorem assignLayers_topological (nodes : list node) (edges : list edge) :
  (forall e, In e edges ->
     In (e_from e) (map n_id nodes) /\ In (e_to e) (map n_id nodes)) ->
  acyclic edges ->
  exists ld,
    assignLayers (buildGraph nodes edges (make_nodesMap nodes))
      (make_nodesMap nodes) = Some ld
    /\ layers_consistent (ld_layers ld) (ld_nodeLayers ld)
    /\ forall e, In e edges ->
         exists lu lv,
           get (e_from e) (ld_nodeLayers ld) = Some lu
           /\ get (e_to e) (ld_nodeLayers ld) = Some lv
           /\ (lu < lv)%Z.
Proof.
  intros Hvalid Hacyc.
  destruct (forward_pass_inv nodes edges (make_nodesMap nodes))
    as (st & Hf & Hinv & Hend).
  pose proof (forward_pass_exhaustive _ _ _ _ Hacyc Hf) as Hall.
  rewrite (kept_edges_all _ _ Hvalid) in Hinv.
  unfold assignLayers. rewrite Hf.
  rewrite place_leftover_noop.
  - eexists. split; [reflexivity|]. cbn [ld_layers ld_nodeLayers].
    split; [exact (inv_consistent _ _ _ _ Hinv)|].
    intros e He. destruct (Hvalid e He) as [Hfrom Hto].
    destruct (inv_edges _ _ _ _ Hinv e He (Hall _ Hto)) as [Hq Hlt].
    unfold layerOf in Hlt.
    destruct (get (e_from e) (nodeLayers st)) as [lu|] eqn:Eu;
      [|now apply (inv_layer _ _ _ _ Hinv) in Hq].
    destruct (get (e_to e) (nodeLayers st)) as [lv|] eqn:Ev;
      [|now apply (inv_layer _ _ _ _ Hinv) in Ev; [|apply Hall]].
    exists lu, lv. auto.
  - intros n Hn. apply nodesMap_value_ids in Hn. apply Hall in Hn.
    apply (inv_layer _ _ _ _ Hinv) in Hn. unfold has.
    now destruct (get (id n) (nodeLayers st)).
Qed.

End LayeringFacts.

(** ** Flowchart: examples *)

Module FlowchartExamples.
Import Flowchart Layering LayeringFacts.

(** A ranking that grows along every edge excludes cycles. *)
Lemma ranked_acyclic (edges : list edge) (rank : string -> nat) :
  (forall e, In e edges -> (rank (e_from e) < rank (e_to e))%nat) ->
  acyclic edges.
Proof.
  intros Hrank u Hcycle.
  assert (Hlt : forall a b, clos_trans string (edge_rel edges) a b ->
            (rank a < rank b)%nat).
  { intros a b Hab. induction Hab as [a b (e & He & <- & <-) | a b c _ IH1 _ IH2].
    - now apply Hrank.
    - lia. }
  specialize (Hlt u u Hcycle). lia.
Qed.

Lemma chain_acyclic : acyclic chain_edges.
Proof.
  apply (ranked_acyclic chain_edges chain_rank).
  intros e [<- | [<- | []]]; cbn; lia.
Qed.

Lemma assignLayers_topological_witness :
  exists ld,
    assignLayers (buildGraph abc_nodes chain_edges (make_nodesMap abc_nodes))
      (make_nodesMap abc_nodes) = Some ld
    /\ layers_consistent (ld_layers ld) (ld_nodeLayers ld)
    /\ forall e, In e chain_edges ->
         exists lu lv,
           get (e_from e) (ld_nodeLayers ld) = Some lu
           /\ get (e_to e) (ld_nodeLayers ld) = Some lv
           /\ (lu < lv)%Z.
Proof.
  apply (assignLayers_topological abc_nodes chain_edges).
  - intros e [<- | [<- | []]]; cbn; auto.
  - exact chain_acyclic.
Defined.

(** The chain A -> B -> C: each node alone in its layer 0, 1, 2. *)
Example chain_layers :
  assignLayers (buildGraph abc_nodes chain_edges (make_nodesMap abc_nodes))
    (make_nodesMap abc_nodes)
  = Some (mkLayers [(0%Z, ["A"]); (1%Z, ["B"]); (2%Z, ["C"])]
                   [("A", 0%Z); ("B", 1%Z); ("C", 2%Z)]).
Proof. reflexivity. Qed.

(** C2, on the code.  With the edges A -> B, B -> C, C -> B the forward
    pass reaches only A (layer 0); the two leftover nodes B and C are not
    appended to one trailing layer: B goes to layer 1 and C to layer 2,
    because the highest existing layer is computed again for each
    leftover node. *)
Theorem leftover_nodes_in_separate_layers :
  option_map q
    (forward_pass (buildGraph abc_nodes cycle_edges (make_nodesMap abc_nodes)))
  = Some ["A"]
  /\ assignLayers (buildGraph abc_nodes cycle_edges (make_nodesMap abc_nodes))
       (make_nodesMap abc_nodes)
     = Some (mkLayers [(0%Z, ["A"]); (1%Z, ["B"]); (2%Z, ["C"])]
                      [("A", 0%Z); ("B", 1%Z); ("C", 2%Z)]).
Proof. split; reflexivity. Qed.

End FlowchartExamples.

(** ** Degenerate and dangling inputs *)

Module RenderFacts.

Section Measure.

Variable getComputedTextLength : string -> Q -> string -> Q.
Variable localeCompare : string -> string -> Z.

(** A message whose participant has no slot stops the message loop with
    a [TypeError]. *)
Lemma draw_messages_unknown participantX messages : forall st,
  (exists msg, In msg messages
     /\ (get (Sequence.m_from msg) participantX = None
         \/ get (Sequence.m_to msg) participantX = None)) ->
  Sequence.draw_messages getComputedTextLength participantX st messages
  = inl "TypeError".
Proof.
  induction messages as [|m messages IH]; intros st (msg & Hin & Hmiss).
  - destruct Hin.
  - cbn [Sequence.draw_messages].
    destruct (Sequence.draw_message getComputedTextLength participantX st m)
      as [exn | st'] eqn:Hm.
    + unfold Sequence.draw_message in Hm.
      destruct (get (Sequence.m_from m) participantX); [|congruence].
      destruct (get (Sequence.m_to m) participantX); [|congruence].
      destruct (Qeq_bool _ 0 || Qeq_bool _ 0); discriminate.
    + destruct Hin as [<- | Hin].
      * unfold Sequence.draw_message in Hm.
        destruct Hmiss as [Hf | Ht].
        -- rewrite Hf in Hm. discriminate.
        -- rewrite Ht in Hm.
           destruct (get (Sequence.m_from m) participantX); discriminate.
      * apply IH. eauto.
Qed.

Lemma assign_slots_fold spacing participants : forall (m : JSMap.t string Q) x p,
  In p (keys (fst (fold_left
         (fun (st : JSMap.t string Q * Q) p =>
            let '(m, currentX) := st in
            (set p currentX m,
             currentX + (Sequence.PARTICIPANT_WIDTH + spacing)))
         participants (m, x))))
  <-> In p (keys m) \/ In p participants.
Proof.
  induction participants as [|p0 ps IH]; intros m x p; cbn [fold_left].
  - cbn. tauto.
  - rewrite IH, in_keys_set. cbn [In]. intuition congruence.
Qed.

Lemma assign_slots_keys spacing participants p :
  In p (keys (Sequence.assign_slots spacing participants))
  <-> In p participants.
Proof.
  unfold Sequence.assign_slots. rewrite assign_slots_fold. cbn. tauto.
Qed.

Lemma header_slots_defined (participantX : JSMap.t string Q) participants :
  (forall p, In p participants -> In p (keys participantX)) ->
  exists slots, Sequence.header_slots participantX participants = Some slots.
Proof.
  induction participants as [|p ps IH]; intro Hall; cbn [Sequence.header_slots].
  - eauto.
  - destruct (in_keys_get participantX p) as [x Hx];
      [apply Hall; now left|].
    destruct IH as [slots Hs]; [intros p' Hp'; apply Hall; now right|].
    rewrite Hx, Hs. eauto.
Qed.

(** With at least one participant, any message that names an unknown
    participant makes the whole layout raise. *)
Lemma renderSequence_unknown_participant participants messages msg :
  participants <> [] ->
  In msg messages ->
  ~ In (Sequence.m_from msg) participants
  \/ ~ In (Sequence.m_to msg) participants ->
  Sequence.renderSequence getComputedTextLength
    (Sequence.mkData (Some participants) (Some messages))
  = Throws "TypeError".
Proof.
  intros Hne Hin Hmiss. unfold Sequence.renderSequence.
  cbn [Sequence.d_participants Sequence.d_messages].
  destruct participants as [|p0 ps]; [congruence|].
  cbn [List.length Nat.eqb].
  set (participantX := Sequence.assign_slots _ (p0 :: ps)).
  destruct (header_slots_defined participantX (p0 :: ps)) as [slots Hs].
  { intros p Hp. now apply assign_slots_keys. }
  rewrite Hs. rewrite draw_messages_unknown; [reflexivity|].
  exists msg. split; [assumption|].
  destruct Hmiss as [Hf | Ht]; [left | right]; apply get_None_iff;
    unfold participantX; now rewrite assign_slots_keys.
Qed.

(** C4, on the code.  A sequence diagram with the participant Alice and
    one message from Alice to the unknown participant Bob: the layout
    raises a [TypeError] where the specification promises a skipped
    message and a diagnostic. *)
Theorem unknown_participant_raises :
  Sequence.renderSequence getComputedTextLength
    (Sequence.mkData (Some ["Alice"])
       (Some [Sequence.mkMessage "Alice" "Bob" "hello"]))
  = Throws "TypeError".
Proof. reflexivity. Qed.

(** C5, on the code.  With the collections present and empty, the
    sequence layout returns the default viewport 0 0 100 100, and the
    flowchart and ERD layouts return success with the viewport
    Infinity Infinity -Infinity -Infinity. *)
Theorem empty_input_viewports :
  Sequence.renderSequence getComputedTextLength
    (Sequence.mkData (Some []) (Some []))
  = Success (mkScene [] [] [] [])
      (mkViewBox (Num 0) (Num 0) (Num 100) (Num 100))
  /\ Flowchart.renderFlowchart getComputedTextLength
       (Flowchart.mkData (Some []) (Some []))
     = Success (mkScene [] [] [] []) (mkViewBox PosInf PosInf NegInf NegInf)
  /\ fst (ERD.renderERD getComputedTextLength localeCompare
            (ERD.mkData (Some []) (Some [])))
     = Success (mkScene [] [] [] []) (mkViewBox PosInf PosInf NegInf NegInf)
  /\ is_finite PosInf = false /\ is_finite NegInf = false.
Proof. repeat split. Qed.

(** Every entity object of the caller carries the two computed sizes
    when [renderERD] returns. *)
Lemma renderERD_writes_sizes entities relationships :
  exists entities',
    ERD.d_entities
      (snd (ERD.renderERD getComputedTextLength localeCompare
              (ERD.mkData (Some entities) (Some relationships))))
    = Some entities'
    /\ Forall (fun e => ERD.e_calculatedWidth e <> None
                        /\ ERD.e_calculatedHeight e <> None) entities'.
Proof.
  eexists. split; [reflexivity|].
  apply Forall_forall. intros e He. rewrite map_map in He.
  apply in_map_iff in He. destruct He as (e0 & <- & _).
  cbn. split; discriminate.
Qed.

End Measure.

(** C8, on the code.  [renderERD] on one entity object without computed
    fields: when the call returns, the caller's object carries
    [calculatedWidth] and [calculatedHeight]. *)
Theorem renderERD_mutates_input_entity :
  snd (ERD.renderERD approximateTextLength ERD.codeUnitCompare
         (ERD.mkData (Some [ERD.mkEntity "User" [] None None]) (Some [])))
  = ERD.mkData (Some [ERD.mkEntity "User" [] (Some 150) (Some 50)]) (Some []).
Proof. reflexivity. Qed.

End RenderFacts.

(** * Further properties of the layouts *)

From Stdlib Require Import Lqa.

(** ** Text wrapping is greedy *)

Lemma first_word_glue (a b : string) :
  first_word (a ++ " " ++ b) = first_word a.
Proof.
  unfold first_word. induction a as [|c a IH]; cbn [append split_space].
  - reflexivity.
  - destruct (Ascii.eqb c space); [reflexivity|].
    pose proof (split_space_not_nil (a ++ " " ++ b)) as Hne.
    pose proof (split_space_not_nil a) as Hne'.
    cbn [append] in *.
    destruct (split_space (a ++ String " " b)) as [|w ws]; [congruence|].
    destruct (split_space a) as [|w' ws']; [congruence|].
    cbn [hd] in *. now rewrite IH.
Qed.

Lemma first_word_word (w : string) : no_space w -> first_word w = w.
Proof.
  unfold first_word. induction w as [|c w IH]; cbn [split_space no_space].
  - reflexivity.
  - intros [Hc Hw]. apply Ascii.eqb_neq in Hc. rewrite Hc.
    specialize (IH Hw). pose proof (split_space_not_nil w) as Hne.
    destruct (split_space w) as [|w' ws]; [congruence|].
    cbn [hd] in *. now rewrite IH.
Qed.

Lemma snoc_adjacent {A} (l : list A) c pre a b post :
  l ++ [c] = pre ++ a :: b :: post ->
  (post = [] /\ b = c /\ l = pre ++ [a])
  \/ (exists post', post = post' ++ [c] /\ l = pre ++ a :: b :: post').
Proof.
  destruct (exists_last (l := a :: b :: post)) as (l' & z & Hl');
    [discriminate|].
  intro Heq. rewrite Hl', app_assoc in Heq.
  apply app_inj_tail in Heq. destruct Heq as [-> <-].
  destruct post as [|p post] using rev_ind.
  - left. change [a; b] with ([a] ++ [b]) in Hl'.
    apply app_inj_tail in Hl'. destruct Hl' as [<- <-].
    repeat split; reflexivity.
  - right. exists post.
    change (a :: b :: post ++ [p]) with ((a :: b :: post) ++ [p]) in Hl'.
    apply app_inj_tail in Hl'. destruct Hl' as [<- <-].
    split; reflexivity.
Qed.

Section Greedy.

Variable getComputedTextLength : string -> Q -> string -> Q.
Variables (maxWidth fontSize : Q) (fontFamily : string).

Let measure (line : string) : Q :=
  measureText getComputedTextLength line fontSize fontFamily.

(** Every break between two lines was needed. *)
Let breaks_needed (lines : list string) : Prop :=
  forall pre l1 l2 post,
    lines = pre ++ l1 :: l2 :: post ->
    (maxWidth < measure (l1 ++ " " ++ first_word l2))%Q.

Lemma wrap_loop_greedy words : forall lines currentLine lines' currentLine',
  wrap_loop getComputedTextLength maxWidth fontSize fontFamily
    words lines currentLine = (lines', currentLine') ->
  Forall no_space words ->
  breaks_needed (lines ++ [currentLine]) ->
  breaks_needed (lines' ++ [currentLine'])
  /\ (List.length lines' <= List.length lines + List.length words)%nat.
Proof.
  induction words as [|word rest IH]; intros lines cur lines' cur' Hloop Hws Hb;
    cbn [wrap_loop] in Hloop.
  - inversion Hloop; subst. split; [exact Hb | cbn; lia].
  - inversion Hws as [|? ? Hw Hrest]; subst.
    destruct (Qle_bool _ maxWidth) eqn:Efit.
    + destruct (IH _ _ _ _ Hloop Hrest) as [Hb' Hlen]; [|split; [exact Hb'|cbn; lia]].
      intros pre l1 l2 post Heq.
      destruct (snoc_adjacent _ _ _ _ _ _ Heq)
        as [(-> & -> & ->) | (post' & -> & ->)].
      * rewrite first_word_glue.
        apply (Hb pre l1 cur []). now rewrite <- app_assoc.
      * apply (Hb pre l1 l2 (post' ++ [cur])).
        now rewrite <- app_assoc.
    + destruct (IH _ _ _ _ Hloop Hrest) as [Hb' Hlen];
        [|split; [exact Hb'|rewrite length_app in Hlen; cbn in *; lia]].
      intros pre l1 l2 post Heq.
      destruct (snoc_adjacent _ _ _ _ _ _ Heq)
        as [(-> & -> & Hl) | (post' & -> & Hl)].
      * apply app_inj_tail in Hl. destruct Hl as [_ <-].
        rewrite (first_word_word _ Hw).
        apply Qnot_le_lt. intro Hle. apply Qle_bool_iff in Hle.
        unfold measure in Hle. cbn [append] in Hle, Efit. congruence.
      * apply (Hb pre l1 l2 post'). exact Hl.
Qed.

(** X21. [wrapText] is greedy.  It returns at least one line and at most as
    many lines as the text has words, and it breaks a line only when the
    next word did not fit: for two consecutive lines, the first one
    followed by a space and the first word of the second one is wider
    than [maxWidth]. *)
Theorem wrapText_breaks_only_when_needed (text : string) :
  let lines :=
    wrapText getComputedTextLength text maxWidth fontSize fontFamily in
  lines <> []
  /\ (List.length lines <= List.length (split_space text))%nat
  /\ forall pre l1 l2 post,
       lines = pre ++ l1 :: l2 :: post ->
       (maxWidth
        < measureText getComputedTextLength (l1 ++ " " ++ first_word l2)
            fontSize fontFamily)%Q.
Proof.
  cbv zeta. unfold wrapText.
  pose proof (split_space_not_nil text) as Hne.
  pose proof (split_space_no_space text) as Hns.
  destruct (Qle_bool _ maxWidth) eqn:Efit.
  - split; [discriminate|]. split.
    + destruct (split_space text); [congruence | cbn; lia].
    + intros pre l1 l2 post Heq. apply (f_equal (@List.length string)) in Heq.
      rewrite !length_app in Heq. cbn in Heq. lia.
  - destruct (split_space text) as [|w0 rest]; [congruence|].
    destruct (wrap_loop _ _ _ _ rest [] w0) as [lines cur] eqn:Hloop.
    inversion Hns; subst.
    destruct (wrap_loop_greedy rest [] w0 lines cur Hloop) as [Hb Hlen];
      [assumption| |].
    + intros pre l1 l2 post Heq. apply (f_equal (@List.length string)) in Heq.
      rewrite !length_app in Heq. cbn in Heq. lia.
    + split; [intro Hnil; now apply app_eq_nil in Hnil as [_ ?]|].
      split; [rewrite length_app; cbn in *; lia | exact Hb].
Qed.

End Greedy.

(** ** Editor positions *)

Module EditorFacts.
Import Editor.

Lemma split_newline_not_nil s : split_newline s <> [].
Proof.
  destruct s as [|c s]; cbn; [discriminate|].
  destruct (Ascii.eqb c newline); [discriminate|].
  destruct (split_newline s); discriminate.
Qed.

Lemma clamp_index_le index len : (clamp_index index len <= len)%nat.
Proof. destruct index; cbn; lia. Qed.

(** The position computed for the first [n] characters is a position of
    the text, [n] characters from its start. *)
Lemma prefix_position text : forall n,
  (n <= String.length text)%nat ->
  let lines := split_newline (substring 0 n text) in
  exists l,
    nth_error (split_newline text) (List.length lines - 1) = Some l
    /\ substring 0 (String.length (last lines EmptyString)) l
       = last lines EmptyString
    /\ (line_start (split_newline text) (List.length lines - 1)
        + String.length (last lines EmptyString) = n)%nat.
Proof.
  induction text as [|c s IH]; intros n Hn; cbv zeta.
  - cbn in Hn. assert (n = 0%nat) by lia. subst n. cbn.
    exists EmptyString. auto.
  - destruct n as [|n'].
    + pose proof (split_newline_not_nil (String c s)) as Hne.
      destruct (split_newline (String c s)) as [|l0 ls]; [congruence|].
      exists l0. cbn. destruct l0; auto.
    + cbn [substring]. cbn [String.length] in Hn.
      specialize (IH n' ltac:(lia)). cbv zeta in IH.
      destruct IH as (l & Hnth & Hpre & Hsum).
      pose proof (split_newline_not_nil (substring 0 n' s)) as Hne'.
      pose proof (split_newline_not_nil s) as Hne.
      cbn [split_newline].
      destruct (Ascii.eqb c newline).
      * destruct (split_newline (substring 0 n' s)) as [|w' ws'];
          [congruence|].
        exists l. cbn [List.length Nat.sub] in *.
        rewrite Nat.sub_0_r in *.
        change (last (EmptyString :: w' :: ws') EmptyString)
          with (last (w' :: ws') EmptyString).
        split; [exact Hnth|]. split; [exact Hpre|].
        unfold line_start, list_sum in *.
        cbn [firstn map fold_right String.length]. lia.
      * destruct (split_newline (substring 0 n' s)) as [|w' ws'];
          [congruence|].
        destruct (split_newline s) as [|w ws]; [congruence|].
        cbn [List.length Nat.sub] in *. rewrite Nat.sub_0_r in *.
        destruct ws' as [|w'' ws''].
        -- cbn [List.length nth_error last String.length] in *.
           injection Hnth as <-. exists (String c w).
           split; [reflexivity|]. split.
           ++ cbn [substring]. now rewrite Hpre.
           ++ unfold line_start in *. cbn in *. lia.
        -- change (last (String c w' :: w'' :: ws'') EmptyString)
             with (last (w' :: w'' :: ws'') EmptyString).
           cbn [List.length nth_error] in *. exists l.
           split; [exact Hnth|]. split; [exact Hpre|].
           unfold line_start, list_sum in *.
           cbn [firstn map fold_right String.length] in *. lia.
Qed.

(** X22. The position [getLineColFromCharIndex] returns is the position
    of the character index in the text: the line exists, the column is
    within it, and the start of that line plus the column is the index
    (truncated and clamped to the text). *)
Theorem getLineColFromCharIndex_locates_index (text : string)
    (index : jsnum) :
  let pos := getLineColFromCharIndex text index in
  exists l,
    nth_error (split_newline text) (line pos) = Some l
    /\ (column pos <= String.length l)%nat
    /\ (line_start (split_newline text) (line pos) + column pos
        = clamp_index index (String.length text))%nat.
Proof.
  cbv zeta. unfold getLineColFromCharIndex. cbn [line column].
  destruct (prefix_position text (clamp_index index (String.length text))
              (clamp_index_le _ _)) as (l & Hnth & Hpre & Hsum).
  exists l. split; [exact Hnth|]. split; [|exact Hsum].
  rewrite <- Hpre at 1. clear.
  generalize (String.length
    (last (split_newline
       (substring 0 (clamp_index index (String.length text)) text))
       EmptyString)).
  induction l as [|c l IH]; intros [|n]; cbn; try lia.
  specialize (IH n). lia.
Qed.

End EditorFacts.

(** ** Flowchart: more on the layering pass *)

Module LayeringMore.
Import Flowchart Layering LayeringExtra LayeringFacts.

(** *** Properties kept by the [while] loop *)

Section LoopProperty.

Variables (E : list edge) (K : list string).
Variable adj : JSMap.t string (list string).

Hypothesis adj_succs : forall u, In u K -> get u adj = Some (succs E u).
Hypothesis targets_in_K : forall e, In e E -> In (e_to e) K.

(** A property of the loop state that does not depend on [head] and is
    kept by every visit of a successor [v] of a dequeued node [u]. *)
Variable P : bfs_state -> Prop.

Hypothesis P_head : forall st h,
  P st -> P (mkState (q st) h (deg st) (layers st) (nodeLayers st)).

Hypothesis P_visit : forall c u v todo st st',
  bfs_inv E K (v :: todo) st -> layer_bounds c st ->
  In u (dequeued st) -> get u (nodeLayers st) = Some c ->
  (exists e, In e E /\ e_from e = u /\ e_to e = v) ->
  P st -> visit c st v = Some st' -> P st'.

Lemma visit_all_keeps c u todo : forall st st',
  bfs_inv E K todo st -> layer_bounds c st ->
  In u (dequeued st) -> get u (nodeLayers st) = Some c ->
  (forall v, In v todo -> exists e, In e E /\ e_from e = u /\ e_to e = v) ->
  P st -> visit_all c todo st = Some st' -> P st'.
Proof.
  induction todo as [|v todo IH]; intros st st' Hinv Hb Hu Hc Hedge HP Hall.
  - cbn in Hall. now inversion Hall; subst.
  - cbn [visit_all] in Hall.
    destruct (visit_inv _ _ _ _ _ _ Hinv Hb)
      as (st1 & Hv & Hinv1 & Hb1 & Hh1 & [extra Hq1] & Hl1).
    rewrite Hv in Hall.
    assert (Huq : In u (q st)).
    { unfold dequeued in Hu. rewrite <- (firstn_skipn (head st) (q st)).
      apply in_or_app. now left. }
    apply (IH st1 st'); try assumption.
    + unfold dequeued in *. rewrite Hh1, Hq1.
      rewrite firstn_prefix by apply (inv_head _ _ _ _ Hinv). exact Hu.
    + now rewrite Hl1.
    + intros v' Hv'. apply Hedge. now right.
    + apply (P_visit c u v todo st st1); try assumption.
      apply Hedge. now left.
Qed.

(** The state in which the successors of [u = q[head]] are visited. *)
Lemma dequeue_start st u c :
  bfs_inv E K [] st -> next_bound st ->
  nth_error (q st) (head st) = Some u ->
  get u (nodeLayers st) = Some c ->
  let st1 := mkState (q st) (S (head st)) (deg st) (layers st) (nodeLayers st) in
  bfs_inv E K (succs E u) st1 /\ layer_bounds c st1 /\ In u (dequeued st1).
Proof.
  intros Hinv Hnext Hu Hc st1.
  pose proof (nth_error_In _ _ Hu) as Huq.
  pose proof (firstn_skipn_middle _ _ Hu) as Hsplit.
  pose proof (firstn_succ_nth _ _ _ Hu) as Hsucc.
  assert (Hlt : (head st < List.length (q st))%nat)
    by (apply nth_error_Some; congruence).
  destruct Hinv as [Hhead Hnd Hkeys Htodo Hdeg Hqd Hlayer Hsorted Hedges Hcons].
  assert (Hlu : layerOf (nodeLayers st) u = c) by (unfold layerOf; now rewrite Hc).
  assert (Hnotdone : ~ In u (dequeued st)).
  { unfold dequeued. rewrite <- Hsplit in Hnd.
    apply NoDup_remove_2 in Hnd. intro Hin. apply Hnd.
    apply in_or_app. now left. }
  assert (Hdq1 : dequeued st1 = dequeued st ++ [u]) by exact Hsucc.
  split; [|split].
  - constructor; rewrite ?Hdq1; cbn [st1 q head deg layers nodeLayers];
      try assumption.
    + intros x Hx. unfold succs in Hx. apply in_map_iff in Hx.
      destruct Hx as (e & <- & He). apply filter_In in He.
      apply targets_in_K. tauto.
    + intros v Hv. rewrite <- remaining_dequeue by assumption. now apply Hdeg.
    + intros v Hv. rewrite <- remaining_dequeue by assumption. now apply Hqd.
  - split; rewrite ?Hdq1; cbn [st1 q nodeLayers].
    + apply Forall_app. split.
      * rewrite <- Hsplit in Hsorted.
        apply StronglySorted_before in Hsorted.
        unfold dequeued. now rewrite <- Hlu.
      * constructor; [lia | constructor].
    + rewrite <- Hlu. now apply Hnext.
  - rewrite Hdq1. apply in_or_app. right. now left.
Qed.

Lemma dequeue_keeps st st' :
  bfs_inv E K [] st -> next_bound st ->
  P st -> dequeue adj st = Some st' -> P st'.
Proof.
  intros Hinv Hnext HP Hd. unfold dequeue in Hd.
  destruct (nth_error (q st) (head st)) as [u|] eqn:Hu; [|discriminate].
  destruct (get u (nodeLayers st)) as [c|] eqn:Hc; [|discriminate].
  pose proof (nth_error_In _ _ Hu) as Huq.
  rewrite (adj_succs u (inv_keys _ _ _ _ Hinv u Huq)) in Hd.
  destruct (dequeue_start st u c Hinv Hnext Hu Hc) as (Hinv1 & Hb1 & Hu1).
  apply (visit_all_keeps c u (succs E u) _ st' Hinv1 Hb1 Hu1); try assumption.
  - intros v Hv. unfold succs in Hv. apply in_map_iff in Hv.
    destruct Hv as (e & Hto & He). apply filter_In in He.
    destruct He as [He Hfrom]. apply String.eqb_eq in Hfrom. eauto.
  - now apply P_head.
Qed.

Lemma bfs_loop_keeps fuel : forall st st',
  bfs_inv E K [] st -> next_bound st ->
  P st -> bfs_loop fuel adj st = Some st' -> P st'.
Proof.
  induction fuel as [|fuel IH]; intros st st' Hinv Hnext HP Hloop;
    cbn [bfs_loop] in Hloop;
    destruct (head st <? List.length (q st))%nat eqn:Elt;
    try discriminate; try (now inversion Hloop; subst).
  apply Nat.ltb_lt in Elt.
  destruct (dequeue_inv E K adj adj_succs targets_in_K st Hinv Hnext Elt)
    as (st1 & Hd & Hinv1 & Hnext1 & _).
  rewrite Hd in Hloop.
  apply (IH st1 st'); try assumption.
  now apply (dequeue_keeps st st1).
Qed.

End LoopProperty.

(** A property of the seeded state that the visits keep holds when the
    forward pass ends. *)
Lemma forward_pass_keeps nodes edges nodesMap (P : bfs_state -> Prop) st :
  let g := buildGraph nodes edges nodesMap in
  let E := kept_edges (map n_id nodes) edges in
  (forall st h,
     P st -> P (mkState (q st) h (deg st) (layers st) (nodeLayers st))) ->
  (forall c u v todo st st',
     bfs_inv E (keys (inDegree g)) (v :: todo) st -> layer_bounds c st ->
     In u (dequeued st) -> get u (nodeLayers st) = Some c ->
     (exists e, In e E /\ e_from e = u /\ e_to e = v) ->
     P st -> visit c st v = Some st' -> P st') ->
  P (fold_left seed_source (inDegree g) (mkState [] 0 (inDegree g) [] [])) ->
  forward_pass g = Some st -> P st.
Proof.
  intros g E Phead Pvisit P0 Hf.
  pose proof (buildGraph_inv nodes edges nodesMap) as Hg.
  fold g E in Hg.
  destruct (seed_inv _ _ _ Hg) as [Hinv0 Hnext0].
  destruct Hg as (Hka & Hkd & Hadj & Hdeg & Hnd).
  unfold forward_pass in Hf.
  eapply (bfs_loop_keeps E (keys (inDegree g)) (adj g)); eauto.
  - intros u Hu. apply Hadj. now apply Hkd.
  - intros e He. apply Hkd. apply kept_edges_incl in He. tauto.
Qed.

(** What one visit changes: nothing but the in-degree, or [v] enters the
    queue one layer below the dequeued node. *)
Lemma visit_cases E K c todo st v st' :
  bfs_inv E K (v :: todo) st ->
  visit c st v = Some st' ->
  (q st' = q st /\ layers st' = layers st /\ nodeLayers st' = nodeLayers st)
  \/ (q st' = q st ++ [v]
      /\ layers st' = layer_push (c + 1) v (layers st)
      /\ nodeLayers st' = set v (c + 1)%Z (nodeLayers st)
      /\ ~ In v (q st) /\ get v (nodeLayers st) = None).
Proof.
  intros Hinv Hv.
  assert (HvK : In v K) by (apply (inv_todo _ _ _ _ Hinv); now left).
  assert (Hvq : ~ In v (q st)).
  { intro Hin. apply (inv_queued _ _ _ _ Hinv v HvK) in Hin.
    rewrite remaining_cons_eq in Hin. discriminate. }
  assert (Hvl : get v (nodeLayers st) = None).
  { destruct (get v (nodeLayers st)) eqn:Eg; [|reflexivity].
    exfalso. apply Hvq, (inv_layer _ _ _ _ Hinv). congruence. }
  unfold visit in Hv. destruct (get v (deg st)) as [d|]; [|discriminate].
  destruct (d - 1 =? 0)%Z; inversion Hv; subst st'; cbn; auto 10.
Qed.

Lemma layer_push_keys_inv l x (layers : JSMap.t Z (list string)) k :
  In k (keys (layer_push l x layers)) -> k = l \/ In k (keys layers).
Proof.
  unfold layer_push.
  destruct (get l (if has l layers then layers else set l [] layers));
    destruct (has l layers); intro Hk;
    repeat (apply in_keys_set in Hk; destruct Hk as [Hk | Hk]); auto.
Qed.

(** *** Layer indices are never negative *)

Lemma seed_nonneg l : forall st,
  (forall x c, get x (nodeLayers st) = Some c -> (0 <= c)%Z) ->
  (forall k, In k (keys (layers st)) -> (0 <= k)%Z) ->
  let st' := fold_left seed_source l st in
  (forall x c, get x (nodeLayers st') = Some c -> (0 <= c)%Z)
  /\ (forall k, In k (keys (layers st')) -> (0 <= k)%Z).
Proof.
  induction l as [|[k d] l IH]; intros st Hn Hk; cbn [fold_left]; [auto|].
  apply IH; unfold seed_source; destruct (d =? 0)%Z;
    cbn [nodeLayers layers]; try assumption.
  - intros x c. destruct (string_dec k x) as [<- | Hne].
    + rewrite get_set_eq. intros [= <-]. lia.
    + rewrite get_set_neq by assumption. apply Hn.
  - intros k' Hk'. apply layer_push_keys_inv in Hk'.
    destruct Hk' as [-> | Hk']; [lia | auto].
Qed.

Lemma maxExistingLayer_lower (layers : JSMap.t Z (list string)) :
  (forall k, In k (keys layers) -> (0 <= k)%Z) ->
  (-1 <= maxExistingLayer layers)%Z.
Proof.
  intro Hk. unfold maxExistingLayer.
  destruct (keys layers) as [|k0 ks] eqn:Ek; [lia|].
  assert (H0 : (0 <= k0)%Z) by (apply Hk; now left).
  pose proof (fold_max_ge ks k0 k0 (or_introl eq_refl)). lia.
Qed.

Lemma place_leftover_nonneg vals : forall layers nodeLayers,
  (forall x c, get x nodeLayers = Some c -> (0 <= c)%Z) ->
  (forall k, In k (keys layers) -> (0 <= k)%Z) ->
  forall x c,
    get x (snd (fold_left place_leftover vals (layers, nodeLayers))) = Some c ->
    (0 <= c)%Z.
Proof.
  induction vals as [|n vals IH]; intros layers nodeLayers Hn Hk x c;
    cbn [fold_left]; [apply Hn|].
  unfold place_leftover at 2. destruct (has (id n) nodeLayers); [now apply IH|].
  pose proof (maxExistingLayer_lower _ Hk) as Hmax.
  apply IH.
  - intros x' c'. destruct (string_dec (id n) x') as [<- | Hne].
    + rewrite get_set_eq. intros [= <-]. lia.
    + rewrite get_set_neq by assumption. apply Hn.
  - intros k' Hk'. apply layer_push_keys_inv in Hk'.
    destruct Hk' as [-> | Hk']; [lia | auto].
Qed.

Lemma forward_pass_nonneg nodes edges nodesMap st :
  forward_pass (buildGraph nodes edges nodesMap) = Some st ->
  (forall x c, get x (nodeLayers st) = Some c -> (0 <= c)%Z)
  /\ (forall k, In k (keys (layers st)) -> (0 <= k)%Z).
Proof.
  apply (forward_pass_keeps nodes edges nodesMap
           (fun st =>
              (forall x c, get x (nodeLayers st) = Some c -> (0 <= c)%Z)
              /\ (forall k, In k (keys (layers st)) -> (0 <= k)%Z))).
  - intros st0 h H. exact H.
  - intros c u v todo st0 st' Hinv _ _ Hc _ [Hn Hk] Hv.
    assert (Hc0 : (0 <= c)%Z) by eauto.
    destruct (visit_cases _ _ _ _ _ _ _ Hinv Hv)
      as [(_ & -> & ->) | (_ & -> & -> & _ & _)]; [auto|].
    split.
    + intros x c'. destruct (string_dec v x) as [<- | Hne].
      * rewrite get_set_eq. intros [= <-]. lia.
      * rewrite get_set_neq by assumption. apply Hn.
    + intros k Hk'. apply layer_push_keys_inv in Hk'.
      destruct Hk' as [-> | Hk']; [lia | auto].
  - apply seed_nonneg; cbn; [discriminate | tauto].
Qed.

(** *** Every node gets one layer *)

Lemma place_leftover_consistent vals : forall layers nodeLayers,
  layers_consistent layers nodeLayers ->
  layers_consistent
    (fst (fold_left place_leftover vals (layers, nodeLayers)))
    (snd (fold_left place_leftover vals (layers, nodeLayers))).
Proof.
  induction vals as [|n vals IH]; intros layers nodeLayers Hc;
    cbn [fold_left]; [exact Hc|].
  unfold place_leftover at 2 4. unfold has.
  destruct (get (id n) nodeLayers) eqn:En; [now apply IH|].
  apply IH. now apply assign_consistent.
Qed.

Lemma place_leftover_assigns vals : forall layers nodeLayers n,
  In n vals ->
  get (id n) (snd (fold_left place_leftover vals (layers, nodeLayers))) <> None.
Proof.
  induction vals as [|n0 vals IH]; intros layers nodeLayers n Hn;
    [destruct Hn|]. cbn [fold_left]. destruct Hn as [-> | Hn].
  - unfold place_leftover at 2. unfold has.
    destruct (get (id n) nodeLayers) as [l|] eqn:En.
    + rewrite (place_leftover_keeps vals _ _ _ l En). discriminate.
    + rewrite (place_leftover_keeps vals _ _ (id n)
                 (maxExistingLayer layers + 1)%Z) by apply get_set_eq.
      discriminate.
  - unfold place_leftover at 2. destruct (has (id n0) nodeLayers); now apply IH.
Qed.

Lemma place_leftover_domain vals : forall layers nodeLayers x,
  get x (snd (fold_left place_leftover vals (layers, nodeLayers))) <> None ->
  get x nodeLayers <> None \/ In x (map id vals).
Proof.
  induction vals as [|n vals IH]; intros layers nodeLayers x;
    cbn [fold_left]; [cbn; auto|].
  unfold place_leftover at 2. destruct (has (id n) nodeLayers).
  - intro Hx. destruct (IH _ _ _ Hx); [auto | right; now right].
  - intro Hx. destruct (IH _ _ _ Hx) as [Hs | Hin]; [|right; now right].
    destruct (string_dec (id n) x) as [<- | Hne]; [right; now left|].
    rewrite get_set_neq in Hs by assumption. auto.
Qed.

(** The fresh records of [nodesMap] carry their key as [id], and every
    node id is a key. *)
Lemma set_entries {V} (m : JSMap.t string V) k v p :
  In p (set k v m) -> p = (k, v) \/ In p m.
Proof.
  induction m as [|[k1 v1] m IH]; cbn.
  - intros [<- | []]. now left.
  - destruct (String.eqb k k1) eqn:Ek.
    + apply String.eqb_eq in Ek. subst k1.
      intros [<- | Hin]; [now left | right; now right].
    + intros [<- | Hin]; [right; now left|].
      destruct (IH Hin); [now left | right; now right].
Qed.

Lemma of_pairs_entries {V} (ps : list (string * V)) p :
  In p (of_pairs ps) -> In p ps.
Proof.
  unfold of_pairs.
  assert (Hgen : forall (l : list (string * V)) m,
            In p (fold_left (fun m p => set (fst p) (snd p) m) l m) ->
            In p m \/ In p l).
  { induction l as [|p0 l IH]; intros m; cbn [fold_left]; [auto|].
    intro Hin. destruct (IH _ Hin) as [Hs | Hl]; [|right; now right].
    destruct (set_entries _ _ _ _ Hs) as [-> | Hm]; [|now left].
    right. left. now destruct p0. }
  intro Hin. destruct (Hgen _ _ Hin) as [[] | Hl]. exact Hl.
Qed.

Lemma get_entry {K V} `{KeyEq K} (m : JSMap.t K V) k v :
  get k m = Some v -> In (k, v) m.
Proof.
  induction m as [|[k1 v1] m IH]; cbn; [discriminate|].
  destruct (keq k k1) eqn:Ek.
  - apply keq_spec in Ek. subst k1. intros [= <-]. now left.
  - intro Hg. right. now apply IH.
Qed.

Lemma nodesMap_entry_id nodes k n :
  get k (make_nodesMap nodes) = Some n -> id n = k.
Proof.
  intro Hg. apply get_entry in Hg. unfold make_nodesMap in Hg.
  apply of_pairs_entries in Hg. apply in_map_iff in Hg.
  destruct Hg as (n0 & Heq & _). inversion Heq; subst. reflexivity.
Qed.

Lemma nodesMap_keys nodes k :
  In k (keys (make_nodesMap nodes)) <-> In k (map n_id nodes).
Proof.
  unfold make_nodesMap. rewrite of_pairs_keys, map_map. reflexivity.
Qed.

Lemma nodesMap_values_cover nodes k :
  In k (map n_id nodes) ->
  exists n, In n (values (make_nodesMap nodes)) /\ id n = k.
Proof.
  intro Hk. apply nodesMap_keys in Hk.
  destruct (in_keys_get _ _ Hk) as [n Hn].
  exists n. split; [|now apply nodesMap_entry_id in Hn].
  apply get_entry in Hn. unfold values. now apply (in_map snd) in Hn.
Qed.

(** *** Sources are at layer 0, other reached nodes one below a predecessor *)

Lemma remaining_le_indeg E done v :
  (remaining E done [] v <= indeg E v)%nat.
Proof.
  unfold remaining, indeg. cbn [count_occ Nat.add].
  induction E as [|e E IH]; cbn [filter]; [lia|].
  destruct (String.eqb (e_to e) v); cbn [andb];
    [destruct (negb (mem (e_from e) done))|]; cbn [List.length]; lia.
Qed.

Lemma forward_pass_tight nodes edges nodesMap st :
  forward_pass (buildGraph nodes edges nodesMap) = Some st ->
  tight_layers (kept_edges (map n_id nodes) edges) st.
Proof.
  set (E := kept_edges (map n_id nodes) edges).
  apply (forward_pass_keeps nodes edges nodesMap (tight_layers E)).
  - intros st0 h H. exact H.
  - intros c u v todo st0 st' Hinv _ Hu Hc (e & He & Hfrom & Hto) HP Hv.
    assert (Huq : In u (q st0)).
    { unfold dequeued in Hu. rewrite <- (firstn_skipn (head st0) (q st0)).
      apply in_or_app. now left. }
    unfold tight_layers in *.
    destruct (visit_cases _ _ _ _ _ _ _ Hinv Hv)
      as [(-> & _ & ->) | (-> & _ & -> & Hvq & Hvl)]; [exact HP|].
    intros x Hx. apply in_app_or in Hx. destruct Hx as [Hx | [<- | []]].
    + destruct (HP x Hx) as [H0 Hpos].
      assert (Hxv : v <> x) by congruence.
      split; intro Hd.
      * rewrite get_set_neq by assumption. auto.
      * destruct (Hpos Hd) as (e' & c' & He' & Hto' & Hq' & Hl' & Hlx).
        exists e', c'. repeat split; try assumption.
        -- apply in_or_app. now left.
        -- rewrite get_set_neq; [assumption | congruence].
        -- now rewrite get_set_neq.
    + split; intro Hd.
      * exfalso. subst v. now apply (indeg_pos E e He).
      * exists e, c. subst u. repeat split; try assumption.
        -- apply in_or_app. now left.
        -- rewrite get_set_neq; [assumption | congruence].
        -- apply get_set_eq.
  - pose proof (buildGraph_inv nodes edges nodesMap) as Hg.
    destruct (seed_inv _ _ _ Hg) as [Hinv0 _].
    set (g := buildGraph nodes edges nodesMap) in *.
    set (st0 := fold_left seed_source (inDegree g) _) in *.
    destruct (seed_q (inDegree g) (mkState [] 0 (inDegree g) [] []))
      as (Hq0 & Hh & _). fold st0 in Hq0, Hh. cbn [head q app] in Hq0, Hh.
    destruct (seed_layers (inDegree g) (mkState [] 0 (inDegree g) [] []))
      as (_ & Hzero & _); cbn [q nodeLayers layers app].
    { intro x. cbn. split; [tauto | congruence]. }
    { intros x c. cbn. discriminate. }
    { split; cbn; intros; discriminate. }
    { rewrite <- Hq0. exact (inv_nodup _ _ _ _ Hinv0). }
    fold st0 in Hzero.
    intros x Hx.
    assert (Hdeg : indeg (kept_edges (map n_id nodes) edges) x = 0%nat).
    { pose proof (inv_queued _ _ _ _ Hinv0 x (inv_keys _ _ _ _ Hinv0 x Hx))
        as Hq. unfold dequeued in Hq. rewrite Hh in Hq. cbn [firstn] in Hq.
      rewrite remaining_init in Hq. now apply Hq. }
    split; [|fold E in Hdeg; congruence].
    intros _. destruct (get x (nodeLayers st0)) as [c|] eqn:Ec.
    + f_equal. eauto.
    + now apply (inv_layer _ _ _ _ Hinv0) in Hx.
Qed.

(** *** No node is listed twice *)

Lemma entry_get {K V} `{KeyEq K} (m : JSMap.t K V) k v :
  NoDup (keys m) -> In (k, v) m -> get k m = Some v.
Proof.
  induction m as [|[k1 v1] m IH]; cbn; intros Hnd Hin; [destruct Hin|].
  inversion Hnd as [|? ? Hnotin Hnd']; subst.
  destruct Hin as [Heq | Hin].
  - inversion Heq; subst. now rewrite keq_refl.
  - destruct (keq k k1) eqn:Ek; [|now apply IH].
    apply keq_spec in Ek. subst k1. exfalso. apply Hnotin.
    now apply (in_map fst) in Hin.
Qed.

Lemma in_concat_values {K V} (m : JSMap.t K (list V)) x :
  In x (List.concat (values m)) <-> exists k ids, In (k, ids) m /\ In x ids.
Proof.
  rewrite in_concat. unfold values. split.
  - intros (ids & Hids & Hx). apply in_map_iff in Hids.
    destruct Hids as ([k ids'] & Heq & Hin). cbn in Heq. subst ids'. eauto.
  - intros (k & ids & Hin & Hx). exists ids. split; [|assumption].
    now apply (in_map snd) in Hin.
Qed.

Lemma values_set_absent {K V} `{KeyEq K} (m : JSMap.t K V) k v :
  get k m = None -> values (set k v m) = values m ++ [v].
Proof.
  induction m as [|[k1 v1] m IH]; cbn; [reflexivity|].
  destruct (keq k k1); [discriminate|]. intro Hg. cbn. f_equal. now apply IH.
Qed.

Lemma concat_values_set_present {K V} `{KeyEq K}
    (m : JSMap.t K (list V)) k old x :
  get k m = Some old ->
  Permutation (List.concat (values (set k (old ++ [x]) m)))
              (x :: List.concat (values m)).
Proof.
  induction m as [|[k1 v1] m IH]; cbn; [discriminate|].
  destruct (keq k k1).
  - intros [= ->]. cbn. rewrite <- app_assoc. cbn.
    symmetry. apply Permutation_middle.
  - intro Hg. cbn. rewrite (IH Hg). symmetry. apply Permutation_middle.
Qed.

Lemma layer_push_listed l x (layers : JSMap.t Z (list string)) :
  Permutation (List.concat (values (layer_push l x layers)))
              (x :: List.concat (values layers)).
Proof.
  unfold layer_push, has. destruct (get l layers) as [ids|] eqn:Eg.
  - rewrite Eg. now apply concat_values_set_present.
  - rewrite get_set_eq.
    rewrite (concat_values_set_present (set l [] layers) l [] x)
      by apply get_set_eq.
    constructor. rewrite (values_set_absent _ _ _ Eg), concat_app. cbn.
    now rewrite app_nil_r.
Qed.

Lemma layer_push_NoDup_keys l x (layers : JSMap.t Z (list string)) :
  NoDup (keys layers) -> NoDup (keys (layer_push l x layers)).
Proof.
  intro Hnd. unfold layer_push.
  destruct (get l (if has l layers then layers else set l [] layers));
    destruct (has l layers); repeat apply NoDup_keys_set; assumption.
Qed.

Lemma assign_once layers nodeLayers v l :
  listed_once layers ->
  layers_consistent layers nodeLayers ->
  get v nodeLayers = None ->
  listed_once (layer_push l v layers).
Proof.
  intros [Hk Hc] [_ Hof] Hnone. split; [now apply layer_push_NoDup_keys|].
  eapply Permutation_NoDup; [symmetry; apply layer_push_listed|].
  constructor; [|assumption].
  intro Hin. apply in_concat_values in Hin.
  destruct Hin as (k & ids & Hentry & Hx).
  apply entry_get in Hentry; [|assumption].
  rewrite (Hof _ _ _ Hentry Hx) in Hnone. discriminate.
Qed.

Lemma seed_once l : forall st,
  (forall x, In x (q st) <-> get x (nodeLayers st) <> None) ->
  layers_consistent (layers st) (nodeLayers st) ->
  NoDup (q st ++ map fst (filter is_source l)) ->
  listed_once (layers st) ->
  listed_once (layers (fold_left seed_source l st)).
Proof.
  induction l as [|[k d] l IH]; intros st Hdom Hcons Hnd Honce;
    cbn [fold_left]; [assumption|].
  cbn [filter] in Hnd. unfold is_source in Hnd at 1. cbn [snd] in Hnd.
  assert (Hstep : (d =? 0)%Z = true -> get k (nodeLayers st) = None).
  { intro Hd. rewrite Hd in Hnd. cbn [map fst] in Hnd.
    destruct (get k (nodeLayers st)) eqn:Eg; [|reflexivity].
    assert (Hin : In k (q st)) by (apply Hdom; congruence).
    exfalso. apply NoDup_remove_2 in Hnd. apply Hnd.
    apply in_or_app. now left. }
  apply IH; unfold seed_source; destruct (d =? 0)%Z eqn:Ed;
    cbn [q nodeLayers layers map fst] in *; try assumption.
  - intro x. rewrite in_app_iff. cbn [In].
    destruct (string_dec k x) as [<- | Hne].
    + rewrite get_set_eq. split; [discriminate | auto].
    + rewrite get_set_neq by assumption. rewrite <- Hdom. tauto.
  - apply assign_consistent; auto.
  - now rewrite <- app_assoc.
  - eapply assign_once; eauto.
Qed.

Lemma forward_pass_once nodes edges nodesMap st :
  forward_pass (buildGraph nodes edges nodesMap) = Some st ->
  listed_once (layers st).
Proof.
  apply (forward_pass_keeps nodes edges nodesMap
           (fun st => listed_once (layers st))).
  - intros st0 h H. exact H.
  - intros c u v todo st0 st' Hinv _ _ _ _ HP Hv.
    destruct (visit_cases _ _ _ _ _ _ _ Hinv Hv)
      as [(_ & -> & _) | (_ & -> & _ & _ & Hvl)]; [exact HP|].
    eapply assign_once; [exact HP | exact (inv_consistent _ _ _ _ Hinv) | exact Hvl].
  - pose proof (buildGraph_inv nodes edges nodesMap) as Hg.
    destruct (seed_inv _ _ _ Hg) as [Hinv0 _].
    set (g := buildGraph nodes edges nodesMap) in *.
    destruct (seed_q (inDegree g) (mkState [] 0 (inDegree g) [] []))
      as (Hq0 & _ & _). cbn [q app] in Hq0.
    apply seed_once; cbn [q nodeLayers layers app].
    + intro x. cbn. split; [tauto | congruence].
    + split; cbn; intros; discriminate.
    + rewrite <- Hq0. exact (inv_nodup _ _ _ _ Hinv0).
    + split; constructor.
Qed.

Lemma place_leftover_once vals : forall layers nodeLayers,
  layers_consistent layers nodeLayers ->
  listed_once layers ->
  listed_once (fst (fold_left place_leftover vals (layers, nodeLayers))).
Proof.
  induction vals as [|n vals IH]; intros layers nodeLayers Hc Ho;
    cbn [fold_left]; [exact Ho|].
  unfold place_leftover at 2. unfold has.
  destruct (get (id n) nodeLayers) eqn:En; [now apply IH|].
  apply IH; [now apply assign_consistent | eapply assign_once; eauto].
Qed.

Lemma assignLayers_result (nodes : list node) (edges : list edge) :
  exists ld,
    assignLayers (buildGraph nodes edges (make_nodesMap nodes))
      (make_nodesMap nodes) = Some ld
    /\ layers_consistent (ld_layers ld) (ld_nodeLayers ld)
    /\ listed_once (ld_layers ld)
    /\ (forall v, In v (map n_id nodes) <-> get v (ld_nodeLayers ld) <> None)
    /\ (forall v l, get v (ld_nodeLayers ld) = Some l -> (0 <= l)%Z)
    /\ (forall v, In v (map n_id nodes) ->
          indeg (kept_edges (map n_id nodes) edges) v = 0%nat ->
          get v (ld_nodeLayers ld) = Some 0%Z).
Proof.
  destruct (forward_pass_inv nodes edges (make_nodesMap nodes))
    as (st & Hf & Hinv & Hend).
  pose proof (buildGraph_inv nodes edges (make_nodesMap nodes))
    as (_ & Hkd & _).
  destruct (forward_pass_nonneg _ _ _ _ Hf) as [Hnn Hnk].
  pose proof (forward_pass_tight _ _ _ _ Hf) as Htight.
  unfold assignLayers. rewrite Hf.
  pose proof (place_leftover_consistent (values (make_nodesMap nodes)) _ _
                (inv_consistent _ _ _ _ Hinv)) as Hcons.
  pose proof (place_leftover_once (values (make_nodesMap nodes)) _ _
                (inv_consistent _ _ _ _ Hinv) (forward_pass_once _ _ _ _ Hf))
    as Honce.
  pose proof (place_leftover_nonneg (values (make_nodesMap nodes)) _ _ Hnn Hnk)
    as Hnn'.
  pose proof (place_leftover_assigns (values (make_nodesMap nodes))
                (layers st) (nodeLayers st)) as Hassign.
  pose proof (place_leftover_domain (values (make_nodesMap nodes))
                (layers st) (nodeLayers st)) as Hdom.
  pose proof (place_leftover_keeps (values (make_nodesMap nodes))
                (layers st) (nodeLayers st)) as Hkeep.
  destruct (fold_left place_leftover _ _) as [layers' nodeLayers'].
  cbn [fst snd] in *.
  eexists. split; [reflexivity|]. cbn [ld_layers ld_nodeLayers].
  split; [exact Hcons|]. split; [exact Honce|].
  split; [|split; [exact Hnn'|]].
  - intro v. split.
    + intro Hv. destruct (nodesMap_values_cover nodes v Hv) as (n & Hn & <-).
      now apply Hassign.
    + intro Hv. destruct (Hdom v Hv) as [Hs | Hin].
      * apply Hkd. apply (inv_keys _ _ _ _ Hinv).
        now apply (inv_layer _ _ _ _ Hinv).
      * apply in_map_iff in Hin. destruct Hin as (n & <- & Hn).
        now apply nodesMap_value_ids.
  - intros v Hv Hd. apply Hkeep.
    assert (Hq : In v (q st)).
    { apply (inv_queued _ _ _ _ Hinv); [now apply Hkd|].
      pose proof (remaining_le_indeg
                    (kept_edges (map n_id nodes) edges) (dequeued st) v). lia. }
    now apply (Htight v Hq).
Qed.


(** X2. For every flowchart, cyclic or not, [assignLayers] returns; the
    nodes with a layer are exactly the node ids; [layers] lists each node
    once, in the layer of its index and in no other; no index is
    negative; and a node without incoming edge is in layer 0. *)
Theorem assignLayers_assigns_every_node (nodes : list node) (edges : list edge) :
  exists ld,
    assignLayers (buildGraph nodes edges (make_nodesMap nodes))
      (make_nodesMap nodes) = Some ld
    /\ layers_consistent (ld_layers ld) (ld_nodeLayers ld)
    /\ listed_once (ld_layers ld)
    /\ (forall v, In v (map n_id nodes) <-> get v (ld_nodeLayers ld) <> None)
    /\ (forall v l, get v (ld_nodeLayers ld) = Some l -> (0 <= l)%Z)
    /\ (forall v, In v (map n_id nodes) ->
          indeg (kept_edges (map n_id nodes) edges) v = 0%nat ->
          get v (ld_nodeLayers ld) = Some 0%Z).
Proof. apply assignLayers_result. Qed.

(** X3. In an acyclic flowchart with valid edges the layering is
    tight: a node without incoming edge is in layer 0, and any
    other node is exactly one layer below one of its predecessors. *)
Theorem acyclic_layers_are_tight (nodes : list node) (edges : list edge) :
  (forall e, In e edges ->
     In (e_from e) (map n_id nodes) /\ In (e_to e) (map n_id nodes)) ->
  acyclic edges ->
  exists ld,
    assignLayers (buildGraph nodes edges (make_nodesMap nodes))
      (make_nodesMap nodes) = Some ld
    /\ forall v, In v (map n_id nodes) ->
         (indeg edges v = 0%nat /\ get v (ld_nodeLayers ld) = Some 0%Z)
         \/ (exists e c, In e edges /\ e_to e = v
                         /\ get (e_from e) (ld_nodeLayers ld) = Some c
                         /\ get v (ld_nodeLayers ld) = Some (c + 1)%Z).
Proof.
  intros Hvalid Hacyc.
  destruct (forward_pass_inv nodes edges (make_nodesMap nodes))
    as (st & Hf & Hinv & Hend).
  pose proof (forward_pass_exhaustive _ _ _ _ Hacyc Hf) as Hall.
  pose proof (forward_pass_tight _ _ _ _ Hf) as Htight.
  rewrite (kept_edges_all _ _ Hvalid) in Htight.
  unfold assignLayers. rewrite Hf.
  pose proof (place_leftover_keeps (values (make_nodesMap nodes))
                (layers st) (nodeLayers st)) as Hkeep.
  destruct (fold_left place_leftover _ _) as [layers' nodeLayers'].
  cbn [snd] in Hkeep.
  eexists. split; [reflexivity|]. cbn [ld_nodeLayers].
  intros v Hv. destruct (Htight v (Hall v Hv)) as [H0 Hpos].
  destruct (Nat.eq_dec (indeg edges v) 0) as [Hd | Hd].
  - left. auto.
  - right. destruct (Hpos Hd) as (e & c & He & Hto & _ & Hl & Hlv).
    exists e, c. auto.
Qed.

Lemma acyclic_layers_are_tight_witness :
  exists ld,
    assignLayers (buildGraph abc_nodes chain_edges (make_nodesMap abc_nodes))
      (make_nodesMap abc_nodes) = Some ld
    /\ forall v, In v (map n_id abc_nodes) ->
         (indeg chain_edges v = 0%nat /\ get v (ld_nodeLayers ld) = Some 0%Z)
         \/ (exists e c, In e chain_edges /\ e_to e = v
                         /\ get (e_from e) (ld_nodeLayers ld) = Some c
                         /\ get v (ld_nodeLayers ld) = Some (c + 1)%Z).
Proof.
  apply (acyclic_layers_are_tight abc_nodes chain_edges).
  - intros e [<- | [<- | []]]; cbn; auto.
  - exact FlowchartExamples.chain_acyclic.
Defined.

(** X1. The graph built by [buildGraph].  The keys of both maps are the
    node ids; the adjacency list of a node holds the targets of the edges
    that leave it, in edge order, and its in-degree counts the edges that
    enter it, where only the edges with both endpoints among the node ids
    count (the others are ignored). *)
Theorem buildGraph_adjacency_and_degrees (nodes : list node)
    (edges : list edge) (nodesMap : JSMap.t string pnode) :
  let g := buildGraph nodes edges nodesMap in
  let E := kept_edges (map n_id nodes) edges in
  (forall k, In k (keys (adj g)) <-> In k (map n_id nodes))
  /\ (forall k, In k (keys (inDegree g)) <-> In k (map n_id nodes))
  /\ (forall u, In u (map n_id nodes) ->
        get u (adj g) = Some (map e_to (filter (fun e => String.eqb (e_from e) u) E)))
  /\ (forall v, In v (map n_id nodes) ->
        get v (inDegree g)
        = Some (Z.of_nat (List.length (filter (fun e => String.eqb (e_to e) v) E))))
  /\ (forall e, In e E <->
        In e edges /\ In (e_from e) (map n_id nodes)
        /\ In (e_to e) (map n_id nodes)).
Proof.
  intros g E.
  destruct (buildGraph_inv nodes edges nodesMap) as (Hka & Hkd & Hadj & Hdeg & _).
  repeat (split; [assumption|]).
  intro e. unfold E, kept_edges.
  rewrite filter_In, andb_true_iff, !mem_true_iff. tauto.
Qed.

(** *** Nodes left over by the forward pass *)

Lemma place_leftover_layer_kept vals : forall layers nodeLayers l ids,
  get l layers = Some ids ->
  get l (fst (fold_left place_leftover vals (layers, nodeLayers))) = Some ids.
Proof.
  induction vals as [|n vals IH]; intros layers nodeLayers l ids Hl;
    cbn [fold_left]; [exact Hl|].
  unfold place_leftover at 2.
  destruct (has (id n) nodeLayers); [now apply IH|].
  apply IH. rewrite layer_push_get_neq; [exact Hl|].
  pose proof (maxExistingLayer_ge layers l (get_Some_in _ _ _ Hl)). lia.
Qed.

Lemma place_leftover_own vals : forall layers nodeLayers x,
  get x nodeLayers = None ->
  (exists n, In n vals /\ id n = x) ->
  exists l,
    get x (snd (fold_left place_leftover vals (layers, nodeLayers))) = Some l
    /\ get l (fst (fold_left place_leftover vals (layers, nodeLayers)))
       = Some [x]
    /\ forall k, In k (keys layers) -> (k < l)%Z.
Proof.
  induction vals as [|n vals IH]; intros layers nodeLayers x Hnone (n0 & Hin & Hid);
    [destruct Hin|].
  cbn [fold_left]. unfold place_leftover at 2 4. unfold has.
  destruct (get (id n) nodeLayers) as [ln|] eqn:En.
  - apply IH; [exact Hnone|]. destruct Hin as [<- | Hin]; [congruence | eauto].
  - destruct (string_dec (id n) x) as [Hx | Hx].
    + rewrite Hx. exists (maxExistingLayer layers + 1)%Z. split; [|split].
      * apply place_leftover_keeps. apply get_set_eq.
      * apply place_leftover_layer_kept. rewrite layer_push_get_eq.
        destruct (get (maxExistingLayer layers + 1)%Z layers) eqn:Eg;
          [|reflexivity].
        pose proof (maxExistingLayer_ge layers _ (get_Some_in _ _ _ Eg)). lia.
      * intros k Hk. pose proof (maxExistingLayer_ge layers k Hk). lia.
    + destruct (IH (layer_push (maxExistingLayer layers + 1)%Z (id n) layers)
                   (set (id n) (maxExistingLayer layers + 1)%Z nodeLayers) x)
        as (l & Hl & Hown & Habove).
      * rewrite get_set_neq; [exact Hnone | exact Hx].
      * destruct Hin as [<- | Hin]; [congruence | eauto].
      * exists l. split; [exact Hl|]. split; [exact Hown|].
        intros k Hk. apply Habove. now apply layer_push_keys.
Qed.

(** X4. Every node that the forward pass leaves without a layer (a node
    on a cycle or behind one) is put in a new layer of its own, below
    every layer of the forward pass; two such nodes are never put in the
    same layer. *)
Theorem leftover_nodes_get_own_layers (nodes : list node) (edges : list edge) :
  exists st ld,
    forward_pass (buildGraph nodes edges (make_nodesMap nodes)) = Some st
    /\ assignLayers (buildGraph nodes edges (make_nodesMap nodes))
         (make_nodesMap nodes) = Some ld
    /\ forall x, In x (map n_id nodes) ->
         get x (nodeLayers st) = None ->
         exists l,
           get x (ld_nodeLayers ld) = Some l
           /\ get l (ld_layers ld) = Some [x]
           /\ forall k, In k (keys (layers st)) -> (k < l)%Z.
Proof.
  destruct (forward_pass_inv nodes edges (make_nodesMap nodes))
    as (st & Hf & _).
  exists st. unfold assignLayers. rewrite Hf.
  destruct (fold_left place_leftover (values (make_nodesMap nodes))
              (layers st, nodeLayers st)) as [layers' nodeLayers'] eqn:Efold.
  eexists. split; [reflexivity|]. split; [reflexivity|].
  cbn [ld_layers ld_nodeLayers]. intros x Hx Hnone.
  destruct (place_leftover_own (values (make_nodesMap nodes))
              (layers st) (nodeLayers st) x Hnone) as (l & Hl & Hown & Habove).
  { destruct (nodesMap_values_cover nodes x Hx) as (n & Hn & Hid). eauto. }
  rewrite Efold in Hl, Hown. eauto.
Qed.

End LayeringMore.

(** ** Flowchart: positions and the rendered scene *)


Module ViewportFacts.

Lemma fold_jmin_num xs : forall a,
  fold_left (fun acc x => jmin acc (Num x)) xs (Num a)
  = Num (fold_left Qmin xs a).
Proof.
  induction xs as [|x xs IH]; intro a; cbn [fold_left]; [reflexivity|].
  cbn [jmin]. apply IH.
Qed.

Lemma fold_Qmin_le xs : forall a,
  fold_left Qmin xs a <= a /\ Forall (fun x => fold_left Qmin xs a <= x) xs.
Proof.
  induction xs as [|x xs IH]; intro a; cbn [fold_left].
  - split; [apply Qle_refl | constructor].
  - destruct (IH (Qmin a x)) as [Hle Hall].
    pose proof (Q.le_min_l a x). pose proof (Q.le_min_r a x).
    split; [lra|]. constructor; [lra | assumption].
Qed.

(** [Math.min] of at least one number is a number below all of them. *)
Lemma Math_min_nonempty xs :
  xs <> [] -> exists m, Math_min xs = Num m /\ Forall (fun x => m <= x) xs.
Proof.
  destruct xs as [|x xs]; [congruence|]. intros _.
  unfold Math_min. cbn [fold_left jmin]. rewrite fold_jmin_num.
  exists (fold_left Qmin xs x). split; [reflexivity|].
  destruct (fold_Qmin_le xs x). constructor; assumption.
Qed.

Lemma fold_Qmax_ge {A} (f : A -> Q) l : forall m0,
  m0 <= fold_left (fun m p => Qmax m (f p)) l m0
  /\ Forall (fun p => f p <= fold_left (fun m p => Qmax m (f p)) l m0) l.
Proof.
  induction l as [|p l IH]; intro m0; cbn [fold_left].
  - split; [apply Qle_refl | constructor].
  - destruct (IH (Qmax m0 (f p))) as [Hle Hall].
    pose proof (Q.le_max_l m0 (f p)). pose proof (Q.le_max_r m0 (f p)).
    split; [lra|]. constructor; [lra | assumption].
Qed.

End ViewportFacts.

Module FlowchartRender.
Import Flowchart Layering LayeringExtra LayeringFacts LayeringMore FlowchartSpec.
Import ViewportFacts.

Lemma Qnat_succ n : Qnat (S n) = Qnat n + 1.
Proof.
  unfold Qnat. rewrite Nat2Z.inj_succ. unfold Z.succ. apply inject_Z_plus.
Qed.

Lemma Qnat_nonneg n : 0 <= Qnat n.
Proof.
  unfold Qnat. change 0 with (inject_Z 0). rewrite <- Zle_Qle. lia.
Qed.

Lemma ForallOrdPairs_app {A} (R : A -> A -> Prop) l1 l2 :
  ForallOrdPairs R l1 -> ForallOrdPairs R l2 ->
  (forall a b, In a l1 -> In b l2 -> R a b) ->
  ForallOrdPairs R (l1 ++ l2).
Proof.
  induction l1 as [|a l1 IH]; intros H1 H2 H12; cbn; [assumption|].
  inversion H1 as [|? ? Ha Hl1]; subst. constructor.
  - apply Forall_app. split; [assumption|].
    apply Forall_forall. intros b Hb. apply H12; [now left | assumption].
  - apply IH; try assumption. intros a' b Ha' Hb. apply H12; [now right | assumption].
Qed.

(** *** One layer *)

Lemma place_layer_spec nodesMap startX currentY ids : forall i ps,
  place_layer nodesMap startX currentY i ids = Some ps ->
  Forall (fun p => y p = currentY
                   /\ startX + Qnat i * (NODE_WIDTH + H_GAP) <= x p) ps
  /\ ForallOrdPairs nodes_apart ps.
Proof.
  induction ids as [|k ids IH]; intros i ps Hp; cbn [place_layer] in Hp.
  - inversion Hp; subst. repeat constructor.
  - destruct (get k nodesMap) as [node|] eqn:Ek; [|discriminate].
    destruct (place_layer nodesMap startX currentY (S i) ids) as [ps'|] eqn:Eps;
      [|discriminate].
    inversion Hp; subst ps. clear Hp.
    destruct (IH (S i) ps' Eps) as (Hall & Hfop).
    assert (Hstep : Forall (fun p => y p = currentY
                      /\ startX + Qnat i * (NODE_WIDTH + H_GAP)
                         + (NODE_WIDTH + H_GAP) <= x p) ps').
    { eapply Forall_impl; [|exact Hall]. cbn beta. intros p [Hy Hx].
      split; [assumption|]. rewrite Qnat_succ in Hx.
      unfold NODE_WIDTH, H_GAP in *. lra. }
    split.
    + constructor.
      * cbn [x y]. split; [reflexivity | apply Qle_refl].
      * eapply Forall_impl; [|exact Hstep]. cbn beta. intros p [Hy Hx].
        split; [assumption|]. unfold NODE_WIDTH, H_GAP in *. lra.
    + constructor; [|assumption].
      eapply Forall_impl; [|exact Hstep]. cbn beta. intros p [Hy Hx].
      left. cbn [x y]. split; [now symmetry | exact Hx].
Qed.

Lemma place_layer_ids nodesMap startX currentY ids : forall i ps,
  (forall k n, get k nodesMap = Some n -> id n = k) ->
  place_layer nodesMap startX currentY i ids = Some ps ->
  map id ps = ids.
Proof.
  induction ids as [|k ids IH]; intros i ps Hid Hp; cbn [place_layer] in Hp.
  - now inversion Hp.
  - destruct (get k nodesMap) as [node|] eqn:Ek; [|discriminate].
    destruct (place_layer nodesMap startX currentY (S i) ids) as [ps'|] eqn:Eps;
      [|discriminate].
    inversion Hp; subst ps. cbn [map id]. f_equal; [eauto | eauto].
Qed.

Lemma place_layer_defined nodesMap startX currentY ids : forall i,
  (forall k, In k ids -> In k (keys nodesMap)) ->
  exists ps, place_layer nodesMap startX currentY i ids = Some ps.
Proof.
  induction ids as [|k ids IH]; intros i Hk; cbn [place_layer]; [eauto|].
  destruct (in_keys_get nodesMap k) as [n Hn]; [apply Hk; now left|].
  destruct (IH (S i)) as [ps Hps]; [intros; apply Hk; now right|].
  rewrite Hn, Hps. eauto.
Qed.

(** *** The stack of layers *)

Lemma position_layers_apart nodesMap layers ks : forall currentY ps,
  position_layers nodesMap layers ks currentY = Some ps ->
  Forall (fun p => currentY <= y p) ps /\ ForallOrdPairs nodes_apart ps.
Proof.
  induction ks as [|k ks IH]; intros currentY ps Hp;
    cbn [position_layers] in Hp.
  - inversion Hp; subst. split; constructor.
  - destruct (get k layers) as [ids|]; [|discriminate].
    destruct (place_layer nodesMap _ currentY 0 ids) as [here|] eqn:Ehere;
      [|discriminate].
    destruct (position_layers nodesMap layers ks _) as [below|] eqn:Ebelow;
      [|discriminate].
    inversion Hp; subst ps. clear Hp.
    destruct (place_layer_spec _ _ _ _ _ _ Ehere) as (Hhere & Hfop).
    destruct (IH _ _ Ebelow) as (Hbelow & Hfopb).
    split.
    + apply Forall_app. split.
      * eapply Forall_impl; [|exact Hhere]. cbn beta. intros p [-> _].
        apply Qle_refl.
      * eapply Forall_impl; [|exact Hbelow]. cbn beta. intros p Hy.
        unfold NODE_HEIGHT, V_GAP in *. lra.
    + apply ForallOrdPairs_app; try assumption.
      intros a b Ha Hb. right.
      rewrite Forall_forall in Hhere, Hbelow.
      destruct (Hhere a Ha) as [-> _]. now apply Hbelow.
Qed.

Lemma position_layers_ids nodesMap layers ks : forall currentY ps,
  (forall k n, get k nodesMap = Some n -> id n = k) ->
  position_layers nodesMap layers ks currentY = Some ps ->
  map id ps = flat_map (layer_ids layers) ks.
Proof.
  induction ks as [|k ks IH]; intros currentY ps Hid Hp;
    cbn [position_layers] in Hp.
  - now inversion Hp.
  - cbn [flat_map]. unfold layer_ids at 1.
    destruct (get k layers) as [ids|]; [|discriminate].
    destruct (place_layer nodesMap _ currentY 0 ids) as [here|] eqn:Ehere;
      [|discriminate].
    destruct (position_layers nodesMap layers ks _) as [below|] eqn:Ebelow;
      [|discriminate].
    inversion Hp; subst ps. rewrite map_app. f_equal.
    + eapply place_layer_ids; eauto.
    + eapply IH; eauto.
Qed.

Lemma position_layers_defined nodesMap layers ks : forall currentY,
  (forall k, In k ks -> In k (keys layers)) ->
  (forall k x, In x (layer_ids layers k) -> In x (keys nodesMap)) ->
  exists ps, position_layers nodesMap layers ks currentY = Some ps.
Proof.
  induction ks as [|k ks IH]; intros currentY Hks Hids;
    cbn [position_layers]; [eauto|].
  destruct (in_keys_get layers k) as [ids Hk]; [apply Hks; now left|].
  rewrite Hk.
  destruct (place_layer_defined nodesMap
              (- (Qnat (List.length ids) * NODE_WIDTH
                  + (Qnat (List.length ids) - 1) * H_GAP) / 2 + NODE_WIDTH / 2)
              currentY ids 0%nat) as [here Hhere].
  { intros x Hx. apply (Hids k). unfold layer_ids. now rewrite Hk. }
  destruct (IH (currentY + (NODE_HEIGHT + V_GAP))) as [below Hbelow];
    [intros; apply Hks; now right | assumption|].
  rewrite Hhere, Hbelow. eauto.
Qed.

Lemma insert_key_perm k ks : Permutation (insert_key k ks) (k :: ks).
Proof.
  induction ks as [|k' ks IH]; cbn; [reflexivity|].
  destruct (k <=? k')%Z; [reflexivity|].
  rewrite IH. apply perm_swap.
Qed.

Lemma sort_keys_perm ks : Permutation (sort_keys ks) ks.
Proof.
  induction ks as [|k ks IH]; cbn; [reflexivity|].
  fold (sort_keys ks). rewrite insert_key_perm. now constructor.
Qed.

(** *** Every node is positioned once *)

Lemma layer_ids_all (layers : JSMap.t Z (list string)) :
  NoDup (keys layers) ->
  flat_map (layer_ids layers) (keys layers) = List.concat (values layers).
Proof.
  unfold keys, values.
  induction layers as [|[k ids] m IH]; cbn [map flat_map List.concat fst snd];
    intro Hnd; [reflexivity|].
  inversion Hnd as [|? ? Hnotin Hnd']; subst.
  unfold layer_ids at 1. cbn [get]. rewrite keq_refl. f_equal.
  rewrite <- (IH Hnd'), !flat_map_concat_map. f_equal.
  apply map_ext_in. intros k' Hk'.
  unfold layer_ids. cbn [get].
  rewrite keq_neq; [reflexivity|]. intros ->. contradiction.
Qed.

Lemma positionNodes_result (nodes : list node) (edges : list edge) :
  exists ld ps,
    assignLayers (buildGraph nodes edges (make_nodesMap nodes))
      (make_nodesMap nodes) = Some ld
    /\ positionNodes ld (make_nodesMap nodes) = Some ps
    /\ Permutation (map id ps) (keys (make_nodesMap nodes))
    /\ ForallOrdPairs nodes_apart ps.
Proof.
  destruct (assignLayers_result nodes edges)
    as (ld & Ha & [Hin Hof] & [Hndk Hndc] & Hdom & _).
  exists ld. unfold positionNodes.
  destruct (position_layers_defined (make_nodesMap nodes) (ld_layers ld)
              (sort_keys (keys (ld_layers ld))) 0) as [ps Hps].
  { intros k Hk. eapply Permutation_in; [apply sort_keys_perm | exact Hk]. }
  { intros k x Hx. unfold layer_ids in Hx.
    destruct (get k (ld_layers ld)) as [ids|] eqn:Ek; [|destruct Hx].
    apply nodesMap_keys, Hdom. rewrite (Hof _ _ _ Ek Hx). discriminate. }
  exists ps. split; [assumption|]. split; [assumption|].
  split; [|exact (proj2 (position_layers_apart _ _ _ _ _ Hps))].
  pose proof (position_layers_ids _ _ _ _ _ (nodesMap_entry_id nodes) Hps) as Hids.
  assert (Hperm : Permutation (map id ps) (List.concat (values (ld_layers ld)))).
  { rewrite Hids, <- (layer_ids_all _ Hndk).
    apply Permutation_flat_map, sort_keys_perm. }
  apply NoDup_Permutation.
  - eapply Permutation_NoDup; [symmetry; exact Hperm | exact Hndc].
  - apply of_pairs_NoDup.
  - intro k. rewrite nodesMap_keys, Hdom. split.
    + intro Hk. eapply Permutation_in in Hk; [|exact Hperm].
      apply in_concat_values in Hk. destruct Hk as (l & ids & Hentry & Hx).
      apply entry_get in Hentry; [|assumption].
      rewrite (Hof _ _ _ Hentry Hx). discriminate.
    + intro Hk. destruct (get k (ld_nodeLayers ld)) as [l|] eqn:El; [|congruence].
      destruct (Hin _ _ El) as (ids & Hl & Hx).
      eapply Permutation_in; [symmetry; exact Hperm|].
      apply in_concat_values. exists l, ids. split; [|assumption].
      now apply get_entry.
Qed.

(** *** The edges *)

Lemma find_by_id ps k :
  (In k (map id ps) ->
     exists n, find (fun n => String.eqb (id n) k) ps = Some n)
  /\ (~ In k (map id ps) -> find (fun n => String.eqb (id n) k) ps = None).
Proof.
  induction ps as [|p ps [IHs IHn]]; cbn [map find In].
  - split; [intros [] | reflexivity].
  - destruct (String.eqb (id p) k) eqn:Ek.
    + split; [eauto|]. apply String.eqb_eq in Ek. tauto.
    + apply String.eqb_neq in Ek. split.
      * intros [Heq | Hin]; [congruence | auto].
      * intro Hn. apply IHn. tauto.
Qed.

Section Edges.

Variable getComputedTextLength : string -> Q -> string -> Q.

Lemma draw_edges_scene ps edges : forall sc,
  let sc' := fold_left (draw_edge ps) edges sc in
  sc_rects sc' = sc_rects sc
  /\ List.length (sc_paths sc')
     = (List.length (sc_paths sc)
        + List.length (filter (drawable (map id ps)) edges))%nat
  /\ sc_warnings sc'
     = sc_warnings sc
       ++ map missing_node_warning
            (filter (fun e => negb (drawable (map id ps) e)) edges).
Proof.
  induction edges as [|e edges IH]; intros sc; cbn [fold_left filter]; cbv zeta.
  - cbn. now rewrite Nat.add_0_r, app_nil_r.
  - destruct (IH (draw_edge ps sc e)) as (Hr & Hp & Hw).
    cbv zeta in Hr, Hp, Hw. rewrite Hr, Hp, Hw. clear Hr Hp Hw IH.
    unfold draw_edge, drawable.
    destruct (find_by_id ps (e_from e)) as [Hfs Hfn].
    destruct (find_by_id ps (e_to e)) as [Hts Htn].
    destruct (mem (e_from e) (map id ps)) eqn:Ef.
    + apply mem_true_iff in Ef. destruct (Hfs Ef) as [nf ->].
      destruct (mem (e_to e) (map id ps)) eqn:Et.
      * apply mem_true_iff in Et. destruct (Hts Et) as [nt ->].
        cbn. rewrite length_app. cbn. split; [reflexivity|]. split; [lia | reflexivity].
      * apply mem_false_iff in Et. rewrite (Htn Et).
        cbn. rewrite <- app_assoc. auto.
    + apply mem_false_iff in Ef. rewrite (Hfn Ef).
      cbn. rewrite <- app_assoc. auto.
Qed.

Lemma mem_perm k l l' : Permutation l l' -> mem k l = mem k l'.
Proof.
  intro Hp. destruct (mem k l') eqn:E.
  - apply mem_true_iff. apply mem_true_iff in E.
    eapply Permutation_in; [symmetry; exact Hp | exact E].
  - apply mem_false_iff. apply mem_false_iff in E. intro Hin. apply E.
    eapply Permutation_in; [exact Hp | exact Hin].
Qed.

Lemma mem_same k l l' : (forall x, In x l <-> In x l') -> mem k l = mem k l'.
Proof.
  intro Hs. destruct (mem k l') eqn:E.
  - apply mem_true_iff. apply mem_true_iff in E. now apply Hs.
  - apply mem_false_iff. apply mem_false_iff in E. intro Hin. apply E.
    now apply Hs.
Qed.

(** The shape of the result of [renderFlowchart] when both collections
    are present. *)
Lemma renderFlowchart_result nodes edges :
  exists ps,
    renderFlowchart getComputedTextLength (mkData (Some nodes) (Some edges))
    = Success
        (fold_left (draw_edge ps) edges
           (mkScene (map node_rect ps)
                    (map (node_text getComputedTextLength) ps) [] []))
        (flowchart_viewBox ps)
    /\ Permutation (map id ps) (keys (make_nodesMap nodes))
    /\ ForallOrdPairs nodes_apart ps.
Proof.
  destruct (positionNodes_result nodes edges) as (ld & ps & Ha & Hp & Hperm & Hfop).
  exists ps. unfold renderFlowchart. cbn [d_nodes d_edges].
  rewrite Ha, Hp. auto.
Qed.

(** X5. [renderFlowchart] fails only for a missing collection; with both
    present it returns a scene, whatever the edges are (cycles, dangling
    or repeated edges). *)
Theorem renderFlowchart_never_throws (d : data) :
  match d_nodes d, d_edges d with
  | Some _, Some _ =>
      exists s vb, renderFlowchart getComputedTextLength d = Success s vb
  | _, _ =>
      renderFlowchart getComputedTextLength d
      = Failure "Invalid flowchart data: missing nodes or edges"
  end.
Proof.
  destruct d as [[nodes|] [edges|]]; cbn [d_nodes d_edges]; try reflexivity.
  destruct (renderFlowchart_result nodes edges) as (ps & Hr & _).
  rewrite Hr. eauto.
Qed.

(** X6. [renderFlowchart] draws one box per distinct node id, and the
    boxes are kept apart: two boxes of one layer are a node width plus
    the horizontal gap apart, boxes of different layers a node height
    plus the vertical gap. *)
Theorem renderFlowchart_boxes (nodes : list node) (edges : list edge) :
  exists ps s vb,
    renderFlowchart getComputedTextLength (mkData (Some nodes) (Some edges))
    = Success s vb
    /\ sc_rects s = map node_rect ps
    /\ Permutation (map id ps) (keys (make_nodesMap nodes))
    /\ (forall k, In k (keys (make_nodesMap nodes)) <-> In k (map n_id nodes))
    /\ NoDup (keys (make_nodesMap nodes))
    /\ ForallOrdPairs nodes_apart ps.
Proof.
  destruct (renderFlowchart_result nodes edges) as (ps & Hr & Hperm & Hfop).
  exists ps. eexists. eexists. split; [exact Hr|].
  split; [apply (draw_edges_scene ps edges)|].
  split; [assumption|]. split; [apply nodesMap_keys|].
  split; [apply of_pairs_NoDup | assumption].
Qed.

Lemma renderFlowchart_scene (nodes : list node) (edges : list edge) :
  exists s vb,
    renderFlowchart getComputedTextLength (mkData (Some nodes) (Some edges))
    = Success s vb
    /\ List.length (sc_paths s)
       = List.length (filter (drawable (map n_id nodes)) edges)
    /\ sc_warnings s
       = map missing_node_warning
           (filter (fun e => negb (drawable (map n_id nodes) e)) edges).
Proof.
  destruct (renderFlowchart_result nodes edges) as (ps & Hr & Hperm & _).
  eexists. eexists. split; [exact Hr|].
  destruct (draw_edges_scene ps edges
              (mkScene (map node_rect ps)
                 (map (node_text getComputedTextLength) ps) [] []))
    as (_ & Hp & Hw).
  cbv zeta in Hp, Hw. cbn [sc_paths sc_warnings List.length app Nat.add] in Hp, Hw.
  assert (Hd : forall e, drawable (map id ps) e = drawable (map n_id nodes) e).
  { intro e. unfold drawable.
    assert (Hm : forall k, mem k (map id ps) = mem k (map n_id nodes)).
    { intro k. rewrite (mem_perm k _ _ Hperm).
      apply mem_same. apply nodesMap_keys. }
    now rewrite !Hm. }
  rewrite Hp, Hw. split.
  - f_equal. apply filter_ext. exact Hd.
  - f_equal. apply filter_ext. intro e. now rewrite Hd.
Qed.

(** X7. [renderFlowchart] draws a path for every edge whose endpoints are
    both node ids and records one warning, in edge order, for every
    other edge; no edge stops the layout. *)
Theorem renderFlowchart_edges (nodes : list node) (edges : list edge) :
  exists s vb,
    renderFlowchart getComputedTextLength (mkData (Some nodes) (Some edges))
    = Success s vb
    /\ List.length (sc_paths s)
       = List.length (filter (drawable (map n_id nodes)) edges)
    /\ sc_warnings s
       = map missing_node_warning
           (filter (fun e => negb (drawable (map n_id nodes) e)) edges).
Proof. exact (renderFlowchart_scene nodes edges). Qed.

Lemma flowchart_viewBox_covers ps :
  ps <> [] ->
  exists vx vy vw vh,
    flowchart_viewBox ps = mkViewBox (Num vx) (Num vy) (Num vw) (Num vh)
    /\ Forall (inside_viewport vx vy vw vh 25 75) (map node_rect ps).
Proof.
  intro Hne. unfold flowchart_viewBox.
  destruct (Math_min_nonempty (map x ps)) as (mx & -> & Hmx);
    [destruct ps; [congruence | discriminate]|].
  destruct (Math_min_nonempty (map y ps)) as (my & -> & Hmy);
    [destruct ps; [congruence | discriminate]|].
  destruct (fold_Qmax_ge (fun n => x n + width n) ps 0) as [_ HX].
  destruct (fold_Qmax_ge (fun n => y n + height n) ps 0) as [_ HY].
  cbv zeta. cbn [jsub jneg jadd].
  do 4 eexists. split; [reflexivity|].
  rewrite Forall_map. rewrite Forall_map in Hmx, Hmy.
  rewrite Forall_forall in *. intros p Hp.
  specialize (Hmx p Hp). specialize (Hmy p Hp).
  specialize (HX p Hp). specialize (HY p Hp). cbn beta in HX, HY.
  unfold inside_viewport, node_rect. cbn [r_x r_y r_width r_height].
  set (MX := fold_left (fun m n => Qmax m (x n + width n)) ps 0) in *.
  set (MY := fold_left (fun m n => Qmax m (y n + height n)) ps 0) in *.
  assert (Hhalf : 50 / 2 == 25) by reflexivity.
  repeat split; lra.
Qed.

(** X8. For a flowchart with at least one node the viewport of
    [renderFlowchart] consists of four finite numbers and contains every
    node box, with a margin of 25 on the left and top and 75 on the right
    and bottom. *)
Theorem renderFlowchart_viewBox_covers (nodes : list node) (edges : list edge) :
  nodes <> [] ->
  exists s vx vy vw vh,
    renderFlowchart getComputedTextLength (mkData (Some nodes) (Some edges))
    = Success s (mkViewBox (Num vx) (Num vy) (Num vw) (Num vh))
    /\ sc_rects s <> []
    /\ Forall (inside_viewport vx vy vw vh 25 75) (sc_rects s).
Proof.
  intro Hne.
  destruct (renderFlowchart_result nodes edges) as (ps & Hr & Hperm & _).
  assert (Hps : ps <> []).
  { intros ->. cbn in Hperm. apply Permutation_nil in Hperm.
    destruct nodes as [|n nodes]; [congruence|].
    assert (Hin : In (n_id n) (keys (make_nodesMap (n :: nodes))))
      by (apply nodesMap_keys; now left).
    rewrite Hperm in Hin. destruct Hin. }
  destruct (flowchart_viewBox_covers ps Hps) as (vx & vy & vw & vh & Hvb & Hall).
  exists (fold_left (draw_edge ps) edges
            (mkScene (map node_rect ps)
               (map (node_text getComputedTextLength) ps) [] [])).
  exists vx, vy, vw, vh. rewrite Hr, Hvb.
  destruct (draw_edges_scene ps edges
              (mkScene (map node_rect ps)
                 (map (node_text getComputedTextLength) ps) [] []))
    as (Hrects & _). cbv zeta in Hrects. rewrite Hrects. cbn [sc_rects].
  split; [reflexivity|]. split; [|exact Hall].
  destruct ps; [congruence | discriminate].
Qed.

End Edges.

Lemma renderFlowchart_viewBox_witness :
  exists s vx vy vw vh,
    renderFlowchart approximateTextLength
      (mkData (Some abc_nodes) (Some dangling_edges))
    = Success s (mkViewBox (Num vx) (Num vy) (Num vw) (Num vh))
    /\ sc_rects s <> []
    /\ Forall (inside_viewport vx vy vw vh 25 75) (sc_rects s).
Proof.
  apply (renderFlowchart_viewBox_covers approximateTextLength
           abc_nodes dangling_edges).
  discriminate.
Defined.

End FlowchartRender.

(** ** Flowchart: the arrows of an acyclic flowchart point down *)

Module FlowchartDown.
Import JSMap JSMapFacts Flowchart Layering LayeringFacts FlowchartSpec.

Lemma acyclic_layers_increase (nodes : list node) (edges : list edge) :
  (forall e, In e edges ->
     In (e_from e) (map n_id nodes) /\ In (e_to e) (map n_id nodes)) ->
  acyclic edges ->
  exists ld,
    assignLayers (buildGraph nodes edges (make_nodesMap nodes))
      (make_nodesMap nodes) = Some ld
    /\ forall e, In e edges ->
         exists lu lv,
           get (e_from e) (ld_nodeLayers ld) = Some lu
           /\ get (e_to e) (ld_nodeLayers ld) = Some lv
           /\ (lu < lv)%Z.
Proof.
  intros Hvalid Hacyc.
  destruct (forward_pass_inv nodes edges (make_nodesMap nodes))
    as (st & Hf & Hinv & Hend).
  pose proof (forward_pass_exhaustive _ _ _ _ Hacyc Hf) as Hall.
  rewrite (kept_edges_all _ _ Hvalid) in Hinv.
  unfold assignLayers. rewrite Hf.
  rewrite place_leftover_noop.
  - eexists. split; [reflexivity|]. cbn [ld_layers ld_nodeLayers].
    intros e He. destruct (Hvalid e He) as [Hfrom Hto].
    destruct (inv_edges _ _ _ _ Hinv e He (Hall _ Hto)) as [Hq Hlt].
    unfold layerOf in Hlt.
    destruct (get (e_from e) (nodeLayers st)) as [lu|] eqn:Eu;
      [|now apply (inv_layer _ _ _ _ Hinv) in Hq].
    destruct (get (e_to e) (nodeLayers st)) as [lv|] eqn:Ev;
      [|now apply (inv_layer _ _ _ _ Hinv) in Ev; [|apply Hall]].
    exists lu, lv. auto.
  - intros n Hn. apply nodesMap_value_ids in Hn. apply Hall in Hn.
    apply (inv_layer _ _ _ _ Hinv) in Hn. unfold has.
    now destruct (get (id n) (nodeLayers st)).
Qed.

(** *** The layer keys in ascending order *)

Lemma insert_key_sorted k ks :
  StronglySorted Z.le ks -> StronglySorted Z.le (insert_key k ks).
Proof.
  induction ks as [|k' ks IH]; cbn [insert_key]; intro Hs.
  - repeat constructor.
  - inversion Hs as [|? ? Hks Hall]; subst.
    destruct (k <=? k')%Z eqn:E.
    + apply Z.leb_le in E. constructor; [assumption|].
      constructor; [assumption|].
      eapply Forall_impl; [|exact Hall]. intros a Ha. lia.
    + apply Z.leb_gt in E. constructor; [now apply IH|].
      assert (Hin : forall a, In a (insert_key k ks) -> (k' <= a)%Z).
      { intros a Ha.
        apply (Permutation_in _ (FlowchartRender.insert_key_perm k ks)) in Ha.
        destruct Ha as [<- | Ha]; [lia|].
        rewrite Forall_forall in Hall. now apply Hall. }
      apply Forall_forall. exact Hin.
Qed.

Lemma sort_keys_sorted ks : StronglySorted Z.le (sort_keys ks).
Proof.
  induction ks as [|k ks IH]; cbn; [constructor|].
  now apply insert_key_sorted.
Qed.

Lemma sorted_nth (l : list Z) : forall i j a b,
  StronglySorted Z.le l ->
  nth_error l i = Some a -> nth_error l j = Some b ->
  (i < j)%nat -> (a <= b)%Z.
Proof.
  induction l as [|x l IH]; intros i j a b Hs Hi Hj Hlt.
  - destruct i; discriminate.
  - inversion Hs as [|? ? Hl Hall]; subst.
    destruct j as [|j]; [lia|]. cbn in Hj.
    destruct i as [|i].
    + cbn in Hi. injection Hi as <-.
      rewrite Forall_forall in Hall. apply Hall.
      eapply nth_error_In; eassumption.
    + cbn in Hi. apply (IH i j); try assumption. lia.
Qed.

Lemma Qnat_le a b : (a <= b)%nat -> Qnat a <= Qnat b.
Proof.
  intro Hle. unfold Qnat, Qle. cbn. lia.
Qed.

(** *** Rows *)

Lemma position_layers_rows nodesMap layers ks : forall currentY ps,
  (forall k n, get k nodesMap = Some n -> id n = k) ->
  position_layers nodesMap layers ks currentY = Some ps ->
  Forall (fun p => exists i k,
            nth_error ks i = Some k
            /\ In (id p) (layer_ids layers k)
            /\ y p == currentY + Qnat i * (NODE_HEIGHT + V_GAP)) ps.
Proof.
  induction ks as [|k ks IH]; intros currentY ps Hid Hp;
    cbn [position_layers] in Hp.
  - inversion Hp; subst. constructor.
  - destruct (get k layers) as [ids|] eqn:Ek; [|discriminate].
    destruct (place_layer nodesMap _ currentY 0 ids) as [here|] eqn:Ehere;
      [|discriminate].
    destruct (position_layers nodesMap layers ks _) as [below|] eqn:Ebelow;
      [|discriminate].
    inversion Hp; subst ps. clear Hp.
    destruct (FlowchartRender.place_layer_spec _ _ _ _ _ _ Ehere) as (Hhere & _).
    pose proof (FlowchartRender.place_layer_ids _ _ _ _ _ _ Hid Ehere) as Hids.
    apply Forall_app. split.
    + apply Forall_forall. intros p Hin.
      rewrite Forall_forall in Hhere. destruct (Hhere p Hin) as [Hy _].
      exists 0%nat, k. split; [reflexivity|]. split.
      * unfold layer_ids. rewrite Ek, <- Hids. now apply in_map.
      * rewrite Hy. change (Qnat 0) with 0. ring.
    + eapply Forall_impl; [|exact (IH _ _ Hid Ebelow)].
      intros p (i & k' & Hn & Hin & Hy).
      exists (S i), k'. split; [exact Hn|]. split; [exact Hin|].
      rewrite Hy, FlowchartRender.Qnat_succ. ring.
Qed.

Section Down.

Variable getComputedTextLength : string -> Q -> string -> Q.

(** X9. In a flowchart whose edges join known nodes and form no cycle,
    every arrow points down: the box of the target of an edge is at
    least a node height plus the vertical gap below the box of its
    source. *)
Theorem acyclic_flowchart_edges_point_down (nodes : list node)
    (edges : list edge) :
  (forall e, In e edges ->
     In (e_from e) (map n_id nodes) /\ In (e_to e) (map n_id nodes)) ->
  acyclic edges ->
  exists ps s vb,
    renderFlowchart getComputedTextLength (mkData (Some nodes) (Some edges))
    = Success s vb
    /\ sc_rects s = map node_rect ps
    /\ forall e pu pv,
         In e edges -> In pu ps -> In pv ps ->
         id pu = e_from e -> id pv = e_to e ->
         y pu + (NODE_HEIGHT + V_GAP) <= y pv.
Proof.
  intros Hvalid Hacyc.
  destruct (acyclic_layers_increase nodes edges Hvalid Hacyc)
    as (ld & Ha & Hedges).
  destruct (LayeringMore.assignLayers_result nodes edges)
    as (ld' & Ha' & [_ Hof] & [Hndk _] & _).
  rewrite Ha in Ha'. injection Ha' as <-.
  destruct (FlowchartRender.positionNodes_result nodes edges)
    as (ld' & ps & Ha' & Hp & _).
  rewrite Ha in Ha'. injection Ha' as <-.
  exists ps. unfold renderFlowchart. cbn [d_nodes d_edges]. rewrite Ha, Hp.
  do 2 eexists. split; [reflexivity|].
  split; [apply (FlowchartRender.draw_edges_scene ps edges)|].
  intros e pu pv He Hpu Hpv Hu Hv.
  destruct (Hedges e He) as (lu & lv & Hlu & Hlv & Hlt).
  unfold positionNodes in Hp.
  pose proof (position_layers_rows _ _ _ _ _
                (LayeringMore.nodesMap_entry_id nodes) Hp) as Hrows.
  rewrite Forall_forall in Hrows.
  destruct (Hrows pu Hpu) as (iu & ku & Hnu & Hinu & Hyu).
  destruct (Hrows pv Hpv) as (iv & kv & Hnv & Hinv & Hyv).
  assert (Hk : forall p k l, In (id p) (layer_ids (ld_layers ld) k) ->
                 get (id p) (ld_nodeLayers ld) = Some l -> k = l).
  { intros p k l Hin Hg. unfold layer_ids in Hin.
    destruct (get k (ld_layers ld)) as [ids|] eqn:Ek; [|destruct Hin].
    rewrite (Hof _ _ _ Ek Hin) in Hg. congruence. }
  rewrite Hu in Hinu. rewrite Hv in Hinv.
  assert (ku = lu) by (apply (Hk pu); [now rewrite Hu | now rewrite Hu]).
  assert (kv = lv) by (apply (Hk pv); [now rewrite Hv | now rewrite Hv]).
  subst ku kv.
  assert (Hsorted := sort_keys_sorted (keys (ld_layers ld))).
  assert (Hnd : NoDup (sort_keys (keys (ld_layers ld)))).
  { eapply Permutation_NoDup;
      [symmetry; apply FlowchartRender.sort_keys_perm | exact Hndk]. }
  assert (Hi : (iu < iv)%nat).
  { destruct (Nat.lt_trichotomy iu iv) as [? | [-> | Hgt]]; [assumption| |].
    - rewrite Hnu in Hnv. injection Hnv as ->. lia.
    - pose proof (sorted_nth _ _ _ _ _ Hsorted Hnv Hnu Hgt). lia. }
  rewrite Hyu, Hyv.
  assert (Hq : Qnat iu + 1 <= Qnat iv).
  { rewrite <- FlowchartRender.Qnat_succ. apply Qnat_le. lia. }
  unfold NODE_HEIGHT, V_GAP. nra.
Qed.

End Down.

Lemma acyclic_flowchart_witness :
  exists ps s vb,
    renderFlowchart approximateTextLength
      (mkData (Some abc_nodes) (Some chain_edges))
    = Success s vb
    /\ sc_rects s = map node_rect ps
    /\ forall e pu pv,
         In e chain_edges -> In pu ps -> In pv ps ->
         id pu = e_from e -> id pv = e_to e ->
         y pu + (NODE_HEIGHT + V_GAP) <= y pv.
Proof.
  apply (acyclic_flowchart_edges_point_down approximateTextLength
           abc_nodes chain_edges).
  - intros e [<- | [<- | []]]; cbn; auto.
  - exact FlowchartExamples.chain_acyclic.
Defined.

End FlowchartDown.

(** ** Sequence layout: slots, rows and diagnostics *)

Module SequenceMore.
Import Sequence SequenceSpec RenderFacts.

Lemma participantSpacing_min n : 200 <= participantSpacing n.
Proof.
  unfold participantSpacing. apply Q.le_max_l.
Qed.

(** *** Slots *)

Lemma assign_slots_fold_positive spacing participants :
  0 <= spacing ->
  forall (m : JSMap.t string Q) x0,
    110 <= x0 ->
    (forall p x, get p m = Some x -> 110 <= x) ->
    forall p x,
      get p (fst (fold_left
                    (fun (st : JSMap.t string Q * Q) p =>
                       let '(m, currentX) := st in
                       (set p currentX m,
                        currentX + (PARTICIPANT_WIDTH + spacing)))
                    participants (m, x0))) = Some x ->
      110 <= x.
Proof.
  intro Hsp. induction participants as [|p0 ps IH]; intros m x0 Hx0 Hm p x;
    cbn [fold_left].
  - cbn. apply Hm.
  - apply IH.
    + unfold PARTICIPANT_WIDTH. lra.
    + intros p' x'. destruct (string_dec p0 p') as [<- | Hne].
      * rewrite get_set_eq. intros [= <-]. exact Hx0.
      * rewrite get_set_neq by assumption. apply Hm.
Qed.

Lemma assign_slots_positive n participants p x :
  get p (assign_slots (participantSpacing n) participants) = Some x ->
  110 <= x.
Proof.
  unfold assign_slots. apply assign_slots_fold_positive.
  - pose proof (participantSpacing_min n). lra.
  - unfold HORIZONTAL_MARGIN, PARTICIPANT_WIDTH.
    assert (H : 120 / 2 == 60) by reflexivity. lra.
  - intros p' x'. cbn. discriminate.
Qed.

Lemma slot_nonzero x : 110 <= x -> Qeq_bool x 0 = false.
Proof.
  intro Hx. destruct (Qeq_bool x 0) eqn:E; [|reflexivity].
  apply Qeq_bool_iff in E. lra.
Qed.

Lemma assign_slots_fold_get spacing participants : forall (m : JSMap.t string Q) i p,
  ~ In p participants ->
  get p (fst (fold_left
                (fun (st : JSMap.t string Q * Q) p =>
                   let '(m, currentX) := st in
                   (set p currentX m,
                    currentX + (PARTICIPANT_WIDTH + spacing)))
                participants (m, slot_x spacing i)))
  = get p m.
Proof.
  induction participants as [|p0 ps IH]; intros m i p Hp; cbn [fold_left];
    [reflexivity|].
  change (slot_x spacing i + (PARTICIPANT_WIDTH + spacing))
    with (slot_x spacing (S i)).
  rewrite IH by (intro; apply Hp; now right).
  apply get_set_neq. intros ->. apply Hp. now left.
Qed.

Lemma header_slots_fold spacing participants : forall (m : JSMap.t string Q) i,
  NoDup participants ->
  header_slots
    (fst (fold_left
            (fun (st : JSMap.t string Q * Q) p =>
               let '(m, currentX) := st in
               (set p currentX m,
                currentX + (PARTICIPANT_WIDTH + spacing)))
            participants (m, slot_x spacing i)))
    participants
  = Some (combine participants
            (map (slot_x spacing) (seq i (List.length participants)))).
Proof.
  induction participants as [|p0 ps IH]; intros m i Hnd; [reflexivity|].
  inversion Hnd as [|? ? Hnotin Hnd']; subst.
  cbn [fold_left List.length seq map combine].
  change (slot_x spacing i + (PARTICIPANT_WIDTH + spacing))
    with (slot_x spacing (S i)).
  cbn [header_slots].
  rewrite (assign_slots_fold_get spacing ps _ (S i) p0 Hnotin), get_set_eq.
  now rewrite IH.
Qed.

(** X10. With distinct participants the slots are evenly spaced from left
    to right: the [i]-th participant sits at
    [110 + i * (PARTICIPANT_WIDTH + spacing)], and the spacing between
    two headers is at least 200. *)
Theorem participant_slots_evenly_spaced (participants : list string) :
  NoDup participants ->
  let spacing := participantSpacing (List.length participants) in
  header_slots (assign_slots spacing participants) participants
  = Some (combine participants
            (map (slot_x spacing) (seq 0 (List.length participants))))
  /\ 200 <= spacing
  /\ forall i, slot_x spacing i == 110 + Qnat i * (120 + spacing).
Proof.
  intros Hnd spacing. split; [|split].
  - unfold assign_slots. now apply (header_slots_fold spacing participants [] 0%nat).
  - apply participantSpacing_min.
  - induction i as [|i IH]; cbn [slot_x].
    + unfold HORIZONTAL_MARGIN, PARTICIPANT_WIDTH.
      change (Qnat 0) with 0.
      assert (H : 120 / 2 == 60) by reflexivity. rewrite H. ring.
    + rewrite IH, FlowchartRender.Qnat_succ. unfold PARTICIPANT_WIDTH. ring.
Qed.

Lemma participant_slots_witness :
  header_slots
    (assign_slots (participantSpacing 3) sample_participants)
    sample_participants
  = Some (combine sample_participants
            (map (slot_x (participantSpacing 3)) (seq 0 3)))
  /\ 200 <= participantSpacing 3
  /\ forall i, slot_x (participantSpacing 3) i
               == 110 + Qnat i * (120 + participantSpacing 3).
Proof.
  apply (participant_slots_evenly_spaced sample_participants).
  repeat constructor; cbn; intuition discriminate.
Defined.

(** *** Message rows *)

Lemma assign_slots_dom spacing participants p :
  In p (keys (assign_slots spacing participants)) <-> In p participants.
Proof.
  exact (assign_slots_keys approximateTextLength (fun _ _ => 0%Z)
           spacing participants p).
Qed.

Section Rows.

Variable getComputedTextLength : string -> Q -> string -> Q.

Lemma row_ys_message_y n : forall k,
  row_ys (message_y k) n = map message_y (seq (S k) n).
Proof.
  induction n as [|n IH]; intro k; cbn [row_ys seq map]; [reflexivity|].
  change (message_y k + MESSAGE_HEIGHT) with (message_y (S k)).
  now rewrite IH.
Qed.

Lemma message_y_closed k : message_y k == 80 + 60 * Qnat k.
Proof.
  induction k as [|k IH]; cbn [message_y].
  - unfold LIFELINE_Y_START. change (Qnat 0) with 0. ring.
  - rewrite IH, FlowchartRender.Qnat_succ. unfold MESSAGE_HEIGHT. ring.
Qed.

(** A drawn message never adds a diagnostic when every slot is
    positive. *)
Lemma draw_messages_no_warning participantX messages : forall st st',
  (forall p x, get p participantX = Some x -> 110 <= x) ->
  draw_messages getComputedTextLength participantX st messages = inr st' ->
  ms_warnings st' = ms_warnings st.
Proof.
  induction messages as [|m messages IH]; intros st st' Hpos Hd;
    cbn [draw_messages] in Hd.
  - now inversion Hd.
  - destruct (draw_message getComputedTextLength participantX st m)
      as [exn | st1] eqn:Hm; [discriminate|].
    rewrite (IH _ _ Hpos Hd). unfold draw_message in Hm.
    destruct (get (m_from m) participantX) as [fromX|] eqn:Ef; [|discriminate].
    destruct (get (m_to m) participantX) as [toX|] eqn:Et; [|discriminate].
    rewrite (slot_nonzero fromX), (slot_nonzero toX) in Hm by eauto.
    cbn [orb] in Hm. inversion Hm; subst st1. reflexivity.
Qed.

(** Messages between known participants are all drawn, one row each. *)
Lemma draw_messages_rows participantX messages : forall st,
  (forall p x, get p participantX = Some x -> 110 <= x) ->
  (forall m, In m messages ->
     get (m_from m) participantX <> None /\ get (m_to m) participantX <> None) ->
  maxMessageY st == currentY st ->
  exists st',
    draw_messages getComputedTextLength participantX st messages = inr st'
    /\ map path_ys (ms_paths st')
       = map path_ys (ms_paths st)
         ++ map (fun y => [y; y]) (row_ys (currentY st) (List.length messages))
    /\ maxMessageY st' == currentY st'
    /\ currentY st' == currentY st + 60 * Qnat (List.length messages).
Proof.
  induction messages as [|m messages IH]; intros st Hpos Hknown Hmax.
  - exists st. cbn. rewrite app_nil_r. repeat split; auto.
    change (Qnat 0) with 0. ring.
  - cbn [draw_messages].
    destruct (Hknown m (or_introl eq_refl)) as [Hf Ht].
    unfold draw_message.
    destruct (get (m_from m) participantX) as [fromX|] eqn:Ef; [|congruence].
    destruct (get (m_to m) participantX) as [toX|] eqn:Et; [|congruence].
    rewrite (slot_nonzero fromX), (slot_nonzero toX) by eauto.
    cbn [orb].
    match goal with |- context [draw_messages _ _ ?s messages] =>
      destruct (IH s Hpos) as (st' & Hd & Hys & Hmax' & Hcur) end.
    { intros m' Hm'. apply Hknown. now right. }
    { cbn [maxMessageY currentY]. apply Q.max_r.
      rewrite Hmax. unfold MESSAGE_HEIGHT. lra. }
    exists st'. split; [exact Hd|].
    cbn [ms_paths currentY maxMessageY] in Hys, Hcur.
    split; [|split; [exact Hmax'|]].
    + rewrite Hys, map_app. cbn [map List.length row_ys].
      rewrite <- app_assoc. reflexivity.
    + rewrite Hcur. cbn [List.length]. rewrite FlowchartRender.Qnat_succ.
      unfold MESSAGE_HEIGHT. ring.
Qed.

Lemma skipn_length_app {A} (l1 l2 : list A) n :
  n = List.length l1 -> skipn n (l1 ++ l2) = l2.
Proof.
  intros ->. induction l1 as [|a l1 IH]; cbn; auto.
Qed.

Lemma lifelines_length slots y2 :
  List.length (lifelines slots y2) = List.length slots.
Proof.
  induction slots as [|[p x] slots IH]; cbn; [reflexivity | now rewrite IH].
Qed.

Lemma header_slots_length participantX participants slots :
  header_slots participantX participants = Some slots ->
  List.length slots = List.length participants.
Proof.
  revert slots. induction participants as [|p ps IH]; intros slots;
    cbn [header_slots].
  - now intros [= <-].
  - destruct (get p participantX); [|discriminate].
    destruct (header_slots participantX ps) as [hs|]; [|discriminate].
    intros [= <-]. cbn. f_equal. now apply IH.
Qed.

Lemma renderSequence_no_warning (d : data) :
  match renderSequence getComputedTextLength d with
  | Success s _ => sc_warnings s = []
  | Failure _ | Throws _ => True
  end.
Proof.
  unfold renderSequence.
  destruct (d_participants d) as [participants|]; [|exact I].
  destruct (d_messages d) as [messages|]; [|exact I].
  destruct (List.length participants =? 0)%nat; [reflexivity|].
  destruct (header_slots _ participants) as [slots|]; [|exact I].
  destruct (draw_messages _ _ _ messages) as [exn | st] eqn:Hd; [exact I|].
  cbn [sc_warnings].
  apply draw_messages_no_warning in Hd; [exact Hd|].
  intros p x. apply assign_slots_positive.
Qed.

(** X11. [renderSequence] never records the diagnostic of its guard: every
    slot is at x >= 110, so [!fromX || !toX] is never true and a scene
    that is returned carries no warning. *)
Theorem renderSequence_guard_never_fires (d : data) :
  match renderSequence getComputedTextLength d with
  | Success s _ => sc_warnings s = []
  | Failure _ | Throws _ => True
  end.
Proof. exact (renderSequence_no_warning d). Qed.

Lemma renderSequence_rows (participants : list string)
    (messages : list message) :
  participants <> [] ->
  Forall (known_message participants) messages ->
  exists s w h,
    renderSequence getComputedTextLength
      (mkData (Some participants) (Some messages))
    = Success s (mkViewBox (Num 0) (Num 0) (Num w) (Num h))
    /\ map path_ys (skipn (List.length participants) (sc_paths s))
       = map (fun k => [message_y k; message_y k])
             (seq 1 (List.length messages))
    /\ (forall k, message_y k == 80 + 60 * Qnat k)
    /\ h == 130 + 60 * Qnat (List.length messages).
Proof.
  intros Hne Hknown. unfold renderSequence.
  cbn [d_participants d_messages].
  destruct participants as [|p0 ps]; [congruence|].
  cbn [List.length Nat.eqb].
  set (participants := p0 :: ps) in *.
  set (participantX := assign_slots _ participants).
  destruct (header_slots_defined participantX participants) as [slots Hs].
  { intros p Hp. unfold participantX. apply assign_slots_dom. exact Hp. }
  rewrite Hs.
  destruct (draw_messages_rows participantX messages
              (mkMsgState LIFELINE_Y_START LIFELINE_Y_START [] [] []))
    as (st & Hd & Hys & Hmax & Hcur).
  { intros p x. apply assign_slots_positive. }
  { rewrite Forall_forall in Hknown. intros m Hm.
    destruct (Hknown m Hm) as [Hf Ht].
    split; intro Hn; apply get_None_iff in Hn; apply Hn;
      unfold participantX; apply assign_slots_dom; assumption. }
  { apply Qeq_refl. }
  rewrite Hd. do 3 eexists. split; [reflexivity|].
  cbn [sc_paths ms_paths currentY map app] in *.
  split; [|split; [exact message_y_closed|]].
  - rewrite skipn_length_app
      by (rewrite lifelines_length; symmetry;
          exact (header_slots_length _ _ _ Hs)).
    rewrite Hys. cbn [map app]. change LIFELINE_Y_START with (message_y 0).
    rewrite row_ys_message_y, map_map. reflexivity.
  - rewrite Hmax, Hcur. unfold LIFELINE_Y_START, LIFELINE_OFFSET. ring.
Qed.

(** X12. When every message names declared participants, the layout
    succeeds and the message arrows are horizontal, one row of 60 below
    the other in input order: the [k]-th arrow is at y = 80 + 60 k, after
    the lifelines in the scene; the viewport is 130 + 60 n high for [n]
    messages. *)
Theorem renderSequence_message_rows (participants : list string)
    (messages : list message) :
  participants <> [] ->
  Forall (known_message participants) messages ->
  exists s w h,
    renderSequence getComputedTextLength
      (mkData (Some participants) (Some messages))
    = Success s (mkViewBox (Num 0) (Num 0) (Num w) (Num h))
    /\ map path_ys (skipn (List.length participants) (sc_paths s))
       = map (fun k => [message_y k; message_y k])
             (seq 1 (List.length messages))
    /\ (forall k, message_y k == 80 + 60 * Qnat k)
    /\ h == 130 + 60 * Qnat (List.length messages).
Proof. exact (renderSequence_rows participants messages). Qed.

(** *** Arrows and lifelines *)

Lemma header_slots_in participantX participants : forall slots p x,
  header_slots participantX participants = Some slots ->
  In p participants -> get p participantX = Some x -> In (p, x) slots.
Proof.
  induction participants as [|p0 ps IH]; intros slots p x Hs Hin Hg;
    [destruct Hin|].
  cbn [header_slots] in Hs.
  destruct (get p0 participantX) as [x0|] eqn:E0; [|discriminate].
  destruct (header_slots participantX ps) as [hs|]; [|discriminate].
  injection Hs as <-. destruct Hin as [-> | Hin].
  - left. congruence.
  - right. now apply IH.
Qed.

Lemma header_slots_names participantX participants : forall slots,
  header_slots participantX participants = Some slots ->
  map fst slots = participants.
Proof.
  induction participants as [|p0 ps IH]; intros slots Hs;
    cbn [header_slots] in Hs.
  - now injection Hs as <-.
  - destruct (get p0 participantX); [|discriminate].
    destruct (header_slots participantX ps) as [hs|]; [|discriminate].
    injection Hs as <-. cbn. f_equal. now apply IH.
Qed.

Lemma lifelines_distinct slots y2 :
  NoDup (map fst slots) -> lifelines slots y2 = map (lifeline_at y2) slots.
Proof.
  induction slots as [|[p x] slots IH]; intro Hnd; [reflexivity|].
  inversion Hnd as [|? ? Hnotin Hnd']; subst. cbn [lifelines map].
  rewrite IH by assumption. f_equal.
  destruct (existsb _ slots) eqn:E; [|reflexivity].
  exfalso. apply Hnotin. apply existsb_exists in E.
  destruct E as ([p' x'] & Hin & Heq). cbn in Heq.
  apply String.eqb_eq in Heq. subst p'.
  change p with (fst (p, x')). now apply in_map.
Qed.

Lemma draw_messages_arrows participantX participants slots messages :
  header_slots participantX participants = Some slots ->
  (forall p x, get p participantX = Some x -> 110 <= x) ->
  Forall (known_message participants) messages ->
  forall st st',
    draw_messages getComputedTextLength participantX st messages = inr st' ->
    exists arrows,
      ms_paths st' = ms_paths st ++ arrows
      /\ Forall2 (arrow_of slots) messages arrows.
Proof.
  intros Hslots Hpos.
  induction messages as [|m messages IH]; intros Hknown st st' Hd;
    cbn [draw_messages] in Hd.
  - injection Hd as <-. exists []. rewrite app_nil_r. split; constructor.
  - inversion Hknown as [|? ? [Hf Ht] Hrest]; subst.
    destruct (draw_message getComputedTextLength participantX st m)
      as [exn | st1] eqn:Hm; [discriminate|].
    destruct (IH Hrest _ _ Hd) as (arrows & Hp & Ha).
    unfold draw_message in Hm.
    destruct (get (m_from m) participantX) as [fromX|] eqn:Ef; [|discriminate].
    destruct (get (m_to m) participantX) as [toX|] eqn:Et; [|discriminate].
    rewrite (slot_nonzero fromX), (slot_nonzero toX) in Hm by eauto.
    cbn [orb] in Hm. injection Hm as <-. cbn [ms_paths] in Hp.
    eexists. split; [rewrite Hp, <- app_assoc; reflexivity|].
    constructor; [|exact Ha].
    exists fromX, toX, (currentY st + MESSAGE_HEIGHT).
    split; [eapply header_slots_in; eassumption|].
    split; [eapply header_slots_in; eassumption|].
    cbn. auto.
Qed.

(** X13. With distinct participants every arrow joins two lifelines: the
    scene holds one lifeline per participant, at its slot, from y = 80
    down to 20 below the last message row, followed by one arrow per
    message, in input order, from the slot of the sender to the slot of
    the receiver, with the reply arrowhead exactly for a text that
    starts with three digits and white space. *)
Theorem renderSequence_arrows_join_lifelines (participants : list string)
    (messages : list message) :
  participants <> [] ->
  NoDup participants ->
  Forall (known_message participants) messages ->
  exists s vb slots y2 arrows,
    renderSequence getComputedTextLength
      (mkData (Some participants) (Some messages))
    = Success s vb
    /\ map fst slots = participants
    /\ sc_rects s = map (fun slot => header_rect (snd slot)) slots
    /\ sc_paths s = map (lifeline_at y2) slots ++ arrows
    /\ y2 == 100 + 60 * Qnat (List.length messages)
    /\ Forall2 (arrow_of slots) messages arrows.
Proof.
  intros Hne Hnd Hknown. unfold renderSequence.
  cbn [d_participants d_messages].
  destruct participants as [|p0 ps]; [congruence|].
  cbn [List.length Nat.eqb].
  set (participants := p0 :: ps) in *.
  set (participantX := assign_slots _ participants).
  destruct (header_slots_defined participantX participants) as [slots Hs].
  { intros p Hp. unfold participantX. apply assign_slots_dom. exact Hp. }
  rewrite Hs.
  assert (Hpos : forall p x, get p participantX = Some x -> 110 <= x).
  { intros p x. apply assign_slots_positive. }
  destruct (draw_messages_rows participantX messages
              (mkMsgState LIFELINE_Y_START LIFELINE_Y_START [] [] []))
    as (st & Hd & _ & Hmax & Hcur); [exact Hpos| |apply Qeq_refl|].
  { rewrite Forall_forall in Hknown. intros m Hm.
    destruct (Hknown m Hm) as [Hf Ht].
    split; intro Hn; apply get_None_iff in Hn; apply Hn;
      unfold participantX; apply assign_slots_dom; assumption. }
  rewrite Hd.
  destruct (draw_messages_arrows participantX participants slots messages
              Hs Hpos Hknown _ _ Hd) as (arrows & Hp & Ha).
  cbn [ms_paths app] in Hp.
  pose proof (header_slots_names _ _ _ Hs) as Hnames.
  do 2 eexists. exists slots, (maxMessageY st + LIFELINE_OFFSET), arrows.
  split; [reflexivity|]. cbn [sc_rects sc_paths].
  split; [exact Hnames|]. split; [reflexivity|].
  split; [rewrite lifelines_distinct by (rewrite Hnames; exact Hnd);
          now rewrite Hp|].
  split; [|exact Ha].
  cbn [currentY] in Hcur. rewrite Hmax, Hcur.
  unfold LIFELINE_Y_START, LIFELINE_OFFSET. ring.
Qed.

(** *** The viewport *)

Lemma slot_x_closed spacing i :
  slot_x spacing i == 110 + Qnat i * (120 + spacing).
Proof.
  induction i as [|i IH]; cbn [slot_x].
  - unfold HORIZONTAL_MARGIN, PARTICIPANT_WIDTH.
    change (Qnat 0) with 0.
    assert (H : 120 / 2 == 60) by reflexivity. rewrite H. ring.
  - rewrite IH, FlowchartRender.Qnat_succ. unfold PARTICIPANT_WIDTH. ring.
Qed.

Lemma in_combine_slots (participants : list string) spacing p x :
  In (p, x) (combine participants
               (map (slot_x spacing) (seq 0 (List.length participants)))) ->
  exists i, (i < List.length participants)%nat /\ x = slot_x spacing i.
Proof.
  intro Hin. apply in_combine_r in Hin. apply in_map_iff in Hin.
  destruct Hin as (i & <- & Hi). apply in_seq in Hi.
  exists i. split; [lia | reflexivity].
Qed.

(** X14. With distinct participants the viewport of [renderSequence]
    holds the whole diagram: every header box lies inside it, 50 or more
    from its left and right edges, and every lifeline ends 30 above its
    bottom edge. *)
Theorem renderSequence_viewBox_covers (participants : list string)
    (messages : list message) :
  participants <> [] ->
  NoDup participants ->
  Forall (known_message participants) messages ->
  exists s w h,
    renderSequence getComputedTextLength
      (mkData (Some participants) (Some messages))
    = Success s (mkViewBox (Num 0) (Num 0) (Num w) (Num h))
    /\ sc_rects s <> []
    /\ Forall (fun r => 50 <= r_x r /\ r_x r + r_width r + 50 <= w
                        /\ 0 <= r_y r /\ r_y r + r_height r <= h)
         (sc_rects s)
    /\ Forall (fun line => forall pt, In pt (path_points line) ->
                           p_y pt + 30 <= h)
         (firstn (List.length participants) (sc_paths s)).
Proof.
  intros Hne Hnd Hknown. unfold renderSequence.
  cbn [d_participants d_messages].
  destruct participants as [|p0 ps]; [congruence|].
  cbn [List.length Nat.eqb].
  set (participants := p0 :: ps) in *.
  set (n := S (List.length ps)).
  set (spacing := participantSpacing n).
  set (participantX := assign_slots spacing participants).
  assert (Hs : header_slots participantX participants
               = Some (combine participants
                         (map (slot_x spacing) (seq 0 n)))).
  { unfold participantX, assign_slots.
    exact (header_slots_fold spacing participants [] 0%nat Hnd). }
  rewrite Hs.
  assert (Hpos : forall p x, get p participantX = Some x -> 110 <= x).
  { intros p x. apply assign_slots_positive. }
  destruct (draw_messages_rows participantX messages
              (mkMsgState LIFELINE_Y_START LIFELINE_Y_START [] [] []))
    as (st & Hd & _ & Hmax & Hcur); [exact Hpos| |apply Qeq_refl|].
  { rewrite Forall_forall in Hknown. intros m Hm.
    destruct (Hknown m Hm) as [Hf Ht].
    split; intro Hn; apply get_None_iff in Hn; apply Hn;
      unfold participantX; apply assign_slots_dom; assumption. }
  rewrite Hd. do 3 eexists. split; [reflexivity|].
  cbn [sc_rects sc_paths currentY] in *.
  pose proof (participantSpacing_min n) as Hsp. fold spacing in Hsp.
  pose proof (FlowchartRender.Qnat_nonneg (List.length messages)) as Hm0.
  split; [discriminate|]. split.
  - apply Forall_map. apply Forall_forall. intros [p x] Hin.
    destruct (in_combine_slots participants spacing p x Hin) as (i & Hi & ->).
    unfold header_rect. cbn [snd r_x r_y r_width r_height].
    pose proof (slot_x_closed spacing i) as Hx.
    pose proof (FlowchartRender.Qnat_nonneg i) as Hi0.
    assert (Hle : Qnat i + 1 <= Qnat n).
    { rewrite <- FlowchartRender.Qnat_succ. apply FlowchartDown.Qnat_le.
      unfold n. unfold participants in Hi. cbn [List.length] in Hi. lia. }
    unfold PARTICIPANT_WIDTH, PARTICIPANT_HEIGHT, HORIZONTAL_MARGIN,
      LIFELINE_Y_START, LIFELINE_OFFSET in *.
    assert (Hhalf : 120 / 2 == 60) by reflexivity.
    assert (Hprod : 0 <= (Qnat n - 1 - Qnat i) * (120 + spacing))
      by (apply Qmult_le_0_compat; lra).
    assert (Hprod' : 0 <= Qnat i * (120 + spacing))
      by (apply Qmult_le_0_compat; lra).
    repeat split; lra.
  - rewrite firstn_app, lifelines_length, length_combine, length_map,
      length_seq.
    replace (n - Nat.min (List.length participants) n)%nat with 0%nat
      by (unfold n, participants; cbn [List.length]; lia).
    rewrite firstn_O, app_nil_r.
    rewrite firstn_all2
      by (rewrite lifelines_length, length_combine, length_map, length_seq;
          unfold n, participants; cbn [List.length]; lia).
    rewrite lifelines_distinct.
    2:{ rewrite (header_slots_names _ _ _ Hs). exact Hnd. }
    apply Forall_map. apply Forall_forall. intros slot _ pt Hpt.
    unfold lifeline_at in Hpt. cbn [path_points In] in Hpt.
    unfold LIFELINE_Y_START, LIFELINE_OFFSET in *.
    destruct Hpt as [<- | [<- | []]]; cbn [p_y]; rewrite Hmax, Hcur; lra.
Qed.

End Rows.

Lemma renderSequence_viewBox_witness :
  exists s w h,
    renderSequence approximateTextLength
      (mkData (Some sample_participants) (Some sample_messages))
    = Success s (mkViewBox (Num 0) (Num 0) (Num w) (Num h))
    /\ sc_rects s <> []
    /\ Forall (fun r => 50 <= r_x r /\ r_x r + r_width r + 50 <= w
                        /\ 0 <= r_y r /\ r_y r + r_height r <= h)
         (sc_rects s)
    /\ Forall (fun line => forall pt, In pt (path_points line) ->
                           p_y pt + 30 <= h)
         (firstn (List.length sample_participants) (sc_paths s)).
Proof.
  apply (renderSequence_viewBox_covers approximateTextLength
           sample_participants sample_messages).
  - discriminate.
  - unfold sample_participants.
    repeat (apply NoDup_cons; [cbn; intuition discriminate|]). apply NoDup_nil.
  - unfold sample_messages, sample_participants.
    repeat (apply Forall_cons; [split; cbn; tauto|]). apply Forall_nil.
Defined.

Lemma renderSequence_arrows_witness :
  exists s vb slots y2 arrows,
    renderSequence approximateTextLength
      (mkData (Some sample_participants) (Some sample_messages))
    = Success s vb
    /\ map fst slots = sample_participants
    /\ sc_rects s = map (fun slot => header_rect (snd slot)) slots
    /\ sc_paths s = map (lifeline_at y2) slots ++ arrows
    /\ y2 == 100 + 60 * Qnat (List.length sample_messages)
    /\ Forall2 (arrow_of slots) sample_messages arrows.
Proof.
  apply (renderSequence_arrows_join_lifelines approximateTextLength
           sample_participants sample_messages).
  - discriminate.
  - unfold sample_participants.
    repeat (apply NoDup_cons; [cbn; intuition discriminate|]). apply NoDup_nil.
  - unfold sample_messages, sample_participants.
    repeat (apply Forall_cons; [split; cbn; tauto|]). apply Forall_nil.
Defined.

Lemma renderSequence_message_rows_witness :
  exists s w h,
    renderSequence approximateTextLength
      (mkData (Some sample_participants) (Some sample_messages))
    = Success s (mkViewBox (Num 0) (Num 0) (Num w) (Num h))
    /\ map path_ys (skipn (List.length sample_participants) (sc_paths s))
       = map (fun k => [message_y k; message_y k])
             (seq 1 (List.length sample_messages))
    /\ (forall k, message_y k == 80 + 60 * Qnat k)
    /\ h == 130 + 60 * Qnat (List.length sample_messages).
Proof.
  apply (renderSequence_message_rows approximateTextLength
           sample_participants sample_messages).
  - discriminate.
  - unfold sample_messages, sample_participants.
    repeat (apply Forall_cons; [split; cbn; tauto|]). apply Forall_nil.
Defined.

End SequenceMore.

(** ** ERD layout: separation, sizes, relationships and viewport *)

Module ERDMore.
Import JSMap JSMapFacts ERD ERDSpec ViewportFacts.

(** *** The packing loop *)

Lemma place_entity_inv st e :
  0 <= calculatedWidth e -> grid_inv st -> grid_inv (place_entity st e).
Proof.
  intros Hw (HX & HY & HM & Hall & Hpairs).
  unfold place_entity, grid_inv.
  destruct ((0 <? List.length (placedEntities st))%nat
            && overflows (currentX st) (calculatedWidth e));
    cbn [currentX currentY rowMaxHeight placedEntities].
  - (* a new row *)
    pose proof (Q.le_max_l 0 (calculatedHeight e)).
    pose proof (Q.le_max_r 0 (calculatedHeight e)).
    assert (Habove : Forall
              (fun e' => y e' + (calculatedHeight e' + ENTITY_V_GAP)
                         <= currentY st + (rowMaxHeight st + ENTITY_V_GAP))
              (placedEntities st)).
    { eapply Forall_impl; [|exact Hall].
      intros e' (_ & _ & [(Hy & _ & Hh) | Hab]); unfold ENTITY_V_GAP in *.
      - rewrite Hy. lra.
      - lra. }
    unfold ENTITY_H_GAP, ENTITY_V_GAP in *.
    split; [lra|]. split; [lra|]. split; [lra|]. split.
    + apply Forall_app. split.
      * rewrite Forall_forall in *. intros e' He'.
        destruct (Hall e' He') as (Hx' & Hy' & _).
        split; [exact Hx'|]. split; [exact Hy'|]. right. now apply Habove.
      * constructor; [|constructor]. cbn [set_xy x y calculatedWidth calculatedHeight].
        split; [lra|]. split; [lra|]. left.
        split; [reflexivity|]. split; lra.
    + apply FlowchartRender.ForallOrdPairs_app;
        [assumption | constructor; [constructor | constructor] |].
      intros a b Ha [<- | []]. right. cbn [set_xy y].
      rewrite Forall_forall in Habove. now apply Habove.
  - (* the current row *)
    pose proof (Q.le_max_l (rowMaxHeight st) (calculatedHeight e)).
    pose proof (Q.le_max_r (rowMaxHeight st) (calculatedHeight e)).
    unfold ENTITY_H_GAP, ENTITY_V_GAP in *.
    split; [lra|]. split; [lra|]. split; [lra|]. split.
    + apply Forall_app. split.
      * eapply Forall_impl; [|exact Hall].
        intros e' (Hx' & Hy' & [(Hy & Hx & Hh) | Hab]).
        -- split; [exact Hx'|]. split; [exact Hy'|]. left.
           split; [exact Hy|]. split; lra.
        -- split; [exact Hx'|]. split; [exact Hy'|]. now right.
      * constructor; [|constructor]. cbn [set_xy x y calculatedWidth calculatedHeight].
        split; [lra|]. split; [lra|]. left.
        split; [reflexivity|]. split; lra.
    + apply FlowchartRender.ForallOrdPairs_app;
        [assumption | constructor; [constructor | constructor] |].
      intros a b Ha [<- | []]. cbn [set_xy x y].
      rewrite Forall_forall in Hall.
      destruct (Hall a Ha) as (_ & _ & [(Hy & Hx & _) | Hab]).
      * left. split; [exact Hy | exact Hx].
      * now right.
Qed.

Lemma place_entities_inv l : forall st,
  Forall (fun e => 0 <= calculatedWidth e) l ->
  grid_inv st -> grid_inv (fold_left place_entity l st).
Proof.
  induction l as [|e l IH]; intros st Hw Hinv; cbn [fold_left]; [exact Hinv|].
  inversion Hw; subst. apply IH; [assumption|]. now apply place_entity_inv.
Qed.

Lemma place_entities_prefix l : forall st,
  exists tl, placedEntities (fold_left place_entity l st)
             = placedEntities st ++ tl.
Proof.
  induction l as [|e l IH]; intro st; cbn [fold_left].
  - exists []. now rewrite app_nil_r.
  - destruct (IH (place_entity st e)) as [tl Htl]. rewrite Htl.
    unfold place_entity at 1. cbn [placedEntities]. rewrite <- app_assoc. eauto.
Qed.

Lemma ForallOrdPairs_map {A B} (f : A -> B) (R : B -> B -> Prop) l :
  ForallOrdPairs (fun a b => R (f a) (f b)) l -> ForallOrdPairs R (map f l).
Proof.
  induction 1 as [|a l Ha Hl IH]; cbn; constructor; [|assumption].
  now apply Forall_map.
Qed.

Lemma fold_Qmin_glb c xs : forall a,
  c <= a -> Forall (fun x => c <= x) xs -> c <= fold_left Qmin xs a.
Proof.
  induction xs as [|x xs IH]; intros a Ha Hxs; cbn [fold_left]; [exact Ha|].
  inversion Hxs; subst. apply IH; [|assumption].
  apply Q.min_glb; assumption.
Qed.

(** [Math.min] of numbers that are all at least [c], one of them [c]. *)
Lemma Math_min_attained c x xs :
  x == c -> Forall (fun x' => c <= x') xs ->
  exists m, Math_min (x :: xs) = Num m /\ m == c.
Proof.
  intros Hx Hxs. unfold Math_min. cbn [fold_left jmin].
  rewrite fold_jmin_num. eexists. split; [reflexivity|].
  apply Qle_antisym.
  - destruct (fold_Qmin_le xs x) as [Hle _]. lra.
  - apply fold_Qmin_glb; [lra | assumption].
Qed.

Section Layout.

Variable getComputedTextLength : string -> Q -> string -> Q.
Variable localeCompare : string -> string -> Z.

(** The packing keeps placed entities apart and right of and below the
    origin, with the first one at the origin. *)
Lemma layout_apart es :
  Forall (fun e => 0 <= calculatedWidth e) es ->
  let out := layoutEntitiesGrid localeCompare es in
  ForallOrdPairs entities_apart out
  /\ Forall (fun e => 0 <= x e /\ 0 <= y e) out
  /\ Permutation (map unplaced out) (map unplaced es)
  /\ (es <> [] -> exists e tl, out = e :: tl /\ x e = 0 /\ y e = 0).
Proof.
  intros Hw out. subst out. unfold layoutEntitiesGrid.
  destruct es as [|e0 es0].
  { split; [constructor|]. split; [constructor|].
    split; [constructor | congruence]. }
  set (es := e0 :: es0) in *.
  pose proof (ERDPacking.sort_entities_perm localeCompare es) as Hperm.
  assert (Hws : Forall (fun e => 0 <= calculatedWidth e)
                  (sort_entities localeCompare es)).
  { rewrite Forall_forall in *. intros e He. apply Hw.
    eapply Permutation_in; [exact Hperm | exact He]. }
  assert (Hinv0 : grid_inv (mkGrid 0 0 0 [])).
  { unfold grid_inv. cbn. repeat split; try lra; constructor. }
  pose proof (place_entities_inv _ _ Hws Hinv0) as (_ & _ & _ & Hall & Hpairs).
  split; [exact Hpairs|]. split.
  { eapply Forall_impl; [|exact Hall]. cbn beta. tauto. }
  split.
  { rewrite ERDPacking.place_entities_unplaced. cbn [placedEntities map app].
    now apply Permutation_map. }
  intros _. destruct (sort_entities localeCompare es) as [|e l] eqn:Es.
  { apply Permutation_nil in Hperm. discriminate. }
  cbn [fold_left].
  destruct (place_entities_prefix l (place_entity (mkGrid 0 0 0 []) e))
    as [tl Htl].
  rewrite Htl. unfold place_entity at 1. cbn.
  exists (set_xy e 0 0), tl. auto.
Qed.

End Layout.

(** X15. With non-negative widths [layoutEntitiesGrid] never makes two
    entities overlap, whatever the comparator: an entity placed later is
    either in the same row, at least the horizontal gap to the right of
    the earlier one, or in a row that starts at least the vertical gap
    below the bottom of the earlier one; nothing is placed left of or
    above the origin. *)
Theorem layoutEntitiesGrid_keeps_apart
    (localeCompare : string -> string -> Z) (es : list pentity) :
  Forall (fun e => 0 <= calculatedWidth e) es ->
  ForallOrdPairs entities_apart (layoutEntitiesGrid localeCompare es)
  /\ Forall (fun e => 0 <= x e /\ 0 <= y e)
       (layoutEntitiesGrid localeCompare es).
Proof.
  intro Hw. destruct (layout_apart localeCompare es Hw) as (H1 & H2 & _).
  auto.
Qed.

Lemma layoutEntitiesGrid_keeps_apart_witness :
  ForallOrdPairs entities_apart
    (layoutEntitiesGrid codeUnitCompare [users; orders; items])
  /\ Forall (fun e => 0 <= x e /\ 0 <= y e)
       (layoutEntitiesGrid codeUnitCompare [users; orders; items]).
Proof.
  apply (layoutEntitiesGrid_keeps_apart codeUnitCompare [users; orders; items]).
  repeat constructor; cbn; discriminate.
Defined.

(** *** The rendered scene *)

Lemma entry_values {V} (f : V -> string) (m : JSMap.t string V) :
  (forall k v, In (k, v) m -> k = f v) -> map f (values m) = keys m.
Proof.
  unfold values, keys.
  induction m as [|[k v] m IH]; intro Hall; cbn [map]; [reflexivity|].
  cbn [fst snd]. rewrite IH by (intros k' v' Hin; apply Hall; now right).
  f_equal. symmetry. apply Hall. now left.
Qed.

Section Scene.

Variable getComputedTextLength : string -> Q -> string -> Q.
Variable localeCompare : string -> string -> Z.

Lemma size_entity_box ent :
  let p := snd (size_entity getComputedTextLength ent) in
  name p = e_name ent
  /\ attributes p = e_attributes ent
  /\ 150 <= calculatedWidth p <= 300
  /\ calculatedHeight p == 50 + 20 * Qnat (List.length (e_attributes ent))
  /\ 50 <= calculatedHeight p.
Proof.
  unfold size_entity. cbn [snd name attributes calculatedWidth calculatedHeight].
  split; [reflexivity|]. split; [reflexivity|].
  unfold ENTITY_MAX_WIDTH, ENTITY_MIN_WIDTH, ENTITY_HEADER_HEIGHT,
    ATTRIBUTE_HEIGHT, ENTITY_PADDING_Y, ENTITY_PADDING_X.
  set (t := fold_left _ _ _).
  pose proof (FlowchartRender.Qnat_nonneg (List.length (e_attributes ent))).
  split; [|split; [ring | nra]].
  pose proof (Q.le_max_l 150 (t + 15 * 2)).
  pose proof (Q.le_min_l 300 (Qmax 150 (t + 15 * 2))).
  split; [apply Q.min_glb; lra | assumption].
Qed.

Lemma draw_relationships_scene rects rels : forall sc,
  let sc' := fold_left (draw_relationship rects) rels sc in
  sc_rects sc' = sc_rects sc
  /\ map path_markers (sc_paths sc')
     = map path_markers (sc_paths sc)
       ++ map relationship_markers (filter (linked (keys rects)) rels)
  /\ sc_warnings sc'
     = sc_warnings sc
       ++ map missing_entity_warning
            (filter (fun rel => negb (linked (keys rects) rel)) rels).
Proof.
  induction rels as [|rel rels IH]; intro sc; cbn [fold_left filter]; cbv zeta.
  - cbn. now rewrite !app_nil_r.
  - destruct (IH (draw_relationship rects sc rel)) as (Hr & Hp & Hw).
    cbv zeta in Hr, Hp, Hw. rewrite Hr, Hp, Hw. clear Hr Hp Hw IH.
    unfold draw_relationship, linked.
    destruct (Layering.mem (rel_from rel) (keys rects)) eqn:Ef.
    + apply LayeringFacts.mem_true_iff in Ef.
      destruct (in_keys_get _ _ Ef) as [rf ->].
      destruct (Layering.mem (rel_to rel) (keys rects)) eqn:Et.
      * apply LayeringFacts.mem_true_iff in Et.
        destruct (in_keys_get _ _ Et) as [rt ->].
        destruct (getClosestConnectionPoints rf rt) as [start end_].
        cbn. rewrite map_app, <- app_assoc. cbn. auto.
      * apply LayeringFacts.mem_false_iff in Et.
        apply get_None_iff in Et. rewrite Et.
        cbn. rewrite <- app_assoc. auto.
    + apply LayeringFacts.mem_false_iff in Ef.
      apply get_None_iff in Ef. rewrite Ef.
      cbn. rewrite <- app_assoc. auto.
Qed.

(** The shape of the result of [renderERD] when both collections are
    present. *)
Lemma renderERD_result entities relationships :
  exists ps,
    fst (renderERD getComputedTextLength localeCompare
           (mkData (Some entities) (Some relationships)))
    = Success
        (fold_left
           (draw_relationship
              (of_pairs (map (fun e => (name e, entity_rect e)) ps)))
           relationships
           (mkScene (map entity_rect ps)
              (flat_map (entity_texts getComputedTextLength) ps) [] []))
        (erd_viewBox ps)
    /\ NoDup (map name ps)
    /\ (forall k, In k (map name ps) <-> In k (map e_name entities))
    /\ ForallOrdPairs entities_apart ps
    /\ Forall (fun e => 0 <= x e /\ 0 <= y e
                        /\ 150 <= calculatedWidth e <= 300
                        /\ 50 <= calculatedHeight e) ps
    /\ (entities <> [] -> exists e tl, ps = e :: tl /\ x e = 0 /\ y e = 0).
Proof.
  unfold renderERD. cbn [d_entities d_relationships fst].
  set (pairs := map (fun s : entity * pentity => (name (snd s), snd s))
                  (map (size_entity getComputedTextLength) entities)).
  set (entitiesMap := of_pairs pairs).
  assert (Hvals : forall v, In v (values entitiesMap) ->
            150 <= calculatedWidth v <= 300 /\ 50 <= calculatedHeight v).
  { intros v Hv. apply of_pairs_values in Hv. unfold pairs in Hv.
    rewrite !map_map in Hv. cbn [snd] in Hv. apply in_map_iff in Hv.
    destruct Hv as (ent & <- & _).
    destruct (size_entity_box ent) as (_ & _ & Hw & _ & Hh). auto. }
  assert (Hnames : map name (values entitiesMap) = keys entitiesMap).
  { apply entry_values. intros k v Hin.
    apply LayeringMore.of_pairs_entries in Hin. unfold pairs in Hin.
    apply in_map_iff in Hin. destruct Hin as (s & Heq & _).
    now inversion Heq. }
  assert (Hkeys : forall k, In k (keys entitiesMap) <-> In k (map e_name entities)).
  { intro k. unfold entitiesMap. rewrite of_pairs_keys. unfold pairs.
    rewrite !map_map. cbn [fst].
    erewrite map_ext; [reflexivity|]. intro ent.
    now destruct (size_entity_box ent). }
  destruct (layout_apart localeCompare (values entitiesMap))
    as (Hpairs & Hpos & Hperm & Hfirst).
  { apply Forall_forall. intros v Hv. destruct (Hvals v Hv). lra. }
  set (ps := layoutEntitiesGrid localeCompare (values entitiesMap)) in *.
  assert (Hpn : Permutation (map name ps) (keys entitiesMap)).
  { rewrite <- Hnames.
    apply (Permutation_map name) in Hperm. rewrite !map_map in Hperm.
    exact Hperm. }
  exists ps. split; [reflexivity|]. split.
  { eapply Permutation_NoDup; [symmetry; exact Hpn | apply of_pairs_NoDup]. }
  split.
  { intro k. rewrite <- Hkeys. split; intro Hin;
      (eapply Permutation_in; [|exact Hin]); [|symmetry]; exact Hpn. }
  split; [exact Hpairs|]. split.
  { apply Forall_forall. intros e He.
    rewrite Forall_forall in Hpos. destruct (Hpos e He) as [Hx Hy].
    assert (Hin : In (unplaced e) (map unplaced (values entitiesMap))).
    { eapply Permutation_in; [exact Hperm | now apply in_map]. }
    apply in_map_iff in Hin. destruct Hin as (v & Hv & Hin).
    destruct (Hvals v Hin) as [Hw Hh].
    apply (f_equal calculatedWidth) in Hv as Hvw.
    apply (f_equal calculatedHeight) in Hv as Hvh.
    cbn in Hvw, Hvh. rewrite <- Hvw, <- Hvh. auto. }
  intro Hne. apply Hfirst. intro Hnil.
  destruct entities as [|ent ents]; [congruence|].
  assert (Hin : In (e_name ent) (keys entitiesMap)).
  { apply Hkeys. now left. }
  rewrite <- Hnames, Hnil in Hin. destruct Hin.
Qed.

Lemma renderERD_scene entities relationships :
  exists ps s,
    fst (renderERD getComputedTextLength localeCompare
           (mkData (Some entities) (Some relationships)))
    = Success s (erd_viewBox ps)
    /\ sc_rects s = map entity_rect ps
    /\ map path_markers (sc_paths s)
       = map relationship_markers
           (filter (linked (map e_name entities)) relationships)
    /\ sc_warnings s
       = map missing_entity_warning
           (filter (fun rel => negb (linked (map e_name entities) rel))
              relationships)
    /\ NoDup (map name ps)
    /\ (forall k, In k (map name ps) <-> In k (map e_name entities))
    /\ ForallOrdPairs entities_apart ps
    /\ Forall (fun e => 0 <= x e /\ 0 <= y e
                        /\ 150 <= calculatedWidth e <= 300
                        /\ 50 <= calculatedHeight e) ps
    /\ (entities <> [] -> exists e tl, ps = e :: tl /\ x e = 0 /\ y e = 0).
Proof.
  destruct (renderERD_result entities relationships)
    as (ps & Hr & Hnd & Hnames & Hrest).
  exists ps. eexists. split; [exact Hr|].
  match goal with |- context [fold_left (draw_relationship ?m) _ ?sc] =>
    destruct (draw_relationships_scene m relationships sc) as (Hs & Hp & Hw)
  end.
  cbv zeta in Hs, Hp, Hw. cbn [sc_rects sc_paths sc_warnings map app] in Hs, Hp, Hw.
  assert (Hsame : forall rel,
            linked (keys (of_pairs (map (fun e => (name e, entity_rect e)) ps))) rel
            = linked (map e_name entities) rel).
  { intro rel. unfold linked.
    assert (Hk : forall k,
              In k (keys (of_pairs (map (fun e => (name e, entity_rect e)) ps)))
              <-> In k (map e_name entities)).
    { intro k. rewrite of_pairs_keys, map_map. cbn [fst]. apply Hnames. }
    f_equal; apply FlowchartRender.mem_same; exact Hk. }
  split; [exact Hs|]. split.
  { rewrite Hp. f_equal. apply filter_ext. exact Hsame. }
  split.
  { rewrite Hw. f_equal. apply filter_ext. intro rel. now rewrite Hsame. }
  split; [exact Hnd|]. split; [exact Hnames | exact Hrest].
Qed.

Lemma erd_viewBox_origin e tl :
  x e = 0 -> y e = 0 ->
  Forall (fun e' => 0 <= x e' /\ 0 <= y e') tl ->
  exists vx vy vw vh,
    erd_viewBox (e :: tl) = mkViewBox (Num vx) (Num vy) (Num vw) (Num vh)
    /\ vx == - (25) /\ vy == - (25)
    /\ Forall (inside_viewport vx vy vw vh 25 50) (map entity_rect (e :: tl)).
Proof.
  intros Hx Hy Hpos. unfold erd_viewBox.
  destruct (Math_min_attained 0 (x e) (map x tl)) as (mx & Hmx & Hmx0).
  { rewrite Hx. reflexivity. }
  { apply Forall_map. eapply Forall_impl; [|exact Hpos]. cbn beta. tauto. }
  destruct (Math_min_attained 0 (y e) (map y tl)) as (my & Hmy & Hmy0).
  { rewrite Hy. reflexivity. }
  { apply Forall_map. eapply Forall_impl; [|exact Hpos]. cbn beta. tauto. }
  change (x e :: map x tl) with (map x (e :: tl)) in Hmx.
  change (y e :: map y tl) with (map y (e :: tl)) in Hmy.
  rewrite Hmx, Hmy. cbn [jsub jadd jneg].
  destruct (fold_Qmax_ge (fun p => x p + calculatedWidth p) (e :: tl) 0)
    as [_ HX].
  destruct (fold_Qmax_ge (fun p => y p + calculatedHeight p) (e :: tl) 0)
    as [_ HY].
  assert (Hhalf : 50 / 2 == 25) by reflexivity.
  do 4 eexists. split; [reflexivity|].
  split; [lra|]. split; [lra|].
  rewrite Forall_map. apply Forall_forall. intros p Hp.
  rewrite Forall_forall in HX, HY. specialize (HX p Hp). specialize (HY p Hp).
  cbn beta in HX, HY.
  assert (Hp0 : 0 <= x p /\ 0 <= y p).
  { destruct Hp as [<- | Hp]; [rewrite Hx, Hy; lra|].
    rewrite Forall_forall in Hpos. now apply Hpos. }
  unfold inside_viewport, entity_rect. cbn [r_x r_y r_width r_height].
  destruct Hp0 as [Hpx Hpy].
  set (MX := fold_left _ (e :: tl) 0) in *.
  set (MY := fold_left (fun m p => Qmax m (y p + calculatedHeight p)) (e :: tl) 0) in *.
  repeat split; lra.
Qed.

(** X16. [renderERD] draws one box per distinct entity name, between 150 and
    300 wide and at least 50 high, right of and below the origin, and no
    two boxes overlap: a later box is in the same row at least 80 to the
    right of the earlier one, or at least 80 below its bottom. *)
Theorem renderERD_boxes_apart (entities : list entity)
    (relationships : list relationship) :
  exists ps s vb,
    fst (renderERD getComputedTextLength localeCompare
           (mkData (Some entities) (Some relationships)))
    = Success s vb
    /\ sc_rects s = map entity_rect ps
    /\ NoDup (map name ps)
    /\ (forall k, In k (map name ps) <-> In k (map e_name entities))
    /\ ForallOrdPairs boxes_apart (sc_rects s)
    /\ Forall sized_box (sc_rects s).
Proof.
  destruct (renderERD_scene entities relationships)
    as (ps & s & Hr & Hs & _ & _ & Hnd & Hnames & Hpairs & Hall & _).
  exists ps, s. eexists. split; [exact Hr|]. split; [exact Hs|].
  split; [exact Hnd|]. split; [exact Hnames|]. rewrite Hs. split.
  - apply ForallOrdPairs_map. exact Hpairs.
  - apply Forall_map. eapply Forall_impl; [|exact Hall].
    intros e (Hx & Hy & Hw & Hh).
    unfold sized_box, entity_rect, ENTITY_MIN_WIDTH, ENTITY_MAX_WIDTH,
      ENTITY_HEADER_HEIGHT, ENTITY_PADDING_Y.
    cbn [r_x r_y r_width r_height]. repeat split; lra.
Qed.

(** X17. [renderERD] draws one line, with the markers of its cardinality,
    for every relationship whose two entities both exist, in input
    order, and records one diagnostic for every other relationship; it
    never throws on a dangling relationship. *)
Theorem renderERD_relationships (entities : list entity)
    (relationships : list relationship) :
  exists s vb,
    fst (renderERD getComputedTextLength localeCompare
           (mkData (Some entities) (Some relationships)))
    = Success s vb
    /\ map path_markers (sc_paths s)
       = map relationship_markers
           (filter (linked (map e_name entities)) relationships)
    /\ sc_warnings s
       = map missing_entity_warning
           (filter (fun rel => negb (linked (map e_name entities) rel))
              relationships).
Proof.
  destruct (renderERD_scene entities relationships)
    as (ps & s & Hr & _ & Hp & Hw & _).
  exists s. eexists. split; [exact Hr|]. split; [exact Hp | exact Hw].
Qed.

(** X18. With at least one entity the viewport of [renderERD] is finite,
    starts at (-25, -25) and contains every box, with a margin of 25 on
    the left and top and of 50 on the right and bottom. *)
Theorem renderERD_viewBox_covers (entities : list entity)
    (relationships : list relationship) :
  entities <> [] ->
  exists s vx vy vw vh,
    fst (renderERD getComputedTextLength localeCompare
           (mkData (Some entities) (Some relationships)))
    = Success s (mkViewBox (Num vx) (Num vy) (Num vw) (Num vh))
    /\ vx == - (25) /\ vy == - (25)
    /\ sc_rects s <> []
    /\ Forall (inside_viewport vx vy vw vh 25 50) (sc_rects s).
Proof.
  intro Hne.
  destruct (renderERD_scene entities relationships)
    as (ps & s & Hr & Hs & _ & _ & _ & _ & _ & Hall & Hfirst).
  destruct (Hfirst Hne) as (e & tl & -> & Hx & Hy).
  destruct (erd_viewBox_origin e tl Hx Hy)
    as (vx & vy & vw & vh & Hvb & Hvx & Hvy & Hin).
  { inversion Hall; subst. eapply Forall_impl; [|eassumption].
    cbn beta. tauto. }
  exists s, vx, vy, vw, vh. rewrite Hr, Hvb, Hs.
  split; [reflexivity|]. split; [exact Hvx|]. split; [exact Hvy|].
  split; [discriminate | exact Hin].
Qed.

(** X19. Rendering twice is harmless: a second call of [renderERD] on the
    data the first call leaves behind, with the sizes it wrote on the
    entities, returns the same result and leaves the data as it is. *)
Theorem renderERD_again (d : data) :
  let first := renderERD getComputedTextLength localeCompare d in
  renderERD getComputedTextLength localeCompare (snd first) = first.
Proof.
  cbv zeta. unfold renderERD.
  destruct (d_entities d) as [entities|] eqn:Ee;
    destruct (d_relationships d) as [relationships|] eqn:Er;
    cbn [snd d_entities d_relationships]; try now rewrite Ee, ?Er.
  assert (Hsized : map (size_entity getComputedTextLength)
                     (map fst (map (size_entity getComputedTextLength) entities))
                   = map (size_entity getComputedTextLength) entities).
  { rewrite !map_map. apply map_ext. intro ent. reflexivity. }
  now rewrite Hsized.
Qed.

End Scene.

Lemma renderERD_viewBox_witness :
  exists s vx vy vw vh,
    fst (renderERD approximateTextLength codeUnitCompare
           (mkData (Some sample_entities) (Some sample_relationships)))
    = Success s (mkViewBox (Num vx) (Num vy) (Num vw) (Num vh))
    /\ vx == - (25) /\ vy == - (25)
    /\ sc_rects s <> []
    /\ Forall (inside_viewport vx vy vw vh 25 50) (sc_rects s).
Proof.
  apply (renderERD_viewBox_covers approximateTextLength codeUnitCompare
           sample_entities sample_relationships).
  discriminate.
Defined.

(** *** Connection points *)

Lemma Qabs_spec q : (0 <= q /\ Qabs q == q) \/ (q <= 0 /\ Qabs q == - q).
Proof.
  destruct (Qlt_le_dec q 0) as [Hneg | Hpos].
  - right. split; [lra|]. apply Qabs_neg. lra.
  - left. split; [assumption|]. now apply Qabs_pos.
Qed.

Ltac qbool :=
  repeat match goal with
         | H : Qgtb _ _ = true |- _ => apply Qgtb_true in H
         | H : Qgtb _ _ = false |- _ => apply Qgtb_false in H
         end.

(** X20. The connector does not depend on the direction of the
    relationship: unless the centres of the two boxes coincide, swapping
    the boxes gives the same two points in the other order. *)
Theorem connection_points_reverse (rect1 rect2 : rect) :
  ~ (center_x rect1 == center_x rect2 /\ center_y rect1 == center_y rect2) ->
  getClosestConnectionPoints rect2 rect1
  = (snd (getClosestConnectionPoints rect1 rect2),
     fst (getClosestConnectionPoints rect1 rect2)).
Proof.
  intro Hdiff. unfold getClosestConnectionPoints. cbv zeta.
  fold (center_x rect1) (center_y rect1) (center_x rect2) (center_y rect2)
    in *.
  set (c1x := center_x rect1) in *. set (c1y := center_y rect1) in *.
  set (c2x := center_x rect2) in *. set (c2y := center_y rect2) in *.
  destruct (Qabs_spec (c2x - c1x)) as [[? ?] | [? ?]];
  destruct (Qabs_spec (c2y - c1y)) as [[? ?] | [? ?]];
  destruct (Qabs_spec (c1x - c2x)) as [[? ?] | [? ?]];
  destruct (Qabs_spec (c1y - c2y)) as [[? ?] | [? ?]];
  destruct (Qgtb (Qabs (c2x - c1x)) (Qabs (c2y - c1y))) eqn:E1;
  destruct (Qgtb (Qabs (c1x - c2x)) (Qabs (c1y - c2y))) eqn:E2;
  destruct (Qgtb (c2x - c1x) 0) eqn:E3;
  destruct (Qgtb (c1x - c2x) 0) eqn:E4;
  destruct (Qgtb (c2y - c1y) 0) eqn:E5;
  destruct (Qgtb (c1y - c2y) 0) eqn:E6;
  cbn [fst snd]; try reflexivity; exfalso; qbool;
  try lra; apply Hdiff; split; lra.
Qed.


Lemma connection_points_reverse_witness :
  getClosestConnectionPoints (mkRect 230 0 150 50) (mkRect 0 0 150 50)
  = (snd (getClosestConnectionPoints (mkRect 0 0 150 50) (mkRect 230 0 150 50)),
     fst (getClosestConnectionPoints (mkRect 0 0 150 50) (mkRect 230 0 150 50))).
Proof.
  apply (connection_points_reverse (mkRect 0 0 150 50) (mkRect 230 0 150 50)).
  intros [Hx _]. vm_compute in Hx. discriminate.
Defined.

End ERDMore.

(** ** Validation and rendering *)

Module PipelineFacts.
Import Json Validate Compile.

(** *** Lists of errors *)

Lemma fold_push {A} (f : A -> list error) l : forall errors,
  fold_left (fun errors x => errors ++ f x) l errors
  = errors ++ flat_map f l.
Proof.
  induction l as [|x l IH]; intro errors; cbn [fold_left flat_map].
  - now rewrite app_nil_r.
  - rewrite IH. now rewrite app_assoc.
Qed.

Lemma flat_map_nil {A B} (f : A -> list B) l :
  flat_map f l = [] -> Forall (fun x => f x = []) l.
Proof.
  induction l as [|x l IH]; cbn [flat_map]; intro Hnil; [constructor|].
  apply app_eq_nil in Hnil. destruct Hnil. constructor; auto.
Qed.

Lemma in_indexed_from {A} (l : list A) : forall a x,
  In x l -> exists i, In (i, x) (combine (seq a (List.length l)) l).
Proof.
  induction l as [|y l IH]; intros a x Hin; [destruct Hin|].
  cbn [List.length seq combine]. destruct Hin as [-> | Hin].
  - exists a. now left.
  - destruct (IH (S a) x Hin) as [i Hi]. exists i. now right.
Qed.

Lemma in_indexed {A} (l : list A) x :
  In x l -> exists i, In (i, x) (indexed l).
Proof. apply in_indexed_from. Qed.

Lemma indexed_snd_from {A} (l : list A) : forall a,
  map snd (combine (seq a (List.length l)) l) = l.
Proof.
  induction l as [|y l IH]; intro a; cbn; [reflexivity | now rewrite IH].
Qed.

Lemma indexed_snd {A} (l : list A) : map snd (indexed l) = l.
Proof. apply indexed_snd_from. Qed.

(** Errors of the elements, for checks that do not read the index. *)
Lemma no_errors_each {A} (f : nat * A -> list error) (l : list A) :
  flat_map f (indexed l) = [] ->
  Forall (fun x => exists i, f (i, x) = []) l.
Proof.
  intro Hnil. apply flat_map_nil in Hnil. rewrite Forall_forall in *.
  intros x Hx. destruct (in_indexed l x Hx) as [i Hi].
  exists i. exact (Hnil _ Hi).
Qed.

(** *** Sets of strings *)

Lemma has_JStr s names :
  has (JStr s) (map JStr names) = true <-> In s names.
Proof.
  unfold has. rewrite existsb_exists. split.
  - intros (v & Hin & Heq). apply in_map_iff in Hin.
    destruct Hin as (n & <- & Hn). cbn in Heq.
    apply String.eqb_eq in Heq. now subst.
  - intro Hin. exists (JStr s). split; [now apply in_map|].
    cbn. apply String.eqb_refl.
Qed.

Lemma has_app v s1 s2 : has v (s1 ++ s2) = has v s1 || has v s2.
Proof. unfold has. apply existsb_app. Qed.

Lemma blank_false v :
  blank v = false -> exists s, v = JStr s /\ trims_to_empty s = false.
Proof. destruct v; cbn; try discriminate. eauto. Qed.

Lemma is_string_true v : is_string v = true -> exists s, v = JStr s.
Proof. destruct v; cbn; try discriminate. eauto. Qed.

Lemma if_nil {A} (b : bool) (x : A) :
  (if b then [x] else []) = [] -> b = false.
Proof. destruct b; [discriminate | reflexivity]. Qed.

Lemma all_some_map {A} (f : value -> option A) vs : forall xs,
  Forall2 (fun v x => f v = Some x) vs xs ->
  all_some (map f vs) = Some xs.
Proof.
  induction vs as [|v vs IH]; intros xs H2; inversion H2; subst; cbn.
  - reflexivity.
  - match goal with Hv : f v = Some _ |- _ => rewrite Hv end.
    now rewrite (IH _ ltac:(eassumption)).
Qed.

Lemma Forall_exists_Forall2 {A B} (R : A -> B -> Prop) l :
  Forall (fun a => exists b, R a b) l -> exists l', Forall2 R l l'.
Proof.
  induction 1 as [|a l [b Hb] _ [l' IH]]; [exists []; constructor|].
  exists (b :: l'). now constructor.
Qed.

Section Accepting.

Variable numberToString : Q -> string.
Variable jsonString : string.

Let validate := validate numberToString jsonString.

(** An accepted document is an object with one of the three types. *)
Lemma validate_accepted_type data :
  validate data = inr [] ->
  exists props t, data = JObj props /\ prop data "type" = JStr t
                  /\ In t validTypes.
Proof.
  unfold validate, Validate.validate.
  destruct (is_object data) eqn:Eobj; cbn [negb]; [|discriminate].
  destruct (truthy (prop data "type")) eqn:Etr; cbn [negb]; [|discriminate].
  destruct (includes validTypes (prop data "type")) eqn:Einc; cbn [negb];
    [|discriminate].
  intros _. destruct data; try discriminate.
  destruct (prop (JObj props) "type") as [| | | |t| |] eqn:Et;
    try discriminate.
  exists props, t. split; [reflexivity|]. split; [reflexivity|].
  unfold includes in Einc. apply existsb_exists in Einc.
  destruct Einc as (t' & Hin & Heq). apply String.eqb_eq in Heq. now subst.
Qed.

(** *** Sequence documents *)

Lemma participants_accepted l : forall e s e' s',
  fold_left (check_participant numberToString jsonString) l (e, s) = (e', s') ->
  e' = [] ->
  e = []
  /\ exists names,
       map snd l = map JStr names
       /\ s' = s ++ map JStr names
       /\ NoDup names
       /\ Forall (fun n => has (JStr n) s = false) names.
Proof.
  induction l as [|[i p] l IH]; intros e s e' s' Hfold Hnil; cbn [fold_left] in Hfold.
  - inversion Hfold; subst. split; [reflexivity|]. exists [].
    cbn. rewrite app_nil_r. repeat split; constructor.
  - unfold check_participant at 2 in Hfold. cbn [fst snd] in Hfold.
    destruct (IH _ _ _ _ Hfold Hnil) as (He & names & Hl & Hs & Hnd & Hnot).
    apply app_eq_nil in He. destruct He as [-> Herr].
    split; [reflexivity|].
    unfold participant_errors in Herr. apply app_eq_nil in Herr.
    destruct Herr as [Hb Hh]. apply if_nil in Hb, Hh.
    destruct (blank_false _ Hb) as (n & -> & _).
    unfold add in Hs, Hnot. rewrite Hh in Hs, Hnot.
    exists (n :: names). cbn [map]. rewrite Hl.
    split; [reflexivity|]. split; [now rewrite Hs, <- app_assoc|].
    split.
    + constructor; [|exact Hnd]. intro Hin.
      rewrite Forall_forall in Hnot. specialize (Hnot n Hin).
      rewrite has_app in Hnot. cbn in Hnot. rewrite String.eqb_refl in Hnot.
      now rewrite orb_true_r in Hnot.
    + constructor; [exact Hh|].
      eapply Forall_impl; [|exact Hnot]. intros n' Hn'. cbn beta in Hn'.
      rewrite has_app in Hn'. now apply orb_false_iff in Hn' as [? _].
Qed.

Lemma string_in_names v names :
  negb (is_string v) || negb (has v (map JStr names)) = false ->
  exists s, v = JStr s /\ In s names.
Proof.
  intro Hf. apply orb_false_iff in Hf. destruct Hf as [Hs Hh].
  apply negb_false_iff in Hs, Hh.
  destruct (is_string_true _ Hs) as [s ->].
  exists s. split; [reflexivity|]. now apply has_JStr.
Qed.

Lemma message_accepted names i msg :
  message_errors numberToString jsonString (map JStr names) (i, msg) = [] ->
  exists m, sequence_message msg = Some m
            /\ SequenceSpec.known_message names m.
Proof.
  unfold message_errors.
  destruct (is_object msg) eqn:Eobj; cbn [negb]; [|discriminate].
  intro Herr. apply app_eq_nil in Herr. destruct Herr as [Hfrom Herr].
  apply app_eq_nil in Herr. destruct Herr as [Hto Htext].
  apply if_nil in Hfrom, Hto, Htext.
  destruct (string_in_names _ _ Hfrom) as (from & Ef & Hf).
  destruct (string_in_names _ _ Hto) as (to & Et & Ht).
  destruct (blank_false _ Htext) as (text & Ex & _).
  destruct msg; try discriminate.
  exists (Sequence.mkMessage from to text).
  unfold sequence_message. rewrite Ef, Et, Ex.
  split; [reflexivity | split; assumption].
Qed.

Lemma sequence_accepted data :
  _validateSequence numberToString jsonString data [] = [] ->
  exists participants messages,
    sequence_data data
    = Some (Sequence.mkData (Some participants) (Some messages))
    /\ NoDup participants
    /\ Forall (SequenceSpec.known_message participants) messages.
Proof.
  unfold _validateSequence, sequence_data.
  destruct (prop data "participants") as [| | | | |ps|] eqn:Eps;
    try (intro Hnil; apply app_eq_nil in Hnil; destruct Hnil; discriminate).
  destruct (fold_left _ (indexed ps) ([], [])) as [errors names] eqn:Hfold.
  destruct (prop data "messages") as [| | | | |ms|] eqn:Ems;
    try (intro Hnil; apply app_eq_nil in Hnil; destruct Hnil; discriminate).
  rewrite fold_push. intro Hnil. apply app_eq_nil in Hnil.
  destruct Hnil as [-> Hmsgs].
  destruct (participants_accepted _ _ _ _ _ Hfold eq_refl)
    as (_ & participants & Hl & Hs & Hnd & _).
  rewrite indexed_snd in Hl. cbn [app] in Hs. subst names ps.
  apply no_errors_each in Hmsgs.
  assert (Hm : Forall (fun v => exists m, sequence_message v = Some m
                          /\ SequenceSpec.known_message participants m) ms).
  { eapply Forall_impl; [|exact Hmsgs]. intros v [i Hi].
    exact (message_accepted _ _ _ Hi). }
  apply Forall_exists_Forall2 in Hm. destruct Hm as [messages H2].
  exists participants, messages. unfold collection.
  rewrite (all_some_map as_string (map JStr participants) participants).
  2:{ clear. induction participants; cbn; constructor; auto. }
  rewrite (all_some_map sequence_message ms messages).
  2:{ eapply Forall2_impl; [|exact H2]. cbn beta. tauto. }
  cbn [option_map]. split; [reflexivity|]. split; [exact Hnd|].
  clear - H2. induction H2; constructor; [tauto | assumption].
Qed.

(** *** Flowchart documents *)

Lemma nodes_accepted l : forall e s e' s',
  fold_left (check_node numberToString jsonString) l (e, s) = (e', s') ->
  e' = [] ->
  e = []
  /\ exists nodes,
       Forall2 (fun v n => flowchart_node v = Some n) (map snd l) nodes
       /\ s' = s ++ map JStr (map Flowchart.n_id nodes)
       /\ NoDup (map Flowchart.n_id nodes)
       /\ Forall (fun n => has (JStr (Flowchart.n_id n)) s = false) nodes.
Proof.
  induction l as [|[i node] l IH]; intros e s e' s' Hfold Hnil;
    cbn [fold_left] in Hfold.
  - inversion Hfold; subst. split; [reflexivity|]. exists [].
    cbn. rewrite app_nil_r. repeat split; constructor.
  - unfold check_node at 2 in Hfold. cbn [fst snd] in Hfold.
    destruct (IH _ _ _ _ Hfold Hnil) as (He & nodes & Hl & Hs & Hnd & Hnot).
    apply app_eq_nil in He. destruct He as [-> Herr].
    split; [reflexivity|].
    unfold node_errors in Herr.
    destruct (is_object node) eqn:Eobj; cbn [negb] in Herr; [|discriminate].
    apply app_eq_nil in Herr. destruct Herr as [Hid Herr].
    apply app_eq_nil in Herr. destruct Herr as [Hdup Hlabel].
    apply if_nil in Hid, Hdup, Hlabel.
    destruct (blank_false _ Hid) as (id & Eid & _).
    destruct (blank_false _ Hlabel) as (label & Elabel & _).
    rewrite Eid in *. unfold add in Hs, Hnot. rewrite Hdup in Hs, Hnot.
    destruct node; try discriminate.
    exists (Flowchart.mkNode id label :: nodes). cbn [map Flowchart.n_id].
    split.
    { constructor; [|exact Hl]. cbn [snd]. unfold flowchart_node.
      now rewrite Eid, Elabel. }
    split; [now rewrite Hs, <- app_assoc|].
    split.
    + constructor; [|exact Hnd]. intro Hin. apply in_map_iff in Hin.
      destruct Hin as (n & Hn & Hin).
      rewrite Forall_forall in Hnot. specialize (Hnot n Hin).
      rewrite has_app, Hn in Hnot. cbn in Hnot.
      rewrite String.eqb_refl in Hnot. now rewrite orb_true_r in Hnot.
    + constructor; [exact Hdup|].
      eapply Forall_impl; [|exact Hnot]. intros n' Hn'. cbn beta in Hn'.
      rewrite has_app in Hn'. now apply orb_false_iff in Hn' as [? _].
Qed.

Lemma edge_accepted ids i edge :
  edge_errors numberToString jsonString (map JStr ids) (i, edge) = [] ->
  exists e, flowchart_edge edge = Some e
            /\ In (Flowchart.e_from e) ids /\ In (Flowchart.e_to e) ids
            /\ Flowchart.e_from e <> Flowchart.e_to e.
Proof.
  unfold edge_errors.
  destruct (is_object edge) eqn:Eobj; cbn [negb]; [|discriminate].
  intro Herr. apply app_eq_nil in Herr. destruct Herr as [Hfrom Herr].
  apply app_eq_nil in Herr. destruct Herr as [Hto Herr].
  apply app_eq_nil in Herr. destruct Herr as [Hloop Hlabel].
  apply if_nil in Hfrom, Hto, Hloop, Hlabel.
  destruct (string_in_names _ _ Hfrom) as (from & Ef & Hf).
  destruct (string_in_names _ _ Hto) as (to & Et & Ht).
  rewrite Ef, Et in Hloop. cbn in Hloop. apply String.eqb_neq in Hloop.
  destruct edge; try discriminate.
  unfold flowchart_edge. rewrite Ef, Et.
  destruct (truthy (prop (JObj props) "label")) eqn:Etr.
  - cbn [andb] in Hlabel. apply negb_false_iff in Hlabel.
    destruct (is_string_true _ Hlabel) as [label ->].
    eexists. split; [reflexivity|]. cbn. auto.
  - eexists. split; [reflexivity|]. cbn. auto.
Qed.

Lemma flowchart_accepted data :
  _validateFlowchart numberToString jsonString data [] = inr [] ->
  exists nodes edges,
    flowchart_data data
    = Some (Flowchart.mkData (Some nodes) (Some edges))
    /\ NoDup (map Flowchart.n_id nodes)
    /\ Forall (fun e => In (Flowchart.e_from e) (map Flowchart.n_id nodes)
                        /\ In (Flowchart.e_to e) (map Flowchart.n_id nodes)
                        /\ Flowchart.e_from e <> Flowchart.e_to e) edges.
Proof.
  unfold _validateFlowchart, flowchart_data.
  destruct (prop data "nodes") as [| | | | |ns|] eqn:Ens;
    try (intro Hnil; cbn [app] in Hnil; discriminate).
  destruct (fold_left _ (indexed ns) ([], [])) as [errors ids] eqn:Hfold.
  destruct (prop data "edges") as [| | | | |es|] eqn:Ees;
    try (intro Hnil; injection Hnil as Hnil; apply app_eq_nil in Hnil;
         destruct Hnil; discriminate).
  rewrite fold_push. intro Hres.
  assert (Hnil : errors ++ flat_map (edge_errors numberToString jsonString ids)
                             (indexed es) = []).
  { destruct (truthy (prop data "direction")); [|now injection Hres].
    destruct (prop data "direction"); try discriminate.
    destruct (negb _); [|now injection Hres].
    injection Hres as Hres. apply app_eq_nil in Hres. now destruct Hres. }
  clear Hres. apply app_eq_nil in Hnil. destruct Hnil as [-> Hedges].
  destruct (nodes_accepted _ _ _ _ _ Hfold eq_refl)
    as (_ & nodes & Hl & Hs & Hnd & _).
  rewrite indexed_snd in Hl. cbn [app] in Hs. subst ids.
  apply no_errors_each in Hedges.
  assert (He : Forall (fun v => exists e, flowchart_edge v = Some e
                 /\ In (Flowchart.e_from e) (map Flowchart.n_id nodes)
                 /\ In (Flowchart.e_to e) (map Flowchart.n_id nodes)
                 /\ Flowchart.e_from e <> Flowchart.e_to e) es).
  { eapply Forall_impl; [|exact Hedges]. intros v [i Hi].
    exact (edge_accepted _ _ _ Hi). }
  apply Forall_exists_Forall2 in He. destruct He as [edges H2].
  exists nodes, edges. unfold collection.
  rewrite (all_some_map flowchart_node ns nodes Hl).
  rewrite (all_some_map flowchart_edge es edges).
  2:{ eapply Forall2_impl; [|exact H2]. cbn beta. tauto. }
  cbn [option_map]. split; [reflexivity|]. split; [exact Hnd|].
  clear - H2. induction H2; constructor; [tauto | assumption].
Qed.

Lemma filter_all {A} (f : A -> bool) l :
  Forall (fun x => f x = true) l -> filter f l = l.
Proof.
  induction 1 as [|x l Hx _ IH]; cbn; [reflexivity|]. now rewrite Hx, IH.
Qed.

Lemma filter_none {A} (f : A -> bool) l :
  Forall (fun x => f x = true) l -> filter (fun x => negb (f x)) l = [].
Proof.
  induction 1 as [|x l Hx _ IH]; cbn; [reflexivity|]. now rewrite Hx, IH.
Qed.

(** X27. [validate] itself throws on a flowchart whose nodes and edges
    are arrays and whose direction is truthy but no string: it calls
    [toUpperCase] on it, and returns no error list. *)
Theorem validate_throws_on_non_string_direction (data : value)
    (nodes edges : list value) :
  prop data "type" = JStr "flowchart" ->
  prop data "nodes" = JArr nodes ->
  prop data "edges" = JArr edges ->
  truthy (prop data "direction") = true ->
  is_string (prop data "direction") = false ->
  validate data = inl "TypeError".
Proof.
  intros Htype Hnodes Hedges Htr Hstr.
  unfold validate, Validate.validate.
  assert (Hobj : is_object data = true).
  { destruct data; cbn in Htype; try discriminate. reflexivity. }
  rewrite Hobj, Htype.
  cbn [negb truthy String.eqb Ascii.eqb Bool.eqb includes validTypes
       existsb orb strict_equal].
  unfold _validateFlowchart. rewrite Hnodes, Hedges.
  destruct (fold_left _ (indexed nodes) ([], [])) as [errors ids].
  rewrite Htr. destruct (prop data "direction"); try reflexivity.
  discriminate.
Qed.

(** *** ERD documents *)

Lemma string_has_names s names n :
  has (JStr n) (s ++ map JStr names) = true ->
  has (JStr n) s = true \/ In n names.
Proof.
  rewrite has_app. intro Hh. apply orb_true_iff in Hh.
  destruct Hh as [Hh | Hh]; [now left | right; now apply has_JStr].
Qed.

Lemma fk_accepted entityNames entityAttributes ename attrs aname fk :
  fk_errors numberToString jsonString entityNames entityAttributes ename
    attrs aname fk = [] ->
  truthy fk = true ->
  exists s fkEntity fkAttr rest,
    fk = JStr s /\ split_dot s = fkEntity :: fkAttr :: rest
    /\ has (JStr fkEntity) entityNames = true.
Proof.
  unfold fk_errors. intros Hfk Htr. rewrite Htr in Hfk.
  destruct fk as [| | | |s| |]; cbn [is_string negb orb] in Hfk;
    try discriminate.
  destruct (includes_dot s) eqn:Edot; cbn [negb] in Hfk; [|discriminate].
  assert (Hparts : exists fkEntity fkAttr rest,
             split_dot s = fkEntity :: fkAttr :: rest).
  { clear - Edot. induction s as [|c s IH]; cbn in *; [discriminate|].
    destruct (Ascii.eqb c dot) eqn:Ec.
    - destruct (split_dot s) as [|w ws] eqn:Es; [|eauto].
      destruct s; cbn in Es; [discriminate|].
      destruct (Ascii.eqb a dot); [discriminate|].
      destruct (split_dot s); discriminate.
    - cbn in Edot. destruct (IH Edot) as (e & a & rest & ->). eauto. }
  destruct Hparts as (fkEntity & fkAttr & rest & Hsplit).
  rewrite Hsplit in Hfk.
  destruct (has (JStr fkEntity) entityNames) eqn:Eh; cbn [negb] in Hfk;
    [|discriminate].
  exists s, fkEntity, fkAttr, rest. auto.
Qed.

Lemma attributes_accepted entityNames entityAttributes ename l :
  forall e attrs hasPk e' attrs' hasPk',
  fold_left (check_attribute numberToString jsonString entityNames
               entityAttributes ename) l (e, attrs, hasPk)
  = (e', attrs', hasPk') ->
  e' = [] ->
  e = []
  /\ exists typed,
       Forall2 (fun v a => erd_attribute v = Some a) (map snd l) typed
       /\ attrs' = attrs ++ map JStr (map ERD.a_name typed)
       /\ NoDup (map ERD.a_name typed)
       /\ Forall (fun a => has (JStr (ERD.a_name a)) attrs = false) typed
       /\ (hasPk' = true ->
           hasPk = true \/ exists a, In a typed /\ ERD.pk a = true)
       /\ Forall (fun a => forall s, ERD.fk a = Some s ->
                    exists fkEntity fkAttr rest,
                      split_dot s = fkEntity :: fkAttr :: rest
                      /\ has (JStr fkEntity) entityNames = true) typed.
Proof.
  induction l as [|[j attr] l IH]; intros e attrs hasPk e' attrs' hasPk' Hfold Hnil;
    cbn [fold_left] in Hfold.
  - inversion Hfold; subst. split; [reflexivity|]. exists [].
    cbn. rewrite app_nil_r.
    split; [constructor|]. split; [reflexivity|]. split; [constructor|].
    split; [constructor|]. split; [auto | constructor].
  - unfold check_attribute at 2 in Hfold.
    destruct (is_object attr) eqn:Eobj; cbn [negb] in Hfold.
    2:{ destruct (IH _ _ _ _ _ _ Hfold Hnil) as (He & _).
        apply app_eq_nil in He. destruct He. discriminate. }
    destruct (IH _ _ _ _ _ _ Hfold Hnil)
      as (He & typed & Hl & Hs & Hnd & Hnot & Hpk & Hfks).
    apply app_eq_nil in He. destruct He as [-> Herr].
    split; [reflexivity|].
    apply app_eq_nil in Herr. destruct Herr as [Hname Herr].
    apply app_eq_nil in Herr. destruct Herr as [Hdup Herr].
    apply app_eq_nil in Herr. destruct Herr as [Htype Herr].
    apply app_eq_nil in Herr. destruct Herr as [Hfk _].
    apply if_nil in Hname, Htype, Hdup.
    destruct (blank_false _ Hname) as (name & En & _).
    destruct (blank_false _ Htype) as (type & Ety & _).
    rewrite En in *. unfold add in Hs, Hnot, Hfk. rewrite Hdup in Hs, Hnot, Hfk.
    destruct attr; try discriminate.
    assert (Hview : exists a,
               erd_attribute (JObj props) = Some a
               /\ ERD.a_name a = name
               /\ ERD.pk a = truthy (prop (JObj props) "pk")
               /\ forall s, ERD.fk a = Some s ->
                    exists fkEntity fkAttr rest,
                      split_dot s = fkEntity :: fkAttr :: rest
                      /\ has (JStr fkEntity) entityNames = true).
    { unfold erd_attribute. rewrite En, Ety.
      destruct (truthy (prop (JObj props) "fk")) eqn:Etr.
      - destruct (fk_accepted _ _ _ _ _ _ Hfk Etr)
          as (s & fkEntity & fkAttr & rest & -> & Hsplit & Hh).
        eexists. split; [reflexivity|]. cbn.
        split; [reflexivity|]. split; [reflexivity|].
        intros s' [= <-]. eauto.
      - eexists. split; [reflexivity|]. cbn.
        split; [reflexivity|]. split; [reflexivity|]. discriminate. }
    destruct Hview as (a & Ha & Han & Hapk & Hafk). exists (a :: typed).
    cbn [map snd]. rewrite Han.
    split; [constructor; assumption|].
    split; [now rewrite Hs, <- app_assoc|].
    split.
    { constructor; [|exact Hnd]. intro Hin. apply in_map_iff in Hin.
      destruct Hin as (n & Hn & Hin).
      rewrite Forall_forall in Hnot. specialize (Hnot n Hin).
      rewrite has_app, Hn in Hnot. cbn in Hnot.
      rewrite String.eqb_refl in Hnot. now rewrite orb_true_r in Hnot. }
    split.
    { constructor; [now rewrite Han|].
      eapply Forall_impl; [|exact Hnot]. intros n' Hn'. cbn beta in Hn'.
      rewrite has_app in Hn'. now apply orb_false_iff in Hn' as [? _]. }
    split.
    { intro Hp. destruct (Hpk Hp) as [Hor | (a' & Hin & Ha')].
      - apply orb_true_iff in Hor. destruct Hor as [Hh | Hstrict];
          [now left|].
        right. exists a. split; [now left|]. rewrite Hapk.
        destruct (prop (JObj props) "pk"); cbn in Hstrict; try discriminate.
        now destruct b.
      - right. exists a'. split; [now right | assumption]. }
    constructor; assumption.
Qed.

Lemma check_entity_grows e s m ientity e1 s1 m1 :
  check_entity numberToString jsonString (e, s, m) ientity = (e1, s1, m1) ->
  e1 = [] -> e = [].
Proof.
  destruct ientity as [i entity]. unfold check_entity.
  destruct (is_object entity); cbn [negb].
  2:{ intros [= <- _ _] Hnil. apply app_eq_nil in Hnil. tauto. }
  cbv zeta. destruct (prop entity "attributes");
    try (intros [= <- _ _] Hnil;
         repeat (apply app_eq_nil in Hnil; destruct Hnil as [Hnil ?]);
         assumption).
  destruct (fold_left _ (indexed items) _) as [[errors attrs] hasPk] eqn:Hattrs.
  intros [= <- _ _] Hnil. apply app_eq_nil in Hnil. destruct Hnil as [-> _].
  destruct (attributes_accepted _ _ _ _ _ _ _ _ _ _ Hattrs eq_refl) as [He _].
  repeat (apply app_eq_nil in He; destruct He as [He ?]). assumption.
Qed.

Lemma entities_grow l : forall e s m e' s' m',
  fold_left (check_entity numberToString jsonString) l (e, s, m)
  = (e', s', m') ->
  e' = [] -> e = [].
Proof.
  induction l as [|x l IH]; intros e s m e' s' m' Hfold Hnil;
    cbn [fold_left] in Hfold.
  - inversion Hfold; subst. reflexivity.
  - destruct (check_entity numberToString jsonString (e, s, m) x)
      as [[e1 s1] m1] eqn:Hstep.
    apply (check_entity_grows _ _ _ _ _ _ _ Hstep).
    exact (IH _ _ _ _ _ _ Hfold Hnil).
Qed.

(** An entity that adds no error. *)
Lemma entity_accepted e declared m i entity s1 m1 :
  check_entity numberToString jsonString (e, map JStr declared, m)
    (i, entity) = ([], s1, m1) ->
  exists ent,
    erd_entity entity = Some ent
    /\ s1 = map JStr (declared ++ [ERD.e_name ent])
    /\ ~ In (ERD.e_name ent) declared
    /\ keyed_entity ent
    /\ Forall (resolves_backwards (declared ++ [ERD.e_name ent]))
         (ERD.e_attributes ent).
Proof.
  unfold check_entity.
  destruct (is_object entity) eqn:Eobj; cbn [negb].
  2:{ intros [= Hnil _ _]. apply app_eq_nil in Hnil. destruct Hnil.
      discriminate. }
  cbv zeta.
  destruct (prop entity "attributes") as [| | | | |attributes|] eqn:Eattrs;
    try (intros [= Hnil _ _]; apply app_eq_nil in Hnil; destruct Hnil;
         discriminate).
  destruct (fold_left _ (indexed attributes) _)
    as [[errors attrs] hasPk] eqn:Hattrs.
  intros [= Hnil <- _]. apply app_eq_nil in Hnil.
  destruct Hnil as [-> Hpkerr].
  destruct (attributes_accepted _ _ _ _ _ _ _ _ _ _ Hattrs eq_refl)
    as (He & typed & Htyped & _ & Hand & _ & Hpk & Hfk).
  rewrite indexed_snd in Htyped. apply if_nil in Hpkerr.
  apply app_eq_nil in He. destruct He as [_ He].
  apply app_eq_nil in He. destruct He as [Hname Hdup].
  apply if_nil in Hname, Hdup.
  destruct (blank_false _ Hname) as (name & En & _).
  rewrite En in *. unfold add in *. rewrite Hdup in *.
  destruct entity; try discriminate.
  exists (ERD.mkEntity name typed
            (as_number (prop (JObj props) "calculatedWidth"))
            (as_number (prop (JObj props) "calculatedHeight"))).
  cbn [ERD.e_name ERD.e_attributes]. split.
  { unfold erd_entity. rewrite En, Eattrs.
    now rewrite (all_some_map erd_attribute attributes typed Htyped). }
  split; [now rewrite map_app|].
  split.
  { intro Hin. apply has_JStr in Hin. congruence. }
  split.
  { unfold keyed_entity. cbn [ERD.e_attributes].
    split; [exact Hand|]. intro Hne.
    apply andb_false_iff in Hpkerr. destruct Hpkerr as [Hh | Hlen].
    - apply negb_false_iff in Hh.
      destruct (Hpk Hh) as [? | ?]; [discriminate | assumption].
    - apply Nat.ltb_ge in Hlen.
      apply Forall2_length in Htyped. destruct typed; [congruence|].
      cbn in Htyped. lia. }
  eapply Forall_impl; [|exact Hfk]. intros a Ha s Hs'.
  destruct (Ha s Hs') as (fkEntity & fkAttr & rest & Hsplit & Hh).
  exists fkEntity, fkAttr, rest. split; [exact Hsplit|].
  apply has_JStr. rewrite map_app. exact Hh.
Qed.

Lemma entities_accepted l : forall e declared m e' s' m',
  fold_left (check_entity numberToString jsonString) l
    (e, map JStr declared, m)
  = (e', s', m') ->
  e' = [] ->
  e = []
  /\ exists entities,
       Forall2 (fun v ent => erd_entity v = Some ent) (map snd l) entities
       /\ s' = map JStr (declared ++ map ERD.e_name entities)
       /\ NoDup (map ERD.e_name entities)
       /\ Forall (fun ent => ~ In (ERD.e_name ent) declared) entities
       /\ Forall keyed_entity entities
       /\ foreign_keys_backwards declared entities.
Proof.
  induction l as [|[i entity] l IH]; intros e declared m e' s' m' Hfold Hnil.
  - cbn [fold_left] in Hfold. inversion Hfold; subst.
    split; [reflexivity|]. exists [].
    cbn. rewrite app_nil_r. repeat split; constructor.
  - split; [exact (entities_grow _ _ _ _ _ _ _ Hfold Hnil)|].
    cbn [fold_left] in Hfold.
    destruct (check_entity numberToString jsonString
                (e, map JStr declared, m) (i, entity))
      as [[e1 s1] m1] eqn:Hstep.
    pose proof (entities_grow _ _ _ _ _ _ _ Hfold Hnil) as ->.
    destruct (entity_accepted _ _ _ _ _ _ _ Hstep)
      as (ent & Hview & -> & Hfresh & Hkeyed & Hfk).
    destruct (IH _ _ _ _ _ _ Hfold Hnil)
      as (_ & entities & Hl & Hs & Hnd & Hnot & Hkeyeds & Hfks).
    exists (ent :: entities). cbn [map snd].
    split; [constructor; assumption|].
    split; [now rewrite Hs, <- app_assoc|].
    split.
    { constructor; [|exact Hnd]. intro Hin. apply in_map_iff in Hin.
      destruct Hin as (n & Hn & Hin).
      rewrite Forall_forall in Hnot. apply (Hnot n Hin).
      rewrite Hn. apply in_or_app. right. now left. }
    split.
    { constructor; [exact Hfresh|].
      eapply Forall_impl; [|exact Hnot]. intros n' Hn' Hin. apply Hn'.
      apply in_or_app. now left. }
    split; [constructor; assumption|].
    cbn [foreign_keys_backwards]. split; assumption.
Qed.

Lemma relationship_accepted names i rel :
  relationship_errors numberToString jsonString (map JStr names) (i, rel) = [] ->
  exists r, erd_relationship rel = Some r
            /\ In (ERD.rel_from r) names /\ In (ERD.rel_to r) names
            /\ In (ERD.cardinality r) validCardinalities.
Proof.
  unfold relationship_errors.
  destruct (is_object rel) eqn:Eobj; cbn [negb]; [|discriminate].
  intro Herr. apply app_eq_nil in Herr. destruct Herr as [Hfrom Herr].
  apply app_eq_nil in Herr. destruct Herr as [Hto Hcard].
  apply if_nil in Hfrom, Hto, Hcard.
  destruct (string_in_names _ _ Hfrom) as (from & Ef & Hf).
  destruct (string_in_names _ _ Hto) as (to & Et & Ht).
  apply orb_false_iff in Hcard. destruct Hcard as [Hs Hinc].
  apply negb_false_iff in Hs, Hinc.
  destruct (is_string_true _ Hs) as [c Ec].
  destruct rel; try discriminate.
  exists (ERD.mkRelationship from to c).
  unfold erd_relationship. rewrite Ef, Et, Ec.
  split; [reflexivity|]. cbn. split; [exact Hf|]. split; [exact Ht|].
  rewrite Ec in Hinc. unfold includes in Hinc.
  apply existsb_exists in Hinc. destruct Hinc as (c' & Hin & Heq).
  apply String.eqb_eq in Heq. now subst.
Qed.

Lemma erd_accepted data :
  _validateERD numberToString jsonString data [] = [] ->
  exists entities relationships,
    erd_data data
    = Some (ERD.mkData (Some entities) (Some relationships))
    /\ NoDup (map ERD.e_name entities)
    /\ Forall (fun r => In (ERD.rel_from r) (map ERD.e_name entities)
                        /\ In (ERD.rel_to r) (map ERD.e_name entities)
                        /\ In (ERD.cardinality r) validCardinalities)
         relationships
    /\ Forall keyed_entity entities
    /\ foreign_keys_backwards [] entities.
Proof.
  unfold _validateERD, erd_data.
  destruct (prop data "entities") as [| | | | |es|] eqn:Ees;
    try (intro Hnil; cbn [app] in Hnil; discriminate).
  destruct (fold_left _ (indexed es) ([], [], []))
    as [[errors names] amap] eqn:Hfold.
  destruct (prop data "relationships") as [| | | | |rs|] eqn:Ers;
    try (intro Hnil; apply app_eq_nil in Hnil; destruct Hnil; discriminate).
  rewrite fold_push. intro Hnil. apply app_eq_nil in Hnil.
  destruct Hnil as [-> Hrels].
  destruct (entities_accepted _ _ [] _ _ _ _ Hfold eq_refl)
    as (_ & entities & Hl & Hs & Hnd & _ & Hkeyed & Hfks).
  rewrite indexed_snd in Hl. cbn [app] in Hs. subst names.
  apply no_errors_each in Hrels.
  assert (Hr : Forall (fun v => exists r, erd_relationship v = Some r
                 /\ In (ERD.rel_from r) (map ERD.e_name entities)
                 /\ In (ERD.rel_to r) (map ERD.e_name entities)
                 /\ In (ERD.cardinality r) validCardinalities) rs).
  { eapply Forall_impl; [|exact Hrels]. intros v [i Hi].
    exact (relationship_accepted _ _ _ Hi). }
  apply Forall_exists_Forall2 in Hr. destruct Hr as [relationships H2].
  exists entities, relationships. unfold collection.
  rewrite (all_some_map erd_entity es entities Hl).
  rewrite (all_some_map erd_relationship rs relationships).
  2:{ eapply Forall2_impl; [|exact H2]. cbn beta. tauto. }
  cbn [option_map]. split; [reflexivity|]. split; [exact Hnd|].
  split; [|split; assumption].
  clear - H2. induction H2; constructor; [tauto | assumption].
Qed.

(** X26. In an ERD document that [validate] accepts, the attribute names
    of an entity are distinct, an entity with attributes has a primary
    key, and every foreign key names, before its first dot, an entity
    that is declared no later than the entity that holds it: a
    reference to an entity declared further on is rejected. *)
Theorem accepted_erd_is_keyed (data : value) :
  validate data = inr [] ->
  prop data "type" = JStr "erd" ->
  exists entities relationships,
    erd_data data
    = Some (ERD.mkData (Some entities) (Some relationships))
    /\ Forall keyed_entity entities
    /\ foreign_keys_backwards [] entities.
Proof.
  intros Hval Htype.
  destruct (validate_accepted_type data Hval) as (props & t & -> & _ & _).
  unfold validate, Validate.validate in Hval. rewrite Htype in Hval.
  cbn [is_object negb truthy String.eqb Ascii.eqb Bool.eqb includes validTypes
       existsb orb strict_equal] in Hval.
  injection Hval as Hval.
  destruct (erd_accepted _ Hval)
    as (entities & relationships & Hview & _ & _ & Hkeyed & Hfks).
  exists entities, relationships. auto.
Qed.

(** *** Accepted documents are rendered *)

Section Rendering.

Variable getComputedTextLength : string -> Q -> string -> Q.
Variable localeCompare : string -> string -> Z.

Let compileAndRender :=
  compileAndRender numberToString getComputedTextLength localeCompare.

Lemma renderSequence_known participants messages :
  Forall (SequenceSpec.known_message participants) messages ->
  exists s vb,
    Sequence.renderSequence getComputedTextLength
      (Sequence.mkData (Some participants) (Some messages))
    = Success s vb
    /\ sc_warnings s = [].
Proof.
  intro Hknown.
  assert (Hs : exists s vb,
             Sequence.renderSequence getComputedTextLength
               (Sequence.mkData (Some participants) (Some messages))
             = Success s vb).
  { destruct participants as [|p ps].
    - unfold Sequence.renderSequence. cbn. eauto.
    - destruct (SequenceMore.renderSequence_rows getComputedTextLength
                  (p :: ps) messages) as (s & w & h & Hr & _);
        [discriminate | exact Hknown |]. eauto. }
  destruct Hs as (s & vb & Hr). exists s, vb. split; [exact Hr|].
  pose proof (SequenceMore.renderSequence_no_warning getComputedTextLength
                (Sequence.mkData (Some participants) (Some messages))) as Hw.
  now rewrite Hr in Hw.
Qed.

(** X23. A sequence document that [validate] accepts is rendered: it
    holds distinct participant names and messages between them,
    [compileAndRender] returns success for it, without an exception, and
    no message is skipped. *)
Theorem accepted_sequence_is_rendered (data : value) :
  validate data = inr [] ->
  prop data "type" = JStr "sequence" ->
  exists participants messages s vb,
    sequence_data data
    = Some (Sequence.mkData (Some participants) (Some messages))
    /\ NoDup participants
    /\ Forall (SequenceSpec.known_message participants) messages
    /\ compileAndRender data = Some (Success s vb)
    /\ sc_warnings s = [].
Proof.
  intros Hval Htype.
  destruct (validate_accepted_type data Hval) as (props & t & -> & _ & _).
  unfold validate, Validate.validate in Hval. rewrite Htype in Hval.
  cbn [is_object negb truthy String.eqb Ascii.eqb Bool.eqb includes validTypes
       existsb orb strict_equal] in Hval.
  injection Hval as Hval.
  destruct (sequence_accepted _ Hval)
    as (participants & messages & Hview & Hnd & Hknown).
  destruct (renderSequence_known participants messages Hknown)
    as (s & vb & Hr & Hw).
  exists participants, messages, s, vb.
  split; [exact Hview|]. split; [exact Hnd|]. split; [exact Hknown|].
  split; [|exact Hw].
  unfold compileAndRender, Compile.compileAndRender. rewrite Htype.
  cbn [strict_equal String.eqb Ascii.eqb Bool.eqb]. rewrite Hview.
  cbn [option_map]. now rewrite Hr.
Qed.

Lemma renderFlowchart_valid nodes edges :
  NoDup (map Flowchart.n_id nodes) ->
  Forall (fun e => In (Flowchart.e_from e) (map Flowchart.n_id nodes)
                   /\ In (Flowchart.e_to e) (map Flowchart.n_id nodes)) edges ->
  exists s vb,
    Flowchart.renderFlowchart getComputedTextLength
      (Flowchart.mkData (Some nodes) (Some edges))
    = Success s vb
    /\ sc_warnings s = []
    /\ List.length (sc_rects s) = List.length nodes
    /\ List.length (sc_paths s) = List.length edges.
Proof.
  intros Hnd Hedges.
  destruct (FlowchartRender.renderFlowchart_scene getComputedTextLength
              nodes edges) as (s & vb & Hr & Hp & Hw).
  exists s, vb. split; [exact Hr|].
  assert (Hd : Forall (fun e => FlowchartSpec.drawable
                                  (map Flowchart.n_id nodes) e = true) edges).
  { eapply Forall_impl; [|exact Hedges]. intros e [Hf Ht].
    unfold FlowchartSpec.drawable.
    apply LayeringFacts.mem_true_iff in Hf, Ht. now rewrite Hf, Ht. }
  rewrite (filter_none _ _ Hd) in Hw. rewrite (filter_all _ _ Hd) in Hp.
  split; [exact Hw|]. split; [|exact Hp].
  destruct (FlowchartRender.renderFlowchart_result getComputedTextLength
              nodes edges) as (ps & Hr' & Hperm & _).
  rewrite Hr in Hr'. injection Hr' as -> _.
  destruct (FlowchartRender.draw_edges_scene ps edges
              (mkScene (map Flowchart.node_rect ps)
                 (map (Flowchart.node_text getComputedTextLength) ps) [] []))
    as (Hrects & _).
  cbv zeta in Hrects. rewrite Hrects. cbn [sc_rects].
  rewrite length_map, <- (length_map Flowchart.id).
  rewrite (Permutation_length Hperm), <- (length_map Flowchart.n_id nodes).
  apply Permutation_length. apply NoDup_Permutation.
  - apply of_pairs_NoDup.
  - exact Hnd.
  - apply LayeringMore.nodesMap_keys.
Qed.

(** X24. A flowchart document that [validate] accepts is rendered whole:
    its node ids are distinct, every edge joins two different nodes of
    the document, and [compileAndRender] returns success with one box
    per node, one path per edge and no diagnostic. *)
Theorem accepted_flowchart_is_rendered (data : value) :
  validate data = inr [] ->
  prop data "type" = JStr "flowchart" ->
  exists nodes edges s vb,
    flowchart_data data
    = Some (Flowchart.mkData (Some nodes) (Some edges))
    /\ NoDup (map Flowchart.n_id nodes)
    /\ Forall (fun e => In (Flowchart.e_from e) (map Flowchart.n_id nodes)
                        /\ In (Flowchart.e_to e) (map Flowchart.n_id nodes)
                        /\ Flowchart.e_from e <> Flowchart.e_to e) edges
    /\ compileAndRender data = Some (Success s vb)
    /\ sc_warnings s = []
    /\ List.length (sc_rects s) = List.length nodes
    /\ List.length (sc_paths s) = List.length edges.
Proof.
  intros Hval Htype.
  destruct (validate_accepted_type data Hval) as (props & t & -> & _ & _).
  unfold validate, Validate.validate in Hval. rewrite Htype in Hval.
  cbn [is_object negb truthy String.eqb Ascii.eqb Bool.eqb includes validTypes
       existsb orb strict_equal] in Hval.
  destruct (flowchart_accepted _ Hval)
    as (nodes & edges & Hview & Hnd & Hedges).
  destruct (renderFlowchart_valid nodes edges Hnd)
    as (s & vb & Hr & Hw & Hrects & Hpaths).
  { eapply Forall_impl; [|exact Hedges]. cbn beta. tauto. }
  exists nodes, edges, s, vb.
  split; [exact Hview|]. split; [exact Hnd|]. split; [exact Hedges|].
  split; [|auto].
  unfold compileAndRender, Compile.compileAndRender. rewrite Htype.
  cbn [strict_equal String.eqb Ascii.eqb Bool.eqb]. rewrite Hview.
  cbn [option_map]. now rewrite Hr.
Qed.

Lemma renderERD_valid entities relationships :
  NoDup (map ERD.e_name entities) ->
  Forall (fun r => In (ERD.rel_from r) (map ERD.e_name entities)
                   /\ In (ERD.rel_to r) (map ERD.e_name entities))
    relationships ->
  exists s vb,
    fst (ERD.renderERD getComputedTextLength localeCompare
           (ERD.mkData (Some entities) (Some relationships)))
    = Success s vb
    /\ sc_warnings s = []
    /\ List.length (sc_rects s) = List.length entities
    /\ List.length (sc_paths s) = List.length relationships.
Proof.
  intros Hnd Hrels.
  destruct (ERDMore.renderERD_scene getComputedTextLength localeCompare
              entities relationships)
    as (ps & s & Hr & Hrects & Hp & Hw & Hndps & Hnames & _).
  exists s. eexists. split; [exact Hr|].
  assert (Hd : Forall (fun r => ERDSpec.linked (map ERD.e_name entities) r
                                = true) relationships).
  { eapply Forall_impl; [|exact Hrels]. intros r [Hf Ht].
    unfold ERDSpec.linked.
    apply LayeringFacts.mem_true_iff in Hf, Ht. now rewrite Hf, Ht. }
  rewrite (filter_none _ _ Hd) in Hw. rewrite (filter_all _ _ Hd) in Hp.
  split; [exact Hw|]. split.
  - rewrite Hrects, length_map, <- (length_map ERD.name).
    rewrite <- (length_map ERD.e_name entities).
    apply Permutation_length. apply NoDup_Permutation; assumption.
  - apply (f_equal (@List.length _)) in Hp. now rewrite !length_map in Hp.
Qed.

(** X25. An ERD document that [validate] accepts is rendered whole: its
    entity names are distinct, every relationship joins entities of the
    document and has one of the five cardinalities, and
    [compileAndRender] returns success with one box per entity, one line
    per relationship and no diagnostic. *)
Theorem accepted_erd_is_rendered (data : value) :
  validate data = inr [] ->
  prop data "type" = JStr "erd" ->
  exists entities relationships s vb,
    erd_data data
    = Some (ERD.mkData (Some entities) (Some relationships))
    /\ NoDup (map ERD.e_name entities)
    /\ Forall (fun r => In (ERD.rel_from r) (map ERD.e_name entities)
                        /\ In (ERD.rel_to r) (map ERD.e_name entities)
                        /\ In (ERD.cardinality r) validCardinalities)
         relationships
    /\ compileAndRender data = Some (Success s vb)
    /\ sc_warnings s = []
    /\ List.length (sc_rects s) = List.length entities
    /\ List.length (sc_paths s) = List.length relationships.
Proof.
  intros Hval Htype.
  destruct (validate_accepted_type data Hval) as (props & t & -> & _ & _).
  unfold validate, Validate.validate in Hval. rewrite Htype in Hval.
  cbn [is_object negb truthy String.eqb Ascii.eqb Bool.eqb includes validTypes
       existsb orb strict_equal] in Hval.
  injection Hval as Hval.
  destruct (erd_accepted _ Hval)
    as (entities & relationships & Hview & Hnd & Hrels & _).
  destruct (renderERD_valid entities relationships Hnd)
    as (s & vb & Hr & Hw & Hrects & Hpaths).
  { eapply Forall_impl; [|exact Hrels]. cbn beta. tauto. }
  exists entities, relationships, s, vb.
  split; [exact Hview|]. split; [exact Hnd|]. split; [exact Hrels|].
  split; [|auto].
  unfold compileAndRender, Compile.compileAndRender. rewrite Htype.
  cbn [strict_equal String.eqb Ascii.eqb Bool.eqb]. rewrite Hview.
  cbn [option_map]. now rewrite Hr.
Qed.

End Rendering.

End Accepting.

Lemma accepted_sequence_witness :
  exists participants messages s vb,
    sequence_data sample_sequence
    = Some (Sequence.mkData (Some participants) (Some messages))
    /\ NoDup participants
    /\ Forall (SequenceSpec.known_message participants) messages
    /\ Compile.compileAndRender (fun _ => "0") approximateTextLength
         ERD.codeUnitCompare sample_sequence
       = Some (Success s vb)
    /\ sc_warnings s = [].
Proof.
  apply (accepted_sequence_is_rendered (fun _ => "0") "" approximateTextLength
           ERD.codeUnitCompare sample_sequence); reflexivity.
Defined.

Lemma accepted_flowchart_witness :
  exists nodes edges s vb,
    flowchart_data sample_flowchart
    = Some (Flowchart.mkData (Some nodes) (Some edges))
    /\ NoDup (map Flowchart.n_id nodes)
    /\ Forall (fun e => In (Flowchart.e_from e) (map Flowchart.n_id nodes)
                        /\ In (Flowchart.e_to e) (map Flowchart.n_id nodes)
                        /\ Flowchart.e_from e <> Flowchart.e_to e) edges
    /\ Compile.compileAndRender (fun _ => "0") approximateTextLength
         ERD.codeUnitCompare sample_flowchart
       = Some (Success s vb)
    /\ sc_warnings s = []
    /\ List.length (sc_rects s) = List.length nodes
    /\ List.length (sc_paths s) = List.length edges.
Proof.
  apply (accepted_flowchart_is_rendered (fun _ => "0") "" approximateTextLength
           ERD.codeUnitCompare sample_flowchart); reflexivity.
Defined.

Lemma validate_throws_witness :
  Validate.validate (fun _ => "5") "" numeric_direction = inl "TypeError".
Proof.
  apply (validate_throws_on_non_string_direction (fun _ => "5") ""
           numeric_direction [] []); reflexivity.
Defined.

Lemma accepted_erd_witness :
  exists entities relationships s vb,
    erd_data sample_erd
    = Some (ERD.mkData (Some entities) (Some relationships))
    /\ NoDup (map ERD.e_name entities)
    /\ Forall (fun r => In (ERD.rel_from r) (map ERD.e_name entities)
                        /\ In (ERD.rel_to r) (map ERD.e_name entities)
                        /\ In (ERD.cardinality r) validCardinalities)
         relationships
    /\ Compile.compileAndRender (fun _ => "0") approximateTextLength
         ERD.codeUnitCompare sample_erd
       = Some (Success s vb)
    /\ sc_warnings s = []
    /\ List.length (sc_rects s) = List.length entities
    /\ List.length (sc_paths s) = List.length relationships.
Proof.
  apply (accepted_erd_is_rendered (fun _ => "0") "" approximateTextLength
           ERD.codeUnitCompare sample_erd); reflexivity.
Defined.

Lemma accepted_erd_keyed_witness :
  exists entities relationships,
    erd_data sample_erd
    = Some (ERD.mkData (Some entities) (Some relationships))
    /\ Forall keyed_entity entities
    /\ foreign_keys_backwards [] entities.
Proof.
  apply (accepted_erd_is_keyed (fun _ => "0") "" sample_erd); reflexivity.
Defined.

End PipelineFacts.
